(** * MindFry SDK transport core: frame decoder and request pipeline

    A shallow embedding of
      - packages/client/src/framer.ts    (class FrameDecoder)
      - packages/client/src/pipeline.ts  (class RequestPipeline, MindFryError)
      - packages/protocol/src/frames.ts  (encodeString, decodeString,
                                          encodeFrame, parseFrame,
                                          PayloadBuilder, PayloadReader)
      - packages/protocol/src/opcodes.ts, errors.ts (the two enums and
                                          their names)
      - packages/client/src/client.ts    (the requests of class MindFry)
    followed by the properties of the transport layer, of the payload
    format and of the requests.

    Conventions of the embedding.
      - A Buffer / Uint8Array is a [list byte]; [subarray] and [slice] are
        [firstn]/[skipn] (views and copies are not distinguished: no code
        path writes into a buffer after it was handed out).
      - A JavaScript number that holds an integer is a [Z]; lengths are [nat].
      - A JavaScript string is represented by its UTF-8 encoding, as a
        [string] of bytes; TextDecoder.decode is the decoder of the Encoding
        Standard, which repairs ill-formed input and drops a byte order
        mark.
      - A [Map] is an association list in insertion order.
      - A promise is named by a number; every call of its resolve or reject
        function is appended to a log, and the promise is settled by the first
        such call (later calls are ignored by the promise).
      - An exception is an explicit [Throw] completion. *)

From Stdlib Require Import ZArith List Lia Bool.
From Stdlib Require Import Strings.Byte.
From Stdlib Require Strings.String Strings.Ascii.
From Stdlib Require HexadecimalString HexadecimalZ.
From Stdlib Require Import Sorting.Sorted.
Import ListNotations.

Local Open Scope Z_scope.

(* ================================================================= *)
(** ** JavaScript values used by the code *)

Module Js.

(** Errors constructed or forwarded by the two classes. *)
Inductive Error : Type :=
| FrameTooLarge (frameLen maxFrameSize : Z)
    (* framer.ts: new Error(`Frame too large: ${frameLen} > ${max}`) *)
| PipelineBackpressure (pendingSize : nat)
    (* new Error(`Pipeline backpressure: ${size} pending requests`) *)
| ConnectionClosed            (* new Error('Connection closed') *)
| PipelineDestroyed           (* new Error('Pipeline destroyed') *)
| RequestTimeout (timeout : Z)
    (* new Error(`Request timeout after ${timeout}ms`) *)
| MindFryError (code : Z) (message : String.string)
    (* class MindFryError: fields [code] and (inherited) [message] *)
| SocketFailure (what : String.string)
    (* an error object handed over by node:net *)
| RangeError.
    (* thrown by a DataView read outside its bounds *)

(** How a call of a function ends. *)
Inductive Completion (S : Type) : Type :=
| Normal (s : S)
| Throw (exn : Error) (s : S).
Arguments Normal {S} s.
Arguments Throw {S} exn s.

(** How the evaluation of an expression ends. *)
Inductive Result (A : Type) : Type :=
| Returns (a : A)
| Throws (exn : Error).
Arguments Returns {A} a.
Arguments Throws {A} exn.

(** Whether a call returned, and the state it ended in. *)
Definition returned {S : Type} (c : Completion S) : bool :=
  match c with Normal _ => true | Throw _ _ => false end.

Definition state {S : Type} (c : Completion S) : S :=
  match c with Normal s => s | Throw _ s => s end.

(** ToInt32 of the language specification, on integral numbers. *)
Definition ToInt32 (x : Z) : Z :=
  let m := x mod 2 ^ 32 in
  if 2 ^ 31 <=? m then m - 2 ^ 32 else m.

(** The binary [&] operator: both operands go through ToInt32 and the
    result is the (signed) 32-bit integer with the common bits. *)
Definition bitand (a b : Z) : Z := Z.land (ToInt32 a) (ToInt32 b).

(** Map<K = number, V>: entries in insertion order. *)
Section Map.
Context {V : Type}.
Definition Map := list (Z * V).

Definition size (m : Map) : nat := length m.

Definition has (k : Z) (m : Map) : bool :=
  existsb (fun e => fst e =? k) m.

(** [set] on a key that is present replaces the value in place; a new
    key is appended. *)
Fixpoint set (k : Z) (v : V) (m : Map) : Map :=
  match m with
  | [] => [(k, v)]
  | (k', v') :: m' =>
      if k' =? k then (k, v) :: m' else (k', v') :: set k v m'
  end.

Definition delete (k : Z) (m : Map) : Map :=
  filter (fun e => negb (fst e =? k)) m.

(** [m.entries().next()]: the oldest entry, if any. *)
Definition first (m : Map) : option (Z * V) := hd_error m.
End Map.
Arguments Map V : clear implicits.

End Js.

(* ================================================================= *)
(** ** Bytes and little-endian integers (Buffer, DataView) *)

Module Bytes.

Definition to_Z (b : byte) : Z := Z.of_N (Byte.to_N b).

Definition of_Z (z : Z) : byte :=
  match Byte.of_N (Z.to_N (z mod 256)) with
  | Some b => b
  | None => x00
  end.

(** buf.readUInt32LE(0) / view.getUint32(0, true), for a buffer that
    holds at least four bytes. *)
Definition readUInt32LE (buf : list byte) : Z :=
  match buf with
  | b0 :: b1 :: b2 :: b3 :: _ =>
      to_Z b0 + to_Z b1 * 2 ^ 8 + to_Z b2 * 2 ^ 16 + to_Z b3 * 2 ^ 24
  | _ => 0
  end.

(** view.setUint32(0, n, true) *)
Definition writeUInt32LE (n : Z) : list byte :=
  [of_Z n; of_Z (n / 2 ^ 8); of_Z (n / 2 ^ 16); of_Z (n / 2 ^ 24)].

(** view.getUint16(0, true) *)
Definition readUInt16LE (buf : list byte) : Z :=
  match buf with
  | b0 :: b1 :: _ => to_Z b0 + to_Z b1 * 2 ^ 8
  | _ => 0
  end.

(** view.setUint16(0, n, true) *)
Definition writeUInt16LE (n : Z) : list byte :=
  [of_Z n; of_Z (n / 2 ^ 8)].

(** buf.subarray(start, end) / data.slice(start, end); both clamp. *)
Definition subarray (start stop : nat) (buf : list byte) : list byte :=
  firstn (stop - start) (skipn start buf).

Definition subarrayFrom (start : nat) (buf : list byte) : list byte :=
  skipn start buf.

End Bytes.

(* ================================================================= *)
(** ** framer.ts *)

Module Framer.
Import Js Bytes.

Record FrameDecoder : Type := {
  buffer : list byte;
  maxFrameSize : Z
}.

(** constructor(maxFrameSize = 16 * 1024 * 1024) *)
Definition DEFAULT_MAX_FRAME_SIZE : Z := 16 * 1024 * 1024.

Definition new (maxFrameSize : Z) : FrameDecoder :=
  {| buffer := []; maxFrameSize := maxFrameSize |}.

Definition with_buffer (buf : list byte) (d : FrameDecoder) : FrameDecoder :=
  {| buffer := buf; maxFrameSize := maxFrameSize d |}.

(** The listeners registered on the emitter, acting on a state [S] of
    their own (the decoder never looks at it). *)
Record Listeners (S : Type) : Type := {
  onFrame : list byte -> S -> Completion S;
  onError : Error -> S -> Completion S
}.
Arguments onFrame {S} _ _ _.
Arguments onError {S} _ _ _.

(** The [while (this.buffer.length >= 4)] loop of [push].  Every turn
    that continues drops at least four bytes, so [length buf] turns are
    always enough; [fuel] counts the turns left.  A listener that throws
    aborts [push] where it stands: the buffer keeps the frame. *)
Fixpoint drain {S : Type} (L : Listeners S) (max : Z) (fuel : nat)
    (buf : list byte) (s : S) : list byte * Completion S :=
  match fuel with
  | O => (buf, Normal s)
  | Datatypes.S fuel' =>
      if (4 <=? length buf)%nat then
        let frameLen := readUInt32LE buf in
        if max <? frameLen then
          match onError L (FrameTooLarge frameLen max) s with
          | Normal s' => ([], Normal s')
          | Throw e s' => (buf, Throw e s')
          end
        else if Z.of_nat (length buf) <? 4 + frameLen then
          (buf, Normal s)
        else
          let payload := subarray 4 (4 + Z.to_nat frameLen) buf in
          match onFrame L payload s with
          | Normal s' =>
              drain L max fuel' (subarrayFrom (4 + Z.to_nat frameLen) buf) s'
          | Throw e s' => (buf, Throw e s')
          end
      else (buf, Normal s)
  end.

(** push(chunk), with the listeners made explicit. *)
Definition pushWith {S : Type} (L : Listeners S) (chunk : list byte)
    (d : FrameDecoder) (s : S) : FrameDecoder * Completion S :=
  let buf := buffer d ++ chunk in
  let r := drain L (maxFrameSize d) (length buf) buf s in
  (with_buffer (fst r) d, snd r).

(** get pendingBytes() *)
Definition pendingBytes (d : FrameDecoder) : nat := length (buffer d).

(** reset() *)
Definition reset (d : FrameDecoder) : FrameDecoder := with_buffer [] d.

(** What the emitter emits. *)
Inductive Event : Type :=
| FrameEvent (payload : list byte)
| ErrorEvent (err : Error).

(** Listeners that only record what they are called with, like the
    mock handlers of framer.test.ts. *)
Definition recorder : Listeners (list Event) :=
  {| onFrame := fun payload log => Normal (log ++ [FrameEvent payload]);
     onError := fun err log => Normal (log ++ [ErrorEvent err]) |}.

Definition events (c : Completion (list Event)) : list Event :=
  match c with
  | Normal log => log
  | Throw _ log => log
  end.

(** One [push] observed through the recording listeners. *)
Definition push (chunk : list byte) (d : FrameDecoder)
  : FrameDecoder * list Event :=
  let r := pushWith recorder chunk d [] in
  (fst r, events (snd r)).

(** Successive [push] calls, with everything they emit. *)
Fixpoint pushAll (chunks : list (list byte)) (d : FrameDecoder)
  : FrameDecoder * list Event :=
  match chunks with
  | [] => (d, [])
  | c :: cs =>
      let r := push c d in
      let r' := pushAll cs (fst r) in
      (fst r', snd r ++ snd r')
  end.

(** The wire form of one frame: [Length: u32 LE] + [Payload]. *)
Definition frameBytes (payload : list byte) : list byte :=
  writeUInt32LE (Z.of_nat (length payload)) ++ payload.

(** A payload that one frame can carry: its length fits the header
    field and the configured limit. *)
Definition wellFormed (max : Z) (payload : list byte) : Prop :=
  Z.of_nat (length payload) <= max /\ Z.of_nat (length payload) < 2 ^ 32.

Definition isError (e : Event) : bool :=
  match e with FrameEvent _ => false | ErrorEvent _ => true end.

End Framer.

(* ================================================================= *)
(** ** opcodes.ts, errors.ts, frames.ts *)

Module Protocol.
Import Js Bytes.
Import String.

(** enum OpCode: the response codes. *)
Definition RESPONSE_OK : Z := 0xf0.
Definition RESPONSE_ERROR : Z := 0xf1.
Definition RESPONSE_EVENT : Z := 0xf2.

Definition isResponseOpCode (opcode : Z) : bool := 0xf0 <=? opcode.

(** enum ErrorCode and its reverse mapping [ErrorCode[code]]
    ([None] is JavaScript's undefined). *)
Definition ErrorCode_name (code : Z) : option String.string :=
  if code =? 0x00 then Some "UNKNOWN"%string
  else if code =? 0x01 then Some "INVALID_OPCODE"%string
  else if code =? 0x02 then Some "MALFORMED_PAYLOAD"%string
  else if code =? 0x10 then Some "LINEAGE_NOT_FOUND"%string
  else if code =? 0x11 then Some "LINEAGE_EXISTS"%string
  else if code =? 0x20 then Some "BOND_NOT_FOUND"%string
  else if code =? 0x21 then Some "BOND_EXISTS"%string
  else if code =? 0x30 then Some "SNAPSHOT_NOT_FOUND"%string
  else if code =? 0xff then Some "INTERNAL"%string
  else None.

(** new TextEncoder().encode(str), on a string held as UTF-8. *)
Definition TextEncoder_encode (str : String.string) : list byte :=
  String.list_byte_of_string str.

(** new TextDecoder().decode(bytes): the UTF-8 decoder of the Encoding
    Standard in its default mode.  Each ill-formed part of the input is
    replaced by U+FFFD and a leading U+FEFF is dropped (ignoreBOM is
    false).  As strings are held as UTF-8, a sequence that decodes to a
    code point is passed on as it is. *)
Definition REPLACEMENT : list byte := [xef; xbf; xbd].   (* U+FFFD *)
Definition BOM : list byte := [xef; xbb; xbf].           (* U+FEFF *)

(** The decoder inside a sequence: how many bytes are needed, the bytes
    seen, and the bounds on the next byte. *)
Record Utf8State : Type := {
  needed : nat;
  seen : list byte;
  lower : Z;
  upper : Z
}.

(** A byte met when no sequence is open. *)
Definition utf8_lead (b : byte) : list byte * option Utf8State :=
  let z := to_Z b in
  if z <=? 0x7f then ([b], None)
  else if (0xc2 <=? z) && (z <=? 0xdf) then
    ([], Some {| needed := 1; seen := [b]; lower := 0x80; upper := 0xbf |})
  else if (0xe0 <=? z) && (z <=? 0xef) then
    ([], Some {| needed := 2; seen := [b];
                 lower := if z =? 0xe0 then 0xa0 else 0x80;
                 upper := if z =? 0xed then 0x9f else 0xbf |})
  else if (0xf0 <=? z) && (z <=? 0xf4) then
    ([], Some {| needed := 3; seen := [b];
                 lower := if z =? 0xf0 then 0x90 else 0x80;
                 upper := if z =? 0xf4 then 0x8f else 0xbf |})
  else (REPLACEMENT, None).

Fixpoint utf8_decode (st : option Utf8State) (bytes : list byte)
  : list byte :=
  match bytes with
  | [] => match st with Some _ => REPLACEMENT | None => [] end
  | b :: rest =>
      match st with
      | None =>
          let (out, st') := utf8_lead b in out ++ utf8_decode st' rest
      | Some s =>
          if (lower s <=? to_Z b) && (to_Z b <=? upper s) then
            match needed s with
            | 0%nat | 1%nat => (seen s ++ [b]) ++ utf8_decode None rest
            | Datatypes.S n =>
                utf8_decode
                  (Some {| needed := n; seen := seen s ++ [b];
                           lower := 0x80; upper := 0xbf |}) rest
            end
          else
            let (out, st') := utf8_lead b in
            REPLACEMENT ++ out ++ utf8_decode st' rest
      end
  end.

Definition dropBOM (bytes : list byte) : list byte :=
  match bytes with
  | b0 :: b1 :: b2 :: rest =>
      if Byte.eqb b0 xef && Byte.eqb b1 xbb && Byte.eqb b2 xbf
      then rest else bytes
  | _ => bytes
  end.

Definition TextDecoder_decode (bytes : list byte) : String.string :=
  String.string_of_list_byte (dropBOM (utf8_decode None bytes)).

(** Well-formed UTF-8 (the byte sequences of table 3-7 of the Unicode
    Standard). *)
Definition inRange (lo hi : Z) (b : byte) : Prop := lo <= to_Z b <= hi.

Inductive Utf8 : list byte -> Prop :=
| Utf8_nil : Utf8 []
| Utf8_1 (b : byte) (rest : list byte) :
    inRange 0x00 0x7f b -> Utf8 rest -> Utf8 (b :: rest)
| Utf8_2 (b1 b2 : byte) (rest : list byte) :
    inRange 0xc2 0xdf b1 -> inRange 0x80 0xbf b2 ->
    Utf8 rest -> Utf8 (b1 :: b2 :: rest)
| Utf8_3 (b1 b2 b3 : byte) (rest : list byte) :
    inRange 0xe0 0xef b1 ->
    inRange (if to_Z b1 =? 0xe0 then 0xa0 else 0x80)
            (if to_Z b1 =? 0xed then 0x9f else 0xbf) b2 ->
    inRange 0x80 0xbf b3 ->
    Utf8 rest -> Utf8 (b1 :: b2 :: b3 :: rest)
| Utf8_4 (b1 b2 b3 b4 : byte) (rest : list byte) :
    inRange 0xf0 0xf4 b1 ->
    inRange (if to_Z b1 =? 0xf0 then 0x90 else 0x80)
            (if to_Z b1 =? 0xf4 then 0x8f else 0xbf) b2 ->
    inRange 0x80 0xbf b3 -> inRange 0x80 0xbf b4 ->
    Utf8 rest -> Utf8 (b1 :: b2 :: b3 :: b4 :: rest).

(** encodeString: [u16 length][utf8 bytes] *)
Definition encodeString (str : String.string) : list byte :=
  let bytes := TextEncoder_encode str in
  writeUInt16LE (Z.of_nat (List.length bytes)) ++ bytes.

(** decodeString(data, offset), for a [data] that owns its ArrayBuffer
    (the only use below): the DataView starts at [offset] and reaches the
    end of [data]; [getUint16] throws unless two bytes are there;
    [slice] clamps.  Returns [string, bytesConsumed]. *)
Definition decodeString (data : list byte) (offset : nat)
  : Result (String.string * nat) :=
  if (List.length data <? offset + 2)%nat then Throws RangeError
  else
    let len := Z.to_nat (readUInt16LE (skipn offset data)) in
    let bytes := subarray (offset + 2) (offset + 2 + len) data in
    Returns (TextDecoder_decode bytes, (2 + len)%nat).

(** encodeFrame(opcode, payload) *)
Definition encodeFrame (opcode : Z) (payload : list byte) : list byte :=
  let totalLength := (1 + List.length payload)%nat in
  writeUInt32LE (Z.of_nat totalLength) ++ of_Z opcode :: payload.

(** class PayloadReader *)
Record PayloadReader : Type := {
  data : list byte;
  offset : nat
}.

Definition newPayloadReader (data : list byte) : PayloadReader :=
  {| data := data; offset := 0 |}.

Definition readU8 (r : PayloadReader) : Result (Z * PayloadReader) :=
  match nth_error (data r) (offset r) with
  | Some b => Returns (to_Z b, {| data := data r; offset := offset r + 1 |})
  | None => Throws RangeError
  end.

Definition readString (r : PayloadReader)
  : Result (String.string * PayloadReader) :=
  match decodeString (data r) (offset r) with
  | Returns (str, consumed) =>
      Returns (str, {| data := data r; offset := offset r + consumed |})
  | Throws e => Throws e
  end.

(** new MindFryError(code, message):
    super(`[${ErrorCode[code]}] ${message}`) *)
Definition newMindFryError (code : Z) (message : String.string) : Error :=
  let name := match ErrorCode_name code with
              | Some n => n
              | None => "undefined"%string
              end in
  MindFryError code ("[" ++ name ++ "] " ++ message)%string.

End Protocol.

(* ================================================================= *)
(** ** pipeline.ts *)

Module Pipeline.
Import Js Bytes Protocol.

(** The two messages given to console.warn. *)
Module Warn.
Import String.
Definition emptyFrame : string := "Received empty frame"%string.
Definition noPendingRequest : string :=
  "Received response with no pending request"%string.
End Warn.

(** interface PendingRequest.  [resolve] and [reject] are the two
    functions of one promise, the one [send] returned; [promise] names
    it. *)
Record PendingRequest : Type := {
  promise : nat;
  opcode : Z;
  timestamp : Z
}.

Record PipelineConfig : Type := {
  timeout : Z;
  maxPending : Z;
  maxFrameSize : Z
}.

Definition DEFAULT_CONFIG : PipelineConfig :=
  {| timeout := 30000; maxPending := 1000; maxFrameSize := 16 * 1024 * 1024 |}.

(** Partial<PipelineConfig> and [{ ...DEFAULT_CONFIG, ...config }], for
    a config in which each key is absent ([None]) or holds an integer.  A
    key present with the value undefined, which the spread would copy over
    the default, and a number that is not an integer are outside this
    embedding: what is proved of [new c] is proved of such configs
    only. *)
Record PartialConfig : Type := {
  timeout_opt : option Z;
  maxPending_opt : option Z;
  maxFrameSize_opt : option Z
}.

Definition noConfig : PartialConfig :=
  {| timeout_opt := None; maxPending_opt := None; maxFrameSize_opt := None |}.

Definition orDefault (o : option Z) (d : Z) : Z :=
  match o with Some v => v | None => d end.

Definition mergeConfig (c : PartialConfig) : PipelineConfig :=
  {| timeout := orDefault (timeout_opt c) (timeout DEFAULT_CONFIG);
     maxPending := orDefault (maxPending_opt c) (maxPending DEFAULT_CONFIG);
     maxFrameSize :=
       orDefault (maxFrameSize_opt c) (maxFrameSize DEFAULT_CONFIG) |}.

(** The fields of class RequestPipeline ([timeoutChecker]: [true] for a
    running interval, [false] for null). *)
Record RequestPipeline : Type := {
  sequenceId : Z;
  pending : Map PendingRequest;
  decoder : Framer.FrameDecoder;
  config : PipelineConfig;
  timeoutChecker : bool
}.

(** A call of a promise's [resolve] or [reject]. *)
Inductive Settlement : Type :=
| Resolved (payload : list byte)
| Rejected (err : Error).

(** The pipeline together with what it acts on: the listener table of
    its decoder, the promises it created and the calls made on them, the
    socket (each write with the sequence number and promise its callback
    closes over) and the console. *)
Record World : Type := {
  pipeline : RequestPipeline;
  listening : bool;
  promises : nat;
  calls : list (nat * Settlement);
  socketWrites : list (list byte * (Z * nat));
  warnings : list String.string
}.

(** The state of promise [p]: the first call made on it. *)
Definition promiseState (log : list (nat * Settlement)) (p : nat)
  : option Settlement :=
  option_map snd (find (fun c => Nat.eqb (fst c) p) log).

(** The number of calls made on promise [p]. *)
Definition invocations (log : list (nat * Settlement)) (p : nat) : nat :=
  length (filter (fun c => Nat.eqb (fst c) p) log).

(* --- field updates --- *)

Definition with_pipeline (f : RequestPipeline -> RequestPipeline) (w : World)
  : World :=
  {| pipeline := f (pipeline w); listening := listening w;
     promises := promises w; calls := calls w;
     socketWrites := socketWrites w; warnings := warnings w |}.

Definition set_sequenceId (s : Z) (w : World) : World :=
  with_pipeline (fun p =>
    {| sequenceId := s; pending := pending p; decoder := decoder p;
       config := config p; timeoutChecker := timeoutChecker p |}) w.

Definition set_pending (m : Map PendingRequest) (w : World) : World :=
  with_pipeline (fun p =>
    {| sequenceId := sequenceId p; pending := m; decoder := decoder p;
       config := config p; timeoutChecker := timeoutChecker p |}) w.

Definition set_decoder (d : Framer.FrameDecoder) (w : World) : World :=
  with_pipeline (fun p =>
    {| sequenceId := sequenceId p; pending := pending p; decoder := d;
       config := config p; timeoutChecker := timeoutChecker p |}) w.

Definition set_timeoutChecker (t : bool) (w : World) : World :=
  with_pipeline (fun p =>
    {| sequenceId := sequenceId p; pending := pending p;
       decoder := decoder p; config := config p; timeoutChecker := t |}) w.

Definition set_listening (l : bool) (w : World) : World :=
  {| pipeline := pipeline w; listening := l; promises := promises w;
     calls := calls w; socketWrites := socketWrites w;
     warnings := warnings w |}.

(** new Promise(...): the next promise. *)
Definition newPromise (w : World) : nat * World :=
  (promises w,
   {| pipeline := pipeline w; listening := listening w;
      promises := S (promises w); calls := calls w;
      socketWrites := socketWrites w; warnings := warnings w |}).

Definition call (p : nat) (s : Settlement) (w : World) : World :=
  {| pipeline := pipeline w; listening := listening w;
     promises := promises w; calls := calls w ++ [(p, s)];
     socketWrites := socketWrites w; warnings := warnings w |}.

Definition add_calls (cs : list (nat * Settlement)) (w : World) : World :=
  {| pipeline := pipeline w; listening := listening w;
     promises := promises w; calls := calls w ++ cs;
     socketWrites := socketWrites w; warnings := warnings w |}.

(** req.resolve(buf), that is resolve(new Uint8Array(buf)) *)
Definition resolve (req : PendingRequest) (buf : list byte) : World -> World :=
  call (promise req) (Resolved buf).

(** req.reject(err) *)
Definition reject (req : PendingRequest) (err : Error) : World -> World :=
  call (promise req) (Rejected err).

(** this.socket.write(frame, callback) *)
Definition socket_write (frame : list byte) (seqId : Z) (p : nat) (w : World)
  : World :=
  {| pipeline := pipeline w; listening := listening w;
     promises := promises w; calls := calls w;
     socketWrites := socketWrites w ++ [(frame, (seqId, p))];
     warnings := warnings w |}.

(** console.warn(msg) *)
Definition console_warn (msg : String.string) (w : World) : World :=
  {| pipeline := pipeline w; listening := listening w;
     promises := promises w; calls := calls w;
     socketWrites := socketWrites w; warnings := warnings w ++ [msg] |}.

(** [for (const [seqId, req] of this.pending) body].  The iterator of a
    Map is live, but each loop of pipeline.ts deletes no entry other than
    the one it is visiting, so the entries visited are those present when
    the loop starts, oldest first. *)
Definition forOfPending (body : Z -> PendingRequest -> World -> World)
    (w : World) : World :=
  fold_left (fun w e => body (fst e) (snd e) w) (pending (pipeline w)) w.

(* --- the class --- *)

(** private nextSequenceId() *)
Definition nextSequenceId (w : World) : Z * World :=
  let s := bitand (sequenceId (pipeline w) + 1) 0xffffffff in
  (s, set_sequenceId s w).

(** send(frame, opcode); [now] is what Date.now() returns. *)
Definition send (frame : list byte) (opcode : Z) (now : Z) (w : World)
  : World :=
  let (p, w) := newPromise w in
  let size := size (pending (pipeline w)) in
  if maxPending (config (pipeline w)) <=? Z.of_nat size then
    call p (Rejected (PipelineBackpressure size)) w
  else
    let (seqId, w) := nextSequenceId w in
    let w := set_pending
               (set seqId {| promise := p; opcode := opcode; timestamp := now |}
                    (pending (pipeline w))) w in
    socket_write frame seqId p w.

(** The callback given to the [i]-th socket.write, called with [err]. *)
Definition writeCallback (i : nat) (err : option Error) (w : World) : World :=
  match nth_error (socketWrites w) i, err with
  | Some (_, (seqId, p)), Some e =>
      let w := set_pending (delete seqId (pending (pipeline w))) w in
      call p (Rejected e) w
  | _, _ => w
  end.

(** private handleFrame(payload) *)
Definition handleFrame (payload : list byte) (w : World) : Completion World :=
  if (length payload <? 1)%nat then
    Normal (console_warn Warn.emptyFrame w)
  else
    let opcode := to_Z (hd x00 payload) in
    let data := subarrayFrom 1 payload in
    match first (pending (pipeline w)) with
    | None =>
        Normal (console_warn Warn.noPendingRequest w)
    | Some (seqId, request) =>
        let w := set_pending (delete seqId (pending (pipeline w))) w in
        if opcode =? RESPONSE_ERROR then
          match readU8 (newPayloadReader data) with
          | Throws e => Throw e w
          | Returns (errorCode, reader) =>
              match readString reader with
              | Throws e => Throw e w
              | Returns (message, _) =>
                  Normal (reject request (newMindFryError errorCode message) w)
              end
          end
        else Normal (resolve request data w)
    end.

(** private rejectAllPending(error) *)
Definition rejectAllPending (error : Error) (w : World) : World :=
  forOfPending (fun seqId req w =>
    let w := reject req error w in
    set_pending (delete seqId (pending (pipeline w))) w) w.

(** The function given to setInterval by startTimeoutChecker, run with
    Date.now() = [now]. *)
Definition timeoutCheck (now : Z) (w : World) : World :=
  forOfPending (fun seqId req w =>
    let t := timeout (config (pipeline w)) in
    if t <? now - timestamp req then
      let w := reject req (RequestTimeout t) w in
      set_pending (delete seqId (pending (pipeline w))) w
    else w) w.

(** destroy() *)
Definition destroy (w : World) : World :=
  let w := if timeoutChecker (pipeline w)
           then set_timeoutChecker false w else w in
  let w := set_listening false w in
  let w := set_decoder (Framer.reset (decoder (pipeline w))) w in
  forOfPending (fun seqId req w =>
    let w := reject req PipelineDestroyed w in
    set_pending (delete seqId (pending (pipeline w))) w) w.

(** constructor(socket, config) *)
Definition new (c : PartialConfig) : World :=
  let cfg := mergeConfig c in
  {| pipeline :=
       {| sequenceId := 0; pending := [];
          decoder := Framer.new (maxFrameSize cfg);
          config := cfg; timeoutChecker := true |};
     listening := true; promises := 0%nat; calls := [];
     socketWrites := []; warnings := [] |}.

(** The listeners of setupSocketHandlers on the decoder.  After
    removeAllListeners a frame event has no effect and an error event,
    having no listener, is thrown by the emitter. *)
Definition decoderListeners (w : World) : Framer.Listeners World :=
  if listening w then
    {| Framer.onFrame := handleFrame;
       Framer.onError := fun err w => Normal (rejectAllPending err w) |}
  else
    {| Framer.onFrame := fun _ w => Normal w;
       Framer.onError := fun err w => Throw err w |}.

(** socket 'data': this.decoder.push(chunk) *)
Definition socketData (chunk : list byte) (w : World) : Completion World :=
  let r := Framer.pushWith (decoderListeners w) chunk
             (decoder (pipeline w)) w in
  match snd r with
  | Normal w' => Normal (set_decoder (fst r) w')
  | Throw e w' => Throw e (set_decoder (fst r) w')
  end.

(** What the caller, the socket and the timer can do to the pipeline. *)
Inductive Event : Type :=
| Send (frame : list byte) (opcode : Z) (now : Z)
| WriteCallback (i : nat) (err : option Error)
| SocketData (chunk : list byte)
| SocketError (err : Error)
| SocketClose
| Timer (now : Z)
| Destroy.

Definition step (ev : Event) (w : World) : Completion World :=
  match ev with
  | Send frame opcode now => Normal (send frame opcode now w)
  | WriteCallback i err => Normal (writeCallback i err w)
  | SocketData chunk => socketData chunk w
  | SocketError err => Normal (rejectAllPending err w)
  | SocketClose => Normal (rejectAllPending ConnectionClosed w)
  | Timer now =>
      Normal (if timeoutChecker (pipeline w) then timeoutCheck now w else w)
  | Destroy => Normal (destroy w)
  end.

(** Events handled one after the other; an uncaught exception ends the
    run. *)
Fixpoint run (evs : list Event) (w : World) : Completion World :=
  match evs with
  | [] => Normal w
  | ev :: evs' =>
      match step ev w with
      | Normal w' => run evs' w'
      | Throw e w' => Throw e w'
      end
  end.

(** Frames handed to handleFrame one after the other. *)
Fixpoint handleFrames (frames : list (list byte)) (w : World)
  : Completion World :=
  match frames with
  | [] => Normal w
  | f :: fs =>
      match handleFrame f w with
      | Normal w' => handleFrames fs w'
      | Throw e w' => Throw e w'
      end
  end.

(** The call a broad failure makes on one entry of the pending map. *)
Definition rejection (err : Error) (e : Z * PendingRequest)
  : nat * Settlement :=
  (promise (snd e), Rejected err).

(** The promises of the entries of the pending map, oldest first. *)
Definition pendingPromises (w : World) : list nat :=
  map (fun e => promise (snd e)) (pending (pipeline w)).

(** The promises of the requests handed to the socket, oldest first. *)
Definition writtenPromises (w : World) : list nat :=
  map (fun x => snd (snd x)) (socketWrites w).

(** What handleFrame makes of a payload that is not empty: the call it
    settles the oldest entry with, unless reading the error body
    throws. *)
Definition readResponse (payload : list byte) : Result Settlement :=
  let opcode := to_Z (hd x00 payload) in
  let data := subarrayFrom 1 payload in
  if opcode =? RESPONSE_ERROR then
    match readU8 (newPayloadReader data) with
    | Throws e => Throws e
    | Returns (errorCode, reader) =>
        match readString reader with
        | Throws e => Throws e
        | Returns (message, _) =>
            Returns (Rejected (newMindFryError errorCode message))
        end
    end
  else Returns (Resolved data).

(** A frame that handleFrame answers the oldest request with. *)
Definition answers (frame : list byte) (s : Settlement) : Prop :=
  frame <> [] /\ readResponse frame = Returns s.

(** The call made on an entry that a frame answers. *)
Definition answer (x : (Z * PendingRequest) * Settlement)
  : nat * Settlement :=
  (promise (snd (fst x)), snd x).

Definition writeKey (x : list byte * (Z * nat)) : Z := fst (snd x).
Definition writePromise (x : list byte * (Z * nat)) : nat := snd (snd x).

(** The state of a pipeline in use: the pending map is a Map (no key
    twice), its entries are requests that were written, in the order of
    writing the sequence numbers are those of [nextSequenceId], and an
    entry is in the map exactly as long as none of its continuations was
    called. *)
Record Coherent (w : World) : Prop := {
  coh_keys : NoDup (map fst (pending (pipeline w)));
  coh_promises : NoDup (pendingPromises w);
  coh_written :
    forall e, In e (pending (pipeline w)) ->
              In (fst e, promise (snd e)) (map snd (socketWrites w));
  coh_writeKeys :
    forall i x, nth_error (socketWrites w) i = Some x ->
                writeKey x = ToInt32 (Z.of_nat i + 1);
  coh_sequenceId :
    sequenceId (pipeline w) = ToInt32 (Z.of_nat (length (socketWrites w)));
  coh_bound : Z.of_nat (length (socketWrites w)) <= 2 ^ 32;
  coh_writePromises : NoDup (writtenPromises w);
  coh_fresh :
    forall p, In p (writtenPromises w) \/ In p (map fst (calls w)) ->
              (p < promises w)%nat;
  coh_pending :
    forall p, In p (pendingPromises w) -> invocations (calls w) p = 0%nat;
  coh_settled :
    forall p, In p (writtenPromises w) -> ~ In p (pendingPromises w) ->
              (1 <= invocations (calls w) p)%nat
}.

(** A write callback that reports an error for a request whose entry is
    no longer in the pending map. *)
Definition lateWriteError (ev : Event) (w : World) : bool :=
  match ev with
  | WriteCallback i (Some _) =>
      match nth_error (socketWrites w) i with
      | Some x => negb (has (writeKey x) (pending (pipeline w)))
      | None => false
      end
  | _ => false
  end.

(** No event of the run is a late write error. *)
Fixpoint timely (evs : list Event) (w : World) : bool :=
  match evs with
  | [] => true
  | ev :: evs' =>
      negb (lateWriteError ev w)
      && match step ev w with
         | Normal w' => timely evs' w'
         | Throw _ _ => true
         end
  end.

(** [w'] comes after [w]: the logs of writes and calls have grown at the
    end and no promise was forgotten. *)
Definition Extends (w w' : World) : Prop :=
  (exists more, socketWrites w' = socketWrites w ++ more)
  /\ (exists more, calls w' = calls w ++ more)
  /\ (promises w <= promises w')%nat.

(** The test of the timeout sweep: now - req.timestamp > timeout. *)
Definition expired (t now : Z) (e : Z * PendingRequest) : bool :=
  t <? now - timestamp (snd e).

(** The shape shared by the three loops over the pending map: entries
    chosen by [sel] are rejected with [err] and deleted. *)
Definition sweep (sel : Z * PendingRequest -> bool) (err : Error)
    (w : World) (e : Z * PendingRequest) : World :=
  if sel e then
    let w := reject (snd e) err w in
    set_pending (delete (fst e) (pending (pipeline w))) w
  else w.

Definition sweepKeys (sel : Z * PendingRequest -> bool)
    (m : Map PendingRequest) (e : Z * PendingRequest) : Map PendingRequest :=
  if sel e then delete (fst e) m else m.

(** Requests sent one after the other. *)
Fixpoint sendAll (reqs : list (list byte * Z * Z)) (w : World) : World :=
  match reqs with
  | [] => w
  | (frame, opcode, now) :: reqs' => sendAll reqs' (send frame opcode now w)
  end.

End Pipeline.

(* ================================================================= *)
(** ** frames.ts: parseFrame, PayloadBuilder, the reads of PayloadReader *)

(** The float fields (writeF32, readF32) are left out: a number is an
    integer here. *)
Module Frames.
Import Js Bytes Protocol.

(** Maximum frame size (16MB safety limit) *)
Definition MAX_FRAME_SIZE : Z := 16 * 1024 * 1024.

(** interface ParsedFrame.  [opcode] is [buffer[4]], which is undefined
    ([None]) when the buffer ends before that index. *)
Record ParsedFrame : Type := {
  opcode : option Z;
  payload : list byte;
  totalLength : Z
}.

(** parseFrame(buffer): [Returns None] is null; the error thrown has
    the message of the decoder's, "Frame too large: <length> > <limit>". *)
Definition parseFrame (buffer : list byte) : Result (option ParsedFrame) :=
  if (length buffer <? 4)%nat then Returns None
  else
    let frameLength := readUInt32LE buffer in
    if MAX_FRAME_SIZE <? frameLength then
      Throws (FrameTooLarge frameLength MAX_FRAME_SIZE)
    else
      let totalLength := 4 + frameLength in
      if Z.of_nat (length buffer) <? totalLength then Returns None
      else
        Returns (Some {| opcode := option_map to_Z (nth_error buffer 4);
                         payload := subarray 5 (Z.to_nat totalLength) buffer;
                         totalLength := totalLength |}).

(** class PayloadBuilder *)
Record PayloadBuilder : Type := {
  chunks : list (list byte);
  totalSize : nat
}.

Definition newPayloadBuilder : PayloadBuilder :=
  {| chunks := []; totalSize := 0 |}.

(** this.chunks.push(buf); this.totalSize += n *)
Definition pushChunk (buf : list byte) (n : nat) (b : PayloadBuilder)
  : PayloadBuilder :=
  {| chunks := chunks b ++ [buf]; totalSize := totalSize b + n |}.

(** buf[0] = value stores the value modulo 256. *)
Definition writeU8 (value : Z) : PayloadBuilder -> PayloadBuilder :=
  pushChunk [of_Z value] 1.

(** setInt8 stores the byte of the two's complement form. *)
Definition writeI8 (value : Z) : PayloadBuilder -> PayloadBuilder :=
  pushChunk [of_Z value] 1.

Definition writeU16 (value : Z) : PayloadBuilder -> PayloadBuilder :=
  pushChunk (writeUInt16LE value) 2.

Definition writeU32 (value : Z) : PayloadBuilder -> PayloadBuilder :=
  pushChunk (writeUInt32LE value) 4.

Definition writeString (value : String.string)
  : PayloadBuilder -> PayloadBuilder :=
  let encoded := encodeString value in
  pushChunk encoded (length encoded).

(** result.set(chunk, offset) on a typed array: a RangeError unless the
    chunk fits. *)
Definition TypedArray_set (result chunk : list byte) (offset : nat)
  : Result (list byte) :=
  if (length result <? offset + length chunk)%nat then Throws RangeError
  else
    Returns (firstn offset result ++ chunk
             ++ skipn (offset + length chunk) result).

(** The loop of build(). *)
Fixpoint buildLoop (chunks : list (list byte)) (result : list byte)
    (offset : nat) : Result (list byte) :=
  match chunks with
  | [] => Returns result
  | chunk :: rest =>
      match TypedArray_set result chunk offset with
      | Returns result' => buildLoop rest result' (offset + length chunk)
      | Throws e => Throws e
      end
  end.

(** build(): new Uint8Array(this.totalSize), filled chunk by chunk. *)
Definition build (b : PayloadBuilder) : Result (list byte) :=
  buildLoop (chunks b) (repeat x00 (totalSize b)) 0.

(** class PayloadReader, the members that Protocol does not have. *)
Definition remaining (r : PayloadReader) : Z :=
  Z.of_nat (length (data r)) - Z.of_nat (offset r).

Definition advance (n : nat) (r : PayloadReader) : PayloadReader :=
  {| data := data r; offset := offset r + n |}.

(** view.getUint16(this.offset, true); a DataView read that does not fit
    in the view throws. *)
Definition readU16 (r : PayloadReader) : Result (Z * PayloadReader) :=
  if (length (data r) <? offset r + 2)%nat then Throws RangeError
  else Returns (readUInt16LE (skipn (offset r) (data r)), advance 2 r).

Definition readU32 (r : PayloadReader) : Result (Z * PayloadReader) :=
  if (length (data r) <? offset r + 4)%nat then Throws RangeError
  else Returns (readUInt32LE (skipn (offset r) (data r)), advance 4 r).

(** view.getBigUint64(this.offset, true) *)
Definition readBigUInt64LE (buf : list byte) : Z :=
  readUInt32LE buf + readUInt32LE (skipn 4 buf) * 2 ^ 32.

Definition readU64 (r : PayloadReader) : Result (Z * PayloadReader) :=
  if (length (data r) <? offset r + 8)%nat then Throws RangeError
  else Returns (readBigUInt64LE (skipn (offset r) (data r)), advance 8 r).

(** readBool(): this.readU8() !== 0 *)
Definition readBool (r : PayloadReader) : Result (bool * PayloadReader) :=
  match readU8 r with
  | Returns (v, r') => Returns (negb (v =? 0), r')
  | Throws e => Throws e
  end.

(** A value that the builder writes and the reader reads, and its
    kind. *)
Inductive Value : Type :=
| VU8 (v : Z)
| VU16 (v : Z)
| VU32 (v : Z)
| VString (s : String.string).

Inductive Kind : Type := KU8 | KU16 | KU32 | KString.

Definition kindOf (v : Value) : Kind :=
  match v with
  | VU8 _ => KU8
  | VU16 _ => KU16
  | VU32 _ => KU32
  | VString _ => KString
  end.

(** The write method for a value. *)
Definition write (v : Value) : PayloadBuilder -> PayloadBuilder :=
  match v with
  | VU8 n => writeU8 n
  | VU16 n => writeU16 n
  | VU32 n => writeU32 n
  | VString s => writeString s
  end.

(** The read method for a kind. *)
Definition read (k : Kind) (r : PayloadReader)
  : Result (Value * PayloadReader) :=
  match k with
  | KU8 =>
      match readU8 r with
      | Returns (n, r') => Returns (VU8 n, r')
      | Throws e => Throws e
      end
  | KU16 =>
      match readU16 r with
      | Returns (n, r') => Returns (VU16 n, r')
      | Throws e => Throws e
      end
  | KU32 =>
      match readU32 r with
      | Returns (n, r') => Returns (VU32 n, r')
      | Throws e => Throws e
      end
  | KString =>
      match readString r with
      | Returns (s, r') => Returns (VString s, r')
      | Throws e => Throws e
      end
  end.

(** Chained writes: builder.write(v1).write(v2)... *)
Definition writeAll (vs : list Value) (b : PayloadBuilder) : PayloadBuilder :=
  fold_left (fun b v => write v b) vs b.

(** Reads one after the other. *)
Fixpoint readAll (ks : list Kind) (r : PayloadReader)
  : Result (list Value * PayloadReader) :=
  match ks with
  | [] => Returns ([], r)
  | k :: ks' =>
      match read k r with
      | Returns (v, r') =>
          match readAll ks' r' with
          | Returns (vs, r'') => Returns (v :: vs, r'')
          | Throws e => Throws e
          end
      | Throws e => Throws e
      end
  end.

(** The bytes that writing a value adds. *)
Definition encoded (v : Value) : list byte :=
  concat (chunks (write v newPayloadBuilder)).

(** The builders that the methods of the class can make. *)
Inductive Built : PayloadBuilder -> Prop :=
| Built_new : Built newPayloadBuilder
| Built_U8 (value : Z) (b : PayloadBuilder) :
    Built b -> Built (writeU8 value b)
| Built_I8 (value : Z) (b : PayloadBuilder) :
    Built b -> Built (writeI8 value b)
| Built_U16 (value : Z) (b : PayloadBuilder) :
    Built b -> Built (writeU16 value b)
| Built_U32 (value : Z) (b : PayloadBuilder) :
    Built b -> Built (writeU32 value b)
| Built_String (value : String.string) (b : PayloadBuilder) :
    Built b -> Built (writeString value b).

(** A value that fits its field: a number within the width, a text that
    is well-formed UTF-8, does not begin with U+FEFF and whose length
    fits the u16 prefix. *)
Definition fits (v : Value) : Prop :=
  match v with
  | VU8 n => 0 <= n < 2 ^ 8
  | VU16 n => 0 <= n < 2 ^ 16
  | VU32 n => 0 <= n < 2 ^ 32
  | VString s =>
      Utf8 (TextEncoder_encode s)
      /\ (forall rest, TextEncoder_encode s <> BOM ++ rest)
      /\ Z.of_nat (length (TextEncoder_encode s)) < 2 ^ 16
  end.

End Frames.

(* ================================================================= *)
(** ** opcodes.ts, errors.ts: the names *)

Module OpCodes.
Import String.

(** enum OpCode, member by member. *)
Definition OpCode : list (string * Z) :=
  [ ("LINEAGE_CREATE", 0x10); ("LINEAGE_GET", 0x11);
    ("LINEAGE_STIMULATE", 0x12); ("LINEAGE_FORGET", 0x13);
    ("LINEAGE_TOUCH", 0x14);
    ("BOND_CONNECT", 0x20); ("BOND_REINFORCE", 0x21);
    ("BOND_SEVER", 0x22); ("BOND_NEIGHBORS", 0x23);
    ("QUERY_CONSCIOUS", 0x30); ("QUERY_TOP_K", 0x31);
    ("QUERY_TRAUMA", 0x32); ("QUERY_PATTERN", 0x33);
    ("SYS_PING", 0x40); ("SYS_STATS", 0x41); ("SYS_SNAPSHOT", 0x42);
    ("SYS_RESTORE", 0x43); ("SYS_FREEZE", 0x44); ("PHYSICS_TUNE", 0x45);
    ("SYS_MOOD_SET", 0x46);
    ("STREAM_SUBSCRIBE", 0x50); ("STREAM_UNSUBSCRIBE", 0x51);
    ("RESPONSE_OK", 0xf0); ("RESPONSE_ERROR", 0xf1);
    ("RESPONSE_EVENT", 0xf2) ]%string.

(** enum ErrorCode *)
Definition ErrorCode : list (string * Z) :=
  [ ("UNKNOWN", 0x00); ("INVALID_OPCODE", 0x01);
    ("MALFORMED_PAYLOAD", 0x02); ("LINEAGE_NOT_FOUND", 0x10);
    ("LINEAGE_EXISTS", 0x11); ("BOND_NOT_FOUND", 0x20);
    ("BOND_EXISTS", 0x21); ("SNAPSHOT_NOT_FOUND", 0x30);
    ("INTERNAL", 0xff) ]%string.

(** The reverse mapping [E[value]] of a numeric enum: each member assigns
    its name to its value, so the last member with the value gives the
    name; [None] is undefined. *)
Definition reverse (E : list (string * Z)) (value : Z) : option string :=
  option_map fst (find (fun m => snd m =? value) (rev E)).

(** value.toString(16), for an integer. *)
Definition toString16 (value : Z) : string :=
  HexadecimalString.NilZero.string_of_int (Z.to_hex_int value).

Definition unknown (value : Z) : string :=
  ("UNKNOWN(0x" ++ toString16 value ++ ")")%string.

(** opcodeName(opcode) *)
Definition opcodeName (opcode : Z) : string :=
  match reverse OpCode opcode with
  | Some name => name
  | None => unknown opcode
  end.

(** errorCodeName(code) *)
Definition errorCodeName (code : Z) : string :=
  match reverse ErrorCode code with
  | Some name => name
  | None => unknown code
  end.

(** The members that carry a response. *)
Definition isResponseName (name : string) : bool :=
  prefix "RESPONSE_" name.

(** The member access [E.NAME]. *)
Definition member (E : list (string * Z)) (name : string) : Z :=
  match find (fun m => String.eqb (fst m) name) E with
  | Some m => snd m
  | None => 0
  end.

(** events.ts: EventMask.ALL *)
Definition EventMask_ALL : Z := 0xffffffff.

End OpCodes.

(* ================================================================= *)
(** ** client.ts: the requests *)

(** The methods of class MindFry whose request carries strings and
    integers only (lineage.get, whose payload differs between the copies
    of client.ts, and the methods with a float field are left out), each
    with the payload it builds, and the private [send] they all go
    through.  Connecting and disconnecting are left to node:net. *)
Module Client.
Import Js Bytes Protocol Frames OpCodes.
Import String.

Inductive Request : Type :=
| LineageForget (key : string)
| LineageTouch (key : string)
| BondSever (from to : string)
| BondNeighbors (key : string)
| QueryTopK (k : Z)
| QueryPattern (pattern : string)
| QueryNeighbors (key : string)
| SystemPing
| SystemStats
| SystemSnapshot (name : option string)
| SystemRestore (name : string)
| SystemFreeze
| SystemThaw
| StreamSubscribe (mask : option Z)
| StreamUnsubscribe.

(** The opcode the method passes to [send]. *)
Definition opcodeOf (r : Request) : Z :=
  member OpCode
    match r with
    | LineageForget _ => "LINEAGE_FORGET"
    | LineageTouch _ => "LINEAGE_TOUCH"
    | BondSever _ _ => "BOND_SEVER"
    | BondNeighbors _ => "BOND_NEIGHBORS"
    | QueryTopK _ => "QUERY_TOP_K"
    | QueryPattern _ => "QUERY_PATTERN"
    | QueryNeighbors _ => "BOND_NEIGHBORS"
    | SystemPing => "SYS_PING"
    | SystemStats => "SYS_STATS"
    | SystemSnapshot _ => "SYS_SNAPSHOT"
    | SystemRestore _ => "SYS_RESTORE"
    | SystemFreeze => "SYS_FREEZE"
    | SystemThaw => "SYS_FREEZE"
    | StreamSubscribe _ => "STREAM_SUBSCRIBE"
    | StreamUnsubscribe => "STREAM_UNSUBSCRIBE"
    end.

(** The payload the method builds; [new Uint8Array(0)] is the empty
    list. *)
Definition payloadOf (r : Request) : Result (list byte) :=
  match r with
  | LineageForget key => build (writeString key newPayloadBuilder)
  | LineageTouch key => build (writeString key newPayloadBuilder)
  | BondSever from to =>
      build (writeString to (writeString from newPayloadBuilder))
  | BondNeighbors key => build (writeString key newPayloadBuilder)
  | QueryTopK k => build (writeU32 k newPayloadBuilder)
  | QueryPattern pattern => build (writeString pattern newPayloadBuilder)
  | QueryNeighbors key => build (writeString key newPayloadBuilder)
  | SystemPing => Returns []
  | SystemStats => Returns []
  | SystemSnapshot name =>
      build (writeString
               match name with Some n => n | None => EmptyString end
               newPayloadBuilder)
  | SystemRestore name => build (writeString name newPayloadBuilder)
  | SystemFreeze => build (writeU8 1 newPayloadBuilder)
  | SystemThaw => build (writeU8 0 newPayloadBuilder)
  | StreamSubscribe mask =>
      build (writeU32
               match mask with Some m => m | None => EventMask_ALL end
               newPayloadBuilder)
  | StreamUnsubscribe => Returns []
  end.

(** How a call of a method ends: the exception of [send] when there is
    no pipeline, an exception of the builder, or the request handed to the
    pipeline. *)
Inductive Outcome : Type :=
| NotConnected
| Failed (e : Error)
| Sent (w : Pipeline.World).

(** private async send(opcode, payload) *)
Definition send (pipeline : option Pipeline.World) (opcode : Z)
    (payload : list byte) (now : Z) : Outcome :=
  match pipeline with
  | None => NotConnected
  | Some w =>
      let frame := encodeFrame opcode payload in
      Sent (Pipeline.send frame opcode now w)
  end.

(** A method of the API, called when Date.now() is [now]. *)
Definition request (r : Request) (pipeline : option Pipeline.World)
    (now : Z) : Outcome :=
  match payloadOf r with
  | Throws e => Failed e
  | Returns payload => send pipeline (opcodeOf r) payload now
  end.

(** What the server is to read from the payload of a request. *)
Definition argsOf (r : Request) : list Value :=
  match r with
  | LineageForget key => [VString key]
  | LineageTouch key => [VString key]
  | BondSever from to => [VString from; VString to]
  | BondNeighbors key => [VString key]
  | QueryTopK k => [VU32 k]
  | QueryPattern pattern => [VString pattern]
  | QueryNeighbors key => [VString key]
  | SystemPing => []
  | SystemStats => []
  | SystemSnapshot name =>
      [VString match name with Some n => n | None => EmptyString end]
  | SystemRestore name => [VString name]
  | SystemFreeze => [VU8 1]
  | SystemThaw => [VU8 0]
  | StreamSubscribe mask =>
      [VU32 match mask with Some m => m | None => EventMask_ALL end]
  | StreamUnsubscribe => []
  end.

End Client.

(* ================================================================= *)
(** ** pipeline.ts: what the handlers keep *)

Module Invariants.
Import Js Pipeline.

(** What only [send] changes (the configuration is never changed, the
    promises and the writes are made by [send]), with a bound on the size
    of the pending map. *)
Definition Kept (cfg : PipelineConfig) (n : nat)
    (ws : list (list byte * (Z * nat))) (m : nat) (w : World) : Prop :=
  config (pipeline w) = cfg
  /\ promises w = n
  /\ socketWrites w = ws
  /\ (size (pending (pipeline w)) <= m)%nat.

(** Every promise made so far belongs to a request that was written, or
    one of its functions was called. *)
Definition Accounted (w : World) : Prop :=
  forall p : nat,
    (p < promises w)%nat ->
    In p (writtenPromises w) \/ In p (map fst (calls w)).

(** The pending map holds entries of [l0] only, in the order they have
    in [l0]. *)
Definition Remains (l0 : Map PendingRequest) (w : World) : Prop :=
  exists f : Z * PendingRequest -> bool,
    pending (pipeline w) = filter f l0.

End Invariants.

(* ================================================================= *)
(** ** Tactics *)

(** Field updates on a world given by its fields, evaluated innermost
    first so that terms do not grow. *)
Ltac unfold_world :=
  cbv beta iota zeta delta
    [Pipeline.rejection Pipeline.resolve Pipeline.reject
     Pipeline.console_warn Pipeline.socket_write Pipeline.call
     Pipeline.add_calls Pipeline.newPromise Pipeline.set_listening
     Pipeline.set_timeoutChecker Pipeline.set_decoder Pipeline.set_pending
     Pipeline.set_sequenceId Pipeline.with_pipeline
     Pipeline.pipeline Pipeline.listening Pipeline.promises Pipeline.calls
     Pipeline.socketWrites Pipeline.warnings Pipeline.sequenceId
     Pipeline.pending Pipeline.decoder Pipeline.config
     Pipeline.timeoutChecker].

(** Decide the comparisons of integers in the goal. *)
Ltac cmp :=
  repeat match goal with
         | |- context [?a <=? ?b] => destruct (Z.leb_spec a b); try lia
         | |- context [?a =? ?b] => destruct (Z.eqb_spec a b); try lia
         | H : context [?a =? ?b] |- _ =>
             destruct (Z.eqb_spec a b); try lia
         end;
  cbn [andb].

(* ================================================================= *)
(** * Properties *)

(** ** Bytes *)

Section BytesFacts.
Import Bytes.

Lemma to_Z_range (b : byte) : 0 <= to_Z b < 256.
Proof.
  unfold to_Z. pose proof (Byte.to_N_bounded b) as H.
  split; [apply N2Z.is_nonneg | ].
  apply N2Z.inj_le in H. change (Z.of_N 255) with 255 in H. lia.
Qed.

Lemma to_Z_of_Z (z : Z) : to_Z (of_Z z) = z mod 256.
Proof.
  unfold to_Z, of_Z.
  assert (Hr : 0 <= z mod 256 < 256) by (apply Z.mod_pos_bound; lia).
  destruct (Byte.of_N (Z.to_N (z mod 256))) as [b | ] eqn:E.
  - apply Byte.to_of_N in E. rewrite E. apply Z2N.id. lia.
  - apply Byte.of_N_None_iff in E.
    apply N2Z.inj_lt in E. rewrite Z2N.id in E by lia.
    change (Z.of_N 255) with 255 in E. lia.
Qed.

Lemma length_writeUInt32LE (n : Z) : length (writeUInt32LE n) = 4%nat.
Proof. reflexivity. Qed.

Lemma length_writeUInt16LE (n : Z) : length (writeUInt16LE n) = 2%nat.
Proof. reflexivity. Qed.

Lemma read_writeUInt32LE (n : Z) (rest : list byte) :
  0 <= n < 2 ^ 32 -> readUInt32LE (writeUInt32LE n ++ rest) = n.
Proof.
  intros Hn. unfold writeUInt32LE, readUInt32LE. cbn [app].
  rewrite !to_Z_of_Z.
  change (2 ^ 8) with 256. change (2 ^ 16) with (256 * 256).
  change (2 ^ 24) with (256 * 256 * 256).
  change (2 ^ 32) with (256 * 256 * 256 * 256) in Hn.
  rewrite <- !Z.div_div by lia.
  pose proof (Z.div_mod n 256 ltac:(lia)) as H0.
  pose proof (Z.div_mod (n / 256) 256 ltac:(lia)) as H1.
  pose proof (Z.div_mod (n / 256 / 256) 256 ltac:(lia)) as H2.
  assert (H3 : 0 <= n / 256 / 256 / 256 < 256).
  { split.
    - repeat apply Z.div_pos; lia.
    - repeat (apply Z.div_lt_upper_bound; [lia | ]). lia. }
  rewrite (Z.mod_small (n / 256 / 256 / 256)) by lia.
  lia.
Qed.

Lemma read_writeUInt16LE (n : Z) (rest : list byte) :
  0 <= n < 2 ^ 16 -> readUInt16LE (writeUInt16LE n ++ rest) = n.
Proof.
  intros Hn. unfold writeUInt16LE, readUInt16LE. cbn [app].
  rewrite !to_Z_of_Z.
  change (2 ^ 8) with 256. change (2 ^ 16) with (256 * 256) in Hn.
  pose proof (Z.div_mod n 256 ltac:(lia)) as H0.
  assert (H1 : 0 <= n / 256 < 256).
  { split; [apply Z.div_pos; lia | apply Z.div_lt_upper_bound; lia]. }
  rewrite (Z.mod_small (n / 256)) by lia.
  lia.
Qed.

End BytesFacts.

(** ** framer.ts: the drain loop *)

Section DrainFacts.
Import Js Bytes Framer.
Context {S : Type} (L : Listeners S) (max : Z).

(** Fewer than four bytes: the loop is not entered. *)
Lemma drain_short (fuel : nat) (buf : list byte) (s : S) :
  (length buf < 4)%nat -> drain L max fuel buf s = (buf, Normal s).
Proof.
  intros H. destruct fuel as [ | fuel]; [reflexivity | ].
  cbn [drain]. apply Nat.leb_gt in H. rewrite H. reflexivity.
Qed.

(** The loop never runs out of turns: any [fuel] of at least the length
    of the buffer gives the same result. *)
Lemma drain_fuel (fuel1 fuel2 : nat) (buf : list byte) (s : S) :
  (length buf <= fuel1)%nat -> (length buf <= fuel2)%nat ->
  drain L max fuel1 buf s = drain L max fuel2 buf s.
Proof.
  revert fuel2 buf s.
  induction fuel1 as [ | fuel1 IH]; intros fuel2 buf s H1 H2.
  - rewrite (drain_short fuel2) by lia. reflexivity.
  - destruct fuel2 as [ | fuel2].
    + rewrite (drain_short (Datatypes.S fuel1)) by lia. reflexivity.
    + cbn [drain].
      destruct (4 <=? length buf)%nat eqn:E4; [ | reflexivity].
      apply Nat.leb_le in E4.
      destruct (max <? readUInt32LE buf); [reflexivity | ].
      destruct (Z.of_nat (length buf) <? 4 + readUInt32LE buf);
        [reflexivity | ].
      destruct (onFrame L _ s) as [s' | e s']; [ | reflexivity].
      unfold subarrayFrom.
      apply IH; rewrite length_skipn; lia.
Qed.

(** A complete header that declares more than [max] bytes. *)
Lemma drain_oversize (fuel : nat) (buf : list byte) (s : S) :
  (4 <= length buf)%nat -> (0 < fuel)%nat -> max < readUInt32LE buf ->
  drain L max fuel buf s =
    match onError L (FrameTooLarge (readUInt32LE buf) max) s with
    | Normal s' => ([], Normal s')
    | Throw e s' => (buf, Throw e s')
    end.
Proof.
  intros H4 Hf Hbig. destruct fuel as [ | fuel]; [lia | ].
  cbn [drain]. apply Nat.leb_le in H4. rewrite H4.
  apply Z.ltb_lt in Hbig. rewrite Hbig. reflexivity.
Qed.

(** A complete header whose payload has not arrived in full. *)
Lemma drain_incomplete (fuel : nat) (buf : list byte) (s : S) :
  (4 <= length buf)%nat -> readUInt32LE buf <= max ->
  Z.of_nat (length buf) < 4 + readUInt32LE buf ->
  drain L max fuel buf s = (buf, Normal s).
Proof.
  intros H4 Hle Hlt. destruct fuel as [ | fuel]; [reflexivity | ].
  cbn [drain]. apply Nat.leb_le in H4. rewrite H4.
  apply Z.ltb_ge in Hle. rewrite Hle.
  apply Z.ltb_lt in Hlt. rewrite Hlt. reflexivity.
Qed.

(** A complete frame at the head of the buffer is handed to the frame
    listener and the loop goes on with what follows it. *)
Lemma drain_frame (fuel : nat) (payload rest : list byte) (s : S) :
  Z.of_nat (length payload) <= max -> Z.of_nat (length payload) < 2 ^ 32 ->
  (length (frameBytes payload ++ rest) <= fuel)%nat ->
  drain L max fuel (frameBytes payload ++ rest) s =
    match onFrame L payload s with
    | Normal s' => drain L max (length rest) rest s'
    | Throw e s' => (frameBytes payload ++ rest, Throw e s')
    end.
Proof.
  intros Hmax H32 Hfuel.
  assert (Hlen : length (frameBytes payload ++ rest)
                 = (4 + length payload + length rest)%nat).
  { unfold frameBytes. rewrite !length_app, length_writeUInt32LE. lia. }
  destruct fuel as [ | fuel]; [lia | ].
  cbn [drain]. rewrite Hlen.
  replace (4 <=? 4 + length payload + length rest)%nat with true
    by (symmetry; apply Nat.leb_le; lia).
  assert (Hread : readUInt32LE (frameBytes payload ++ rest)
                  = Z.of_nat (length payload)).
  { unfold frameBytes. rewrite <- app_assoc.
    apply read_writeUInt32LE. lia. }
  rewrite Hread.
  replace (max <? Z.of_nat (length payload)) with false
    by (symmetry; apply Z.ltb_ge; lia).
  replace (Z.of_nat (4 + length payload + length rest)
           <? 4 + Z.of_nat (length payload)) with false
    by (symmetry; apply Z.ltb_ge; lia).
  rewrite Nat2Z.id.
  assert (Hpay : subarray 4 (4 + length payload) (frameBytes payload ++ rest)
                 = payload).
  { unfold subarray, frameBytes. rewrite <- app_assoc.
    rewrite skipn_app, length_writeUInt32LE.
    rewrite (skipn_all2 (writeUInt32LE _)) by (rewrite length_writeUInt32LE; lia).
    cbn [app Nat.sub skipn].
    replace (4 + length payload - 4)%nat with (length payload) by lia.
    rewrite firstn_app, Nat.sub_diag, firstn_all. cbn [firstn].
    apply app_nil_r. }
  rewrite Hpay.
  assert (Hrest : subarrayFrom (4 + length payload)
                    (frameBytes payload ++ rest) = rest).
  { unfold subarrayFrom.
    rewrite skipn_app.
    rewrite skipn_all2
      by (unfold frameBytes; rewrite length_app, length_writeUInt32LE; lia).
    unfold frameBytes. rewrite length_app, length_writeUInt32LE.
    replace (4 + length payload - (4 + length payload))%nat with 0%nat by lia.
    reflexivity. }
  rewrite Hrest.
  destruct (onFrame L payload s) as [s' | e s']; [ | reflexivity].
  apply drain_fuel; lia.
Qed.

(** Part of a frame, short of its last byte, is kept as it is. *)
Lemma drain_partial (fuel : nat) (payload buf tail : list byte) (s : S) :
  Z.of_nat (length payload) <= max -> Z.of_nat (length payload) < 2 ^ 32 ->
  buf ++ tail = frameBytes payload -> tail <> [] ->
  drain L max fuel buf s = (buf, Normal s).
Proof.
  intros Hmax H32 Hsplit Htail.
  assert (Hlen : (length buf + length tail = 4 + length payload)%nat).
  { rewrite <- length_app, Hsplit. unfold frameBytes.
    rewrite length_app, length_writeUInt32LE. reflexivity. }
  assert (Htl : (0 < length tail)%nat).
  { destruct tail; [contradiction | cbn; lia]. }
  destruct (Nat.lt_ge_cases (length buf) 4) as [Hs | H4].
  - apply drain_short. exact Hs.
  - assert (Hread : readUInt32LE buf = Z.of_nat (length payload)).
    { assert (Hb : firstn 4 buf = writeUInt32LE (Z.of_nat (length payload))).
      { apply (f_equal (firstn 4)) in Hsplit.
        rewrite firstn_app in Hsplit.
        replace (4 - length buf)%nat with 0%nat in Hsplit by lia.
        rewrite (firstn_O tail), app_nil_r in Hsplit.
        rewrite Hsplit. reflexivity. }
      rewrite <- (firstn_skipn 4 buf), Hb.
      apply read_writeUInt32LE. lia. }
    apply drain_incomplete; rewrite ?Hread; lia.
Qed.

End DrainFacts.

(** ** framer.ts: what [push] emits *)

Section PushFacts.
Import Js Bytes Framer.
Variable max : Z.

Lemma concat_frames_cons (p : list byte) (ps : list (list byte)) :
  concat (map frameBytes (p :: ps))
  = frameBytes p ++ concat (map frameBytes ps).
Proof. reflexivity. Qed.

(** Complete frames at the head of the buffer are emitted in order. *)
Lemma drain_frames (payloads : list (list byte)) :
  forall (fuel : nat) (rest : list byte) (log : list Event),
    Forall (wellFormed max) payloads ->
    (length (concat (map frameBytes payloads) ++ rest) <= fuel)%nat ->
    drain recorder max fuel (concat (map frameBytes payloads) ++ rest) log
    = drain recorder max (length rest) rest
        (log ++ map FrameEvent payloads).
Proof.
  induction payloads as [ | p ps IH]; intros fuel rest log Hwf Hfuel.
  - cbn [map concat app] in *. rewrite app_nil_r.
    apply drain_fuel; lia.
  - inversion Hwf as [ | ? ? [Hmax H32] Hwf']; subst.
    rewrite concat_frames_cons, <- app_assoc in *.
    rewrite drain_frame by assumption.
    cbn [recorder onFrame].
    rewrite IH by (assumption || lia).
    cbn [map]. rewrite <- app_assoc. reflexivity.
Qed.

Lemma push_unfold (chunk : list byte) (d : FrameDecoder) :
  push chunk d =
    let buf := buffer d ++ chunk in
    let r := drain recorder (maxFrameSize d) (length buf) buf [] in
    (with_buffer (fst r) d, events (snd r)).
Proof. reflexivity. Qed.

Lemma pushAll_nothing (chunks : list (list byte)) :
  concat chunks = [] ->
  pushAll chunks (new max) = (new max, []).
Proof.
  induction chunks as [ | c cs IH]; intros Hnil; [reflexivity | ].
  cbn [concat] in Hnil. apply app_eq_nil in Hnil as [-> Hcs].
  cbn [pushAll]. change (push [] (new max)) with (new max, @nil Event).
  cbn [fst snd]. rewrite IH by assumption. reflexivity.
Qed.

(** Chunks that complete one frame, pushed onto the part of it that has
    arrived so far. *)
Lemma pushAll_one_frame (payload : list byte) (chunks : list (list byte)) :
  forall buf : list byte,
    wellFormed max payload ->
    buf ++ concat chunks = frameBytes payload ->
    (length buf < length (frameBytes payload))%nat ->
    pushAll chunks {| buffer := buf; maxFrameSize := max |}
    = (new max, [FrameEvent payload]).
Proof.
  induction chunks as [ | c cs IH]; intros buf Hwf Hcat Hlt.
  - cbn [concat] in Hcat. rewrite app_nil_r in Hcat. subst buf. lia.
  - destruct Hwf as [Hmax H32].
    cbn [concat] in Hcat. rewrite app_assoc in Hcat.
    cbn [pushAll]. rewrite push_unfold. cbn [buffer maxFrameSize].
    destruct (concat cs) as [ | b tl] eqn:Ecs.
    + rewrite app_nil_r in Hcat. rewrite Hcat.
      pose proof (drain_frame recorder max (length (frameBytes payload))
                    payload [] [] Hmax H32) as Hd.
      rewrite app_nil_r in Hd. rewrite Hd by lia.
      cbn [recorder onFrame length drain fst snd events with_buffer
           maxFrameSize app].
      change (with_buffer [] {| buffer := buf; maxFrameSize := max |})
        with (new max).
      rewrite (pushAll_nothing cs Ecs). reflexivity.
    + rewrite (drain_partial recorder max _ payload (buf ++ c) (b :: tl))
        by (assumption || discriminate).
      cbn [fst snd events app].
      change (with_buffer (buf ++ c) {| buffer := buf; maxFrameSize := max |})
        with {| buffer := buf ++ c; maxFrameSize := max |}.
      rewrite (IH (buf ++ c)); [reflexivity | split; assumption | exact Hcat | ].
      rewrite <- Hcat, !length_app. cbn [length]. lia.
Qed.

Lemma readUInt32LE_header (header rest : list byte) :
  length header = 4%nat ->
  readUInt32LE (header ++ rest) = readUInt32LE header.
Proof.
  destruct header as [ | b0 [ | b1 [ | b2 [ | b3 [ | ? ?]]]]];
    try discriminate.
  reflexivity.
Qed.

End PushFacts.

(** The buffer is empty again after a header that declares too much:
    the frames before it are emitted, then the one error, and nothing of
    what follows the header. *)
Lemma push_oversize (d : Framer.FrameDecoder) (chunk : list Byte.byte)
    (payloads : list (list Byte.byte)) (header rest : list Byte.byte) :
  Forall (Framer.wellFormed (Framer.maxFrameSize d)) payloads ->
  length header = 4%nat ->
  Framer.maxFrameSize d < Bytes.readUInt32LE header ->
  Framer.buffer d ++ chunk = concat (map Framer.frameBytes payloads) ++ header ++ rest ->
  Framer.push chunk d
  = (Framer.new (Framer.maxFrameSize d),
     map Framer.FrameEvent payloads
     ++ [Framer.ErrorEvent (Js.FrameTooLarge (Bytes.readUInt32LE header) (Framer.maxFrameSize d))]).
Proof.
  intros Hwf H4 Hbig Hbuf.
  rewrite push_unfold. cbv zeta. rewrite Hbuf.
  rewrite (drain_frames (Framer.maxFrameSize d)) by (assumption || lia).
  rewrite drain_oversize;
    rewrite ?readUInt32LE_header, ?length_app, ?H4 by assumption;
    try lia.
  reflexivity.
Qed.

(** The frames that frames.ts encodes are frames in this wire form, the
    opcode being the first byte of the payload. *)
Lemma encodeFrame_wire (opcode : Z) (payload : list Byte.byte) :
  Protocol.encodeFrame opcode payload
  = Framer.frameBytes (Bytes.of_Z opcode :: payload).
Proof. reflexivity. Qed.

(** C7 (coalescing).  For every N >= 0 and all N frames within the size
    limit, one [push] of their concatenated encodings into a fresh decoder
    emits exactly N frame events, the payloads in the original order, and
    leaves zero pending bytes. *)
Theorem coalesced_frames_single_push
    (max : Z) (payloads : list (list Byte.byte)) :
  Forall (Framer.wellFormed max) payloads ->
  let r := Framer.push (concat (map Framer.frameBytes payloads))
             (Framer.new max) in
  snd r = map Framer.FrameEvent payloads
  /\ length (snd r) = length payloads
  /\ Framer.pendingBytes (fst r) = 0%nat.
Proof.
  intros Hwf r.
  assert (Hr : r = (Framer.new max, map Framer.FrameEvent payloads)).
  { subst r. rewrite push_unfold. cbn [Framer.buffer Framer.new app].
    cbv zeta. cbn [Framer.maxFrameSize].
    rewrite <- (app_nil_r (concat _)).
    rewrite (drain_frames max) by (assumption || lia).
    reflexivity. }
  rewrite Hr. cbn [fst snd]. rewrite length_map. auto.
Qed.

Lemma coalesced_frames_single_push_witness :
  let r := Framer.push
             [x02; x00; x00; x00; x40; x01;
              x00; x00; x00; x00;
              x03; x00; x00; x00; x41; x02; x03]
             (Framer.new 1024) in
  snd r = [Framer.FrameEvent [x40; x01]; Framer.FrameEvent [];
           Framer.FrameEvent [x41; x02; x03]]
  /\ length (snd r) = 3%nat
  /\ Framer.pendingBytes (fst r) = 0%nat.
Proof.
  apply (coalesced_frames_single_push 1024 [[x40; x01]; []; [x41; x02; x03]]).
  repeat constructor; cbn; lia.
Defined.

(** C6 (fragmentation invariance).  For every frame with payload length
    0 <= L <= MaxFrameSize (L = 0 included) and every way of cutting its
    encoded bytes into a finite sequence of chunks (1-byte chunks, empty
    chunks and cuts inside the 4-byte header included), pushing the chunks
    in order into a fresh decoder emits exactly one frame event, carrying
    the original payload, and no error event; nothing stays buffered. *)
Theorem fragmentation_invariance
    (max : Z) (payload : list Byte.byte) (chunks : list (list Byte.byte)) :
  Framer.wellFormed max payload ->
  concat chunks = Framer.frameBytes payload ->
  Framer.pushAll chunks (Framer.new max)
  = (Framer.new max, [Framer.FrameEvent payload]).
Proof.
  intros Hwf Hcat.
  apply pushAll_one_frame; [exact Hwf | exact Hcat | ].
  unfold Framer.frameBytes. rewrite length_app. cbn. lia.
Qed.

Lemma fragmentation_invariance_witness :
  Framer.pushAll [[x02]; [x00]; []; [x00; x00; xab]; [xcd]] (Framer.new 16)
  = (Framer.new 16, [Framer.FrameEvent [xab; xcd]])
  /\ Framer.pushAll [[x00]; [x00]; [x00]; [x00]] (Framer.new 16)
     = (Framer.new 16, [Framer.FrameEvent []]).
Proof.
  split.
  - apply (fragmentation_invariance 16 [xab; xcd]);
      [split; cbn; lia | reflexivity].
  - apply (fragmentation_invariance 16 []);
      [split; cbn; lia | reflexivity].
Defined.

(** C2, as the code has it.  When a [push] call comes upon a 4-byte header
    whose declared length exceeds the configured maximum, the decoder emits
    the frames that precede the header, then exactly one decode error, and
    nothing of what follows the header in that call; its whole buffer is
    discarded (pendingBytes is 0).  The decoder keeps no stopped state: it
    is then in the state that reset() would put it in, that of a fresh
    decoder, so a later [push] is decoded from an empty buffer whether or
    not reset() was called. *)
Theorem oversize_header_reported_once
    (d : Framer.FrameDecoder) (chunk : list Byte.byte)
    (payloads : list (list Byte.byte)) (header rest : list Byte.byte) :
  Forall (Framer.wellFormed (Framer.maxFrameSize d)) payloads ->
  length header = 4%nat ->
  Framer.maxFrameSize d < Bytes.readUInt32LE header ->
  Framer.buffer d ++ chunk
  = concat (map Framer.frameBytes payloads) ++ header ++ rest ->
  let r := Framer.push chunk d in
  snd r = map Framer.FrameEvent payloads
          ++ [Framer.ErrorEvent
                (Js.FrameTooLarge (Bytes.readUInt32LE header)
                   (Framer.maxFrameSize d))]
  /\ length (filter Framer.isError (snd r)) = 1%nat
  /\ Framer.pendingBytes (fst r) = 0%nat
  /\ fst r = Framer.reset d
  /\ fst r = Framer.new (Framer.maxFrameSize d).
Proof.
  intros Hwf H4 Hbig Hbuf r.
  subst r. rewrite (push_oversize d chunk payloads header rest) by assumption.
  cbn [fst snd]. repeat split.
  rewrite filter_app. cbn [filter Framer.isError length].
  rewrite length_app. cbn [length].
  replace (filter Framer.isError (map Framer.FrameEvent payloads))
    with (@nil Framer.Event); [reflexivity | ].
  clear. induction payloads as [ | p ps IH]; [reflexivity | exact IH].
Qed.

Lemma oversize_header_reported_once_witness :
  let r := Framer.push [x00; x00; x40; xc8; x00; x00; x00; x07]
             {| Framer.buffer := [x01; x00]; Framer.maxFrameSize := 100 |} in
  snd r = [Framer.FrameEvent [x40];
           Framer.ErrorEvent (Js.FrameTooLarge 200 100)]
  /\ length (filter Framer.isError (snd r)) = 1%nat
  /\ Framer.pendingBytes (fst r) = 0%nat
  /\ fst r = Framer.reset
               {| Framer.buffer := [x01; x00]; Framer.maxFrameSize := 100 |}
  /\ fst r = Framer.new 100.
Proof.
  apply (oversize_header_reported_once
           {| Framer.buffer := [x01; x00]; Framer.maxFrameSize := 100 |}
           [x00; x00; x40; xc8; x00; x00; x00; x07]
           [[x40]] [xc8; x00; x00; x00] [x07]).
  - repeat constructor; cbn; lia.
  - reflexivity.
  - cbn. lia.
  - reflexivity.
Defined.

(** C2 as stated fails: after the error of an oversized header, and with
    no reset() in between, the next [push] is processed and emits a frame
    event. *)
Lemma oversize_does_not_stop_decoder :
  let r1 := Framer.push [xc8; x00; x00; x00] (Framer.new 100) in
  let r2 := Framer.push [x01; x00; x00; x00; x40] (fst r1) in
  snd r1 = [Framer.ErrorEvent (Js.FrameTooLarge 200 100)]
  /\ snd r2 = [Framer.FrameEvent [x40]].
Proof. split; reflexivity. Qed.

(** ** pipeline.ts: sequence numbers *)

Section SequenceFacts.
Import Js Pipeline.

Lemma ToInt32_range (x : Z) : - 2 ^ 31 <= ToInt32 x < 2 ^ 31.
Proof.
  unfold ToInt32.
  pose proof (Z.mod_pos_bound x (2 ^ 32) ltac:(lia)) as H.
  destruct (2 ^ 31 <=? x mod 2 ^ 32) eqn:E;
    [apply Z.leb_le in E | apply Z.leb_gt in E]; lia.
Qed.

Lemma ToInt32_small (x : Z) : - 2 ^ 31 <= x < 2 ^ 31 -> ToInt32 x = x.
Proof.
  intros H. unfold ToInt32.
  destruct (Z.neg_nonneg_cases x) as [Hneg | Hpos].
  - replace (x mod 2 ^ 32) with (x + 2 ^ 32).
    + replace (2 ^ 31 <=? x + 2 ^ 32) with true
        by (symmetry; apply Z.leb_le; lia).
      lia.
    + apply Z.mod_unique with (q := -1); lia.
  - rewrite Z.mod_small by lia.
    replace (2 ^ 31 <=? x) with false by (symmetry; apply Z.leb_gt; lia).
    reflexivity.
Qed.

Lemma ToInt32_congr (x : Z) : (ToInt32 x) mod 2 ^ 32 = x mod 2 ^ 32.
Proof.
  unfold ToInt32.
  destruct (2 ^ 31 <=? x mod 2 ^ 32).
  - replace (x mod 2 ^ 32 - 2 ^ 32) with (x mod 2 ^ 32 + (-1) * 2 ^ 32)
      by lia.
    rewrite Z.mod_add by lia. apply Z.mod_mod. lia.
  - apply Z.mod_mod. lia.
Qed.

(** [x & 0xffffffff] is ToInt32 x: the mask is ToInt32-equal to -1. *)
Lemma bitand_ffffffff (x : Z) : bitand x 0xffffffff = ToInt32 x.
Proof.
  unfold bitand. change (ToInt32 0xffffffff) with (-1).
  apply Z.land_m1_r.
Qed.

Lemma nextSequenceId_spec (w : World) :
  fst (nextSequenceId w) = ToInt32 (sequenceId (pipeline w) + 1)
  /\ sequenceId (pipeline (snd (nextSequenceId w)))
     = ToInt32 (sequenceId (pipeline w) + 1).
Proof. unfold nextSequenceId. cbn. rewrite bitand_ffffffff. auto. Qed.

(** Below the signed boundary the counter is incremented. *)
Lemma nextSequenceId_increments (w : World) :
  0 <= sequenceId (pipeline w) < 2 ^ 31 - 1 ->
  fst (nextSequenceId w) = sequenceId (pipeline w) + 1.
Proof.
  intros H. destruct (nextSequenceId_spec w) as [-> _].
  apply ToInt32_small. lia.
Qed.

(** Every number allocated is a signed 32-bit integer. *)
Lemma nextSequenceId_range (w : World) :
  - 2 ^ 31 <= fst (nextSequenceId w) < 2 ^ 31.
Proof.
  destruct (nextSequenceId_spec w) as [-> _]. apply ToInt32_range.
Qed.
End SequenceFacts.

(** C8 at the counter value 2^31 - 1 (reached after 2^31 - 1 accepted
    sends): [(sequenceId + 1) & 0xffffffff] is the signed integer -2^31,
    which lies outside [0, 2^32 - 1] and is not (prev + 1) mod 2^32. *)
Theorem sequence_number_leaves_unsigned_range :
  let w := Pipeline.set_sequenceId 2147483647
             (Pipeline.new Pipeline.noConfig) in
  fst (Pipeline.nextSequenceId w) = -2147483648
  /\ (Pipeline.sequenceId (Pipeline.pipeline w) + 1) mod 2 ^ 32 = 2147483648
  /\ ~ (0 <= fst (Pipeline.nextSequenceId w) <= 2 ^ 32 - 1).
Proof.
  cbv zeta. split; [reflexivity | split; [reflexivity | ]].
  change (fst _) with (-2147483648). lia.
Qed.

(** ** pipeline.ts: the loops over the pending map *)

Section LoopFacts.
Import Js Pipeline.

Lemma sweep_fold (sel : Z * PendingRequest -> bool) (err : Error)
    (l : list (Z * PendingRequest)) :
  forall w : World,
    fold_left (sweep sel err) l w
    = set_pending (fold_left (sweepKeys sel) l (pending (pipeline w)))
        (add_calls (map (rejection err) (filter sel l)) w).
Proof.
  induction l as [ | e l IH]; intros w.
  - destruct w as [[] ? ? ? ? ?]. cbn [fold_left filter map].
    unfold_world. rewrite app_nil_r. reflexivity.
  - cbn [fold_left filter]. rewrite IH.
    replace (sweepKeys sel (pending (pipeline w)) e)
      with (pending (pipeline (sweep sel err w e)))
      by (unfold sweep, sweepKeys; destruct (sel e);
          destruct w as [[] ? ? ? ? ?]; reflexivity).
    unfold sweep. destruct (sel e); [ | reflexivity].
    destruct w as [[] ? ? ? ? ?]. cbn [map]. unfold_world.
    rewrite <- app_assoc. reflexivity.
Qed.

Lemma delete_In (k : Z) (m : Map PendingRequest) (e : Z * PendingRequest) :
  In e (delete k m) <-> In e m /\ fst e <> k.
Proof.
  unfold delete. rewrite filter_In.
  rewrite negb_true_iff, Z.eqb_neq. reflexivity.
Qed.

(** Deleting every key of [l] leaves nothing of a map whose keys are all
    among those of [l]. *)
Lemma delete_every_key (l : list (Z * PendingRequest)) :
  forall m : Map PendingRequest,
    (forall e, In e m -> In (fst e) (map fst l)) ->
    fold_left (sweepKeys (fun _ => true)) l m = [].
Proof.
  induction l as [ | e l IH]; intros m Hkeys.
  - destruct m as [ | e0 m]; [reflexivity | ].
    destruct (Hkeys e0 (or_introl eq_refl)).
  - cbn [fold_left sweepKeys]. apply IH.
    intros e' He'. apply delete_In in He' as [Hin Hne].
    destruct (Hkeys e' Hin) as [Heq | Hl]; [ | exact Hl].
    cbn in Heq. congruence.
Qed.

Lemma rejectAllPending_eq (err : Error) (w : World) :
  rejectAllPending err w
  = set_pending []
      (add_calls (map (rejection err) (pending (pipeline w))) w).
Proof.
  unfold rejectAllPending, forOfPending.
  change (fun w0 e => _) with (sweep (fun _ => true) err).
  rewrite sweep_fold.
  rewrite delete_every_key by (intros e He; apply in_map; exact He).
  f_equal. f_equal. f_equal.
  induction (pending (pipeline w)) as [ | e l IH];
    [reflexivity | cbn [filter]; f_equal; exact IH].
Qed.

Lemma destroy_eq (w : World) :
  destroy w
  = set_pending []
      (add_calls (map (rejection PipelineDestroyed) (pending (pipeline w)))
         (set_decoder (Framer.reset (decoder (pipeline w)))
            (set_listening false (set_timeoutChecker false w)))).
Proof.
  unfold destroy.
  assert (Ht : (if timeoutChecker (pipeline w)
                then set_timeoutChecker false w else w)
               = set_timeoutChecker false w).
  { destruct w as [[? ? ? ? []] ? ? ? ? ?]; reflexivity. }
  rewrite Ht. cbv zeta. unfold forOfPending.
  change (fun w0 e => _) with (sweep (fun _ => true) PipelineDestroyed).
  rewrite sweep_fold.
  rewrite delete_every_key by (intros e He; apply in_map; exact He).
  f_equal. f_equal. f_equal.
  change (pending (pipeline (set_decoder _ _))) with (pending (pipeline w)).
  induction (pending (pipeline w)) as [ | e l IH];
    [reflexivity | cbn [filter]; f_equal; exact IH].
Qed.

End LoopFacts.

(** C10 (teardown).  destroy() never throws.  The first call stops the
    timeout sweep, removes the decoder's listeners, resets the decoder
    (whatever bytes it held, its buffer is empty afterwards, pendingBytes
    is 0 and its limit is the same) and rejects every entry then pending
    exactly once, oldest first, with the destroyed error, leaving the
    pending map empty.  A second call in a row changes nothing, and a call
    made when nothing is pending calls no continuation at all. *)
Theorem destroy_idempotent (w : Pipeline.World) :
  let w1 := Pipeline.destroy w in
  Pipeline.run [Pipeline.Destroy] w = Js.Normal w1
  /\ Pipeline.run [Pipeline.Destroy; Pipeline.Destroy] w = Js.Normal w1
  /\ Pipeline.timeoutChecker (Pipeline.pipeline w1) = false
  /\ Pipeline.listening w1 = false
  /\ Pipeline.decoder (Pipeline.pipeline w1)
     = Framer.reset (Pipeline.decoder (Pipeline.pipeline w))
  /\ Framer.buffer (Pipeline.decoder (Pipeline.pipeline w1)) = []
  /\ Framer.pendingBytes (Pipeline.decoder (Pipeline.pipeline w1)) = 0%nat
  /\ Framer.maxFrameSize (Pipeline.decoder (Pipeline.pipeline w1))
     = Framer.maxFrameSize (Pipeline.decoder (Pipeline.pipeline w))
  /\ Pipeline.pending (Pipeline.pipeline w1) = []
  /\ Pipeline.calls w1
     = Pipeline.calls w
       ++ map (Pipeline.rejection Js.PipelineDestroyed)
            (Pipeline.pending (Pipeline.pipeline w))
  /\ (Pipeline.pending (Pipeline.pipeline w) = [] ->
      Pipeline.calls w1 = Pipeline.calls w).
Proof.
  cbv zeta.
  assert (Hagain : Pipeline.destroy (Pipeline.destroy w) = Pipeline.destroy w).
  { rewrite (destroy_eq (Pipeline.destroy w)), (destroy_eq w).
    destruct w as [[? ? [] ? ?] ? ? ? ? ?]. unfold_world.
    cbn [map]. rewrite app_nil_r. reflexivity. }
  repeat split.
  - cbn [Pipeline.run Pipeline.step]. rewrite Hagain. reflexivity.
  - rewrite destroy_eq. reflexivity.
  - rewrite destroy_eq. reflexivity.
  - rewrite destroy_eq. reflexivity.
  - rewrite destroy_eq. reflexivity.
  - rewrite destroy_eq. reflexivity.
  - rewrite destroy_eq. reflexivity.
  - rewrite destroy_eq. reflexivity.
  - rewrite destroy_eq. reflexivity.
  - intros Hnone. rewrite destroy_eq, Hnone. unfold_world.
    apply app_nil_r.
Qed.

Lemma destroy_idempotent_witness :
  let w := Js.state
             (Pipeline.run
                [Pipeline.Send [x01] 0x40 0; Pipeline.Send [x02] 0x41 5;
                 Pipeline.SocketData [x05; x00; x00; x00; xf0]]
                (Pipeline.new Pipeline.noConfig)) in
  Framer.buffer (Pipeline.decoder (Pipeline.pipeline w))
  = [x05; x00; x00; x00; xf0]
  /\ Framer.buffer (Pipeline.decoder (Pipeline.pipeline (Pipeline.destroy w)))
     = []
  /\ Framer.pendingBytes
       (Pipeline.decoder (Pipeline.pipeline (Pipeline.destroy w))) = 0%nat
  /\ Pipeline.listening (Pipeline.destroy w) = false
  /\ Pipeline.timeoutChecker (Pipeline.pipeline (Pipeline.destroy w)) = false
  /\ Pipeline.calls (Pipeline.destroy w)
     = [(0%nat, Pipeline.Rejected Js.PipelineDestroyed);
        (1%nat, Pipeline.Rejected Js.PipelineDestroyed)]
  /\ Pipeline.calls (Pipeline.destroy (Pipeline.destroy w))
     = Pipeline.calls (Pipeline.destroy w).
Proof.
  intros w.
  destruct (destroy_idempotent w)
    as (_ & _ & Htimer & Hlisten & _ & Hbuf & Hbytes & _ & _ & Hcalls & _).
  destruct (destroy_idempotent (Pipeline.destroy w))
    as (_ & _ & _ & _ & _ & _ & _ & _ & _ & _ & Hagain).
  split; [vm_compute; reflexivity | ].
  split; [exact Hbuf | ].
  split; [exact Hbytes | ].
  split; [exact Hlisten | ].
  split; [exact Htimer | ].
  split; [rewrite Hcalls; vm_compute; reflexivity | ].
  apply Hagain. vm_compute. reflexivity.
Defined.

(** ** pipeline.ts: frames of length zero *)

Lemma socketData_empty_frame (w : Pipeline.World) :
  Pipeline.listening w = true ->
  Framer.buffer (Pipeline.decoder (Pipeline.pipeline w)) = [] ->
  0 <= Framer.maxFrameSize (Pipeline.decoder (Pipeline.pipeline w)) ->
  Pipeline.socketData [x00; x00; x00; x00] w
  = Js.Normal (Pipeline.console_warn Pipeline.Warn.emptyFrame w).
Proof.
  intros Hl Hb Hm.
  unfold Pipeline.socketData, Framer.pushWith, Pipeline.decoderListeners.
  rewrite Hl, Hb. cbn [app length].
  change [x00; x00; x00; x00] with (Framer.frameBytes [] ++ []).
  rewrite drain_frame by (cbn; lia).
  cbn [Framer.onFrame Pipeline.handleFrame length Nat.ltb Nat.leb].
  cbn [Framer.drain fst snd].
  destruct w as [[? ? [] ? ?] ? ? ? ? ?]. cbn in Hb. subst.
  reflexivity.
Qed.

(** ** pipeline.ts: send *)

Section SendFacts.
Import Js Pipeline.

Lemma send_rejected (frame : list byte) (opcode now : Z) (w : World) :
  maxPending (config (pipeline w)) <= Z.of_nat (size (pending (pipeline w))) ->
  send frame opcode now w
  = call (promises w)
      (Rejected (PipelineBackpressure (size (pending (pipeline w)))))
      (snd (newPromise w)).
Proof.
  intros H. unfold send. cbn [newPromise pipeline].
  apply Z.leb_le in H. rewrite H. reflexivity.
Qed.

Lemma send_accepted (frame : list byte) (opcode now : Z) (w : World) :
  Z.of_nat (size (pending (pipeline w))) < maxPending (config (pipeline w)) ->
  send frame opcode now w
  = let seqId := bitand (sequenceId (pipeline w) + 1) 0xffffffff in
    socket_write frame seqId (promises w)
      (set_pending
         (set seqId
            {| promise := promises w; opcode := opcode; timestamp := now |}
            (pending (pipeline w)))
         (set_sequenceId seqId (snd (newPromise w)))).
Proof.
  intros H. unfold send. cbn [newPromise pipeline].
  apply Z.leb_gt in H. rewrite H. reflexivity.
Qed.
End SendFacts.

(** C4 (backpressure).  A send made when the size of the pending map is at
    or above maxPending fails at once with the backpressure error and has
    no other effect: the pipeline object (sequence counter, pending map,
    decoder buffer) is unchanged, nothing is written to the socket and
    nothing is logged.  A send made when the size is below maxPending
    allocates the next sequence number, records the entry and writes the
    frame.  So with maxPending = K the request made while K - 1 are
    outstanding is written and the one made while K are outstanding is
    rejected. *)
Theorem send_backpressure_boundary
    (frame : list Byte.byte) (opcode now : Z) (w : Pipeline.World) :
  let K := Pipeline.maxPending (Pipeline.config (Pipeline.pipeline w)) in
  let n := Js.size (Pipeline.pending (Pipeline.pipeline w)) in
  let w' := Pipeline.send frame opcode now w in
  (K <= Z.of_nat n ->
     Pipeline.pipeline w' = Pipeline.pipeline w
     /\ Pipeline.socketWrites w' = Pipeline.socketWrites w
     /\ Pipeline.calls w'
        = Pipeline.calls w
          ++ [(Pipeline.promises w,
               Pipeline.Rejected (Js.PipelineBackpressure n))]
     /\ Pipeline.listening w' = Pipeline.listening w
     /\ Pipeline.warnings w' = Pipeline.warnings w)
  /\ (Z.of_nat n < K ->
      let seqId := Js.ToInt32
                     (Pipeline.sequenceId (Pipeline.pipeline w) + 1) in
      Pipeline.socketWrites w'
      = Pipeline.socketWrites w ++ [(frame, (seqId, Pipeline.promises w))]
      /\ Pipeline.sequenceId (Pipeline.pipeline w') = seqId
      /\ Pipeline.pending (Pipeline.pipeline w')
         = Js.set seqId
             {| Pipeline.promise := Pipeline.promises w;
                Pipeline.opcode := opcode; Pipeline.timestamp := now |}
             (Pipeline.pending (Pipeline.pipeline w))
      /\ Pipeline.calls w' = Pipeline.calls w).
Proof.
  cbv zeta. split; intros H.
  - rewrite send_rejected by exact H.
    destruct w as [[? ? ? ? ?] ? ? ? ? ?]. repeat split.
  - rewrite send_accepted by exact H. cbv zeta.
    rewrite bitand_ffffffff.
    destruct w as [[? ? ? ? ?] ? ? ? ? ?]. repeat split.
Qed.

Lemma send_backpressure_boundary_witness :
  let cfg := {| Pipeline.timeout_opt := None;
                Pipeline.maxPending_opt := Some 2;
                Pipeline.maxFrameSize_opt := None |} in
  let w1 := Pipeline.sendAll [([x01], 0x40, 0)] (Pipeline.new cfg) in
  let w2 := Pipeline.send [x02] 0x40 1 w1 in
  let w3 := Pipeline.send [x03] 0x40 2 w2 in
  Pipeline.socketWrites w2
  = Pipeline.socketWrites w1 ++ [([x02], (2, 1%nat))]
  /\ Pipeline.pipeline w3 = Pipeline.pipeline w2
  /\ Pipeline.socketWrites w3 = Pipeline.socketWrites w2
  /\ Pipeline.calls w3
     = [(2%nat, Pipeline.Rejected (Js.PipelineBackpressure 2))].
Proof.
  intros cfg w1 w2 w3.
  destruct (send_backpressure_boundary [x02] 0x40 1 w1) as [_ Hsent].
  destruct (send_backpressure_boundary [x03] 0x40 2 w2) as [Hfull _].
  destruct Hsent as [Hwritten _]; [cbn; lia | ].
  destruct Hfull as (Hpipe & Hsock & Hcalls & _); [cbn; lia | ].
  repeat split; assumption.
Defined.

(** ** frames.ts: strings *)

Section StringFacts.
Import Js Bytes Protocol.

Lemma utf8_lead_1 (b : byte) :
  to_Z b <= 0x7f -> utf8_lead b = ([b], None).
Proof. intros H. unfold utf8_lead. cbv zeta. cmp. reflexivity. Qed.

Lemma utf8_lead_2 (b : byte) :
  inRange 0xc2 0xdf b ->
  utf8_lead b
  = ([], Some {| needed := 1; seen := [b]; lower := 0x80; upper := 0xbf |}).
Proof.
  unfold inRange. intros H. unfold utf8_lead. cbv zeta. cmp. reflexivity.
Qed.

Lemma utf8_lead_3 (b : byte) :
  inRange 0xe0 0xef b ->
  utf8_lead b
  = ([], Some {| needed := 2; seen := [b];
                 lower := if to_Z b =? 0xe0 then 0xa0 else 0x80;
                 upper := if to_Z b =? 0xed then 0x9f else 0xbf |}).
Proof.
  unfold inRange. intros H. unfold utf8_lead. cbv zeta.
  destruct (Z.leb_spec (to_Z b) 0x7f); [lia | ].
  destruct (Z.leb_spec 0xc2 (to_Z b)); [ | lia].
  destruct (Z.leb_spec (to_Z b) 0xdf); [lia | ].
  destruct (Z.leb_spec 0xe0 (to_Z b)); [ | lia].
  destruct (Z.leb_spec (to_Z b) 0xef); [ | lia].
  reflexivity.
Qed.

Lemma utf8_lead_4 (b : byte) :
  inRange 0xf0 0xf4 b ->
  utf8_lead b
  = ([], Some {| needed := 3; seen := [b];
                 lower := if to_Z b =? 0xf0 then 0x90 else 0x80;
                 upper := if to_Z b =? 0xf4 then 0x8f else 0xbf |}).
Proof.
  unfold inRange. intros H. unfold utf8_lead. cbv zeta.
  destruct (Z.leb_spec (to_Z b) 0x7f); [lia | ].
  destruct (Z.leb_spec 0xc2 (to_Z b)); [ | lia].
  destruct (Z.leb_spec (to_Z b) 0xdf); [lia | ].
  destruct (Z.leb_spec 0xe0 (to_Z b)); [ | lia].
  destruct (Z.leb_spec (to_Z b) 0xef); [lia | ].
  destruct (Z.leb_spec 0xf0 (to_Z b)); [ | lia].
  destruct (Z.leb_spec (to_Z b) 0xf4); [ | lia].
  reflexivity.
Qed.

Lemma utf8_continue (s : Utf8State) (b : byte) (rest : list byte) :
  inRange (lower s) (upper s) b ->
  utf8_decode (Some s) (b :: rest)
  = match needed s with
    | 0%nat | 1%nat => (seen s ++ [b]) ++ utf8_decode None rest
    | Datatypes.S n =>
        utf8_decode
          (Some {| needed := n; seen := seen s ++ [b];
                   lower := 0x80; upper := 0xbf |}) rest
    end.
Proof.
  unfold inRange. intros [Hlo Hhi]. cbn [utf8_decode].
  apply Z.leb_le in Hlo, Hhi. rewrite Hlo, Hhi. reflexivity.
Qed.

Lemma utf8_start (b : byte) (rest : list byte) :
  utf8_decode None (b :: rest)
  = let (out, st') := utf8_lead b in out ++ utf8_decode st' rest.
Proof. reflexivity. Qed.

(** The decoder passes well-formed UTF-8 on unchanged. *)
Lemma utf8_decode_wellformed (bytes : list byte) :
  Utf8 bytes -> utf8_decode None bytes = bytes.
Proof.
  induction 1 as [ | b rest Hb _ IH | b1 b2 rest H1 H2 _ IH
                 | b1 b2 b3 rest H1 H2 H3 _ IH
                 | b1 b2 b3 b4 rest H1 H2 H3 H4 _ IH].
  - reflexivity.
  - rewrite utf8_start, utf8_lead_1 by apply Hb.
    cbn [app]. rewrite IH. reflexivity.
  - rewrite utf8_start, (utf8_lead_2 b1 H1). cbn [app].
    rewrite utf8_continue by exact H2.
    cbn [needed seen app]. rewrite IH. reflexivity.
  - rewrite utf8_start, (utf8_lead_3 b1 H1). cbn [app].
    rewrite utf8_continue by exact H2. cbn [needed seen app].
    rewrite utf8_continue by exact H3. cbn [needed seen app].
    rewrite IH. reflexivity.
  - rewrite utf8_start, (utf8_lead_4 b1 H1). cbn [app].
    rewrite utf8_continue by exact H2. cbn [needed seen app].
    rewrite utf8_continue by exact H3. cbn [needed seen app].
    rewrite utf8_continue by exact H4. cbn [needed seen app].
    rewrite IH. reflexivity.
Qed.

Lemma dropBOM_none (bytes : list byte) :
  (forall rest, bytes <> BOM ++ rest) -> dropBOM bytes = bytes.
Proof.
  intros H. destruct bytes as [ | b0 [ | b1 [ | b2 rest]]]; try reflexivity.
  cbn [dropBOM].
  destruct (Byte.eqb b0 xef) eqn:E0; [ | reflexivity].
  destruct (Byte.eqb b1 xbb) eqn:E1; [ | reflexivity].
  destruct (Byte.eqb b2 xbf) eqn:E2; [ | reflexivity].
  apply Byte.byte_dec_bl in E0, E1, E2. subst.
  destruct (H rest). reflexivity.
Qed.

(** A well-formed text that does not begin with U+FEFF is decoded to
    itself. *)
Lemma decode_encode (str : String.string) :
  Utf8 (TextEncoder_encode str) ->
  (forall rest, TextEncoder_encode str <> BOM ++ rest) ->
  TextDecoder_decode (TextEncoder_encode str) = str.
Proof.
  intros Hwf Hbom. unfold TextDecoder_decode.
  rewrite utf8_decode_wellformed by exact Hwf.
  rewrite dropBOM_none by exact Hbom.
  apply String.string_of_list_byte_of_string.
Qed.

(** decodeString reads back what encodeString wrote, up to the decoder. *)
Lemma decodeString_encodeString
    (pre : list byte) (str : String.string) (post : list byte) :
  Z.of_nat (length (TextEncoder_encode str)) < 2 ^ 16 ->
  decodeString (pre ++ encodeString str ++ post) (length pre)
  = Returns (TextDecoder_decode (TextEncoder_encode str),
             (2 + length (TextEncoder_encode str))%nat).
Proof.
  intros Hlen. unfold decodeString, encodeString.
  set (bytes := TextEncoder_encode str) in *.
  rewrite !length_app, length_writeUInt16LE.
  replace (length pre + (2 + length bytes + length post)
             <? length pre + 2)%nat with false
    by (symmetry; apply Nat.ltb_ge; lia).
  rewrite skipn_app, Nat.sub_diag, skipn_all. cbn [app skipn].
  rewrite <- app_assoc.
  rewrite read_writeUInt16LE by lia. rewrite Nat2Z.id.
  unfold subarray.
  replace (length pre + 2 + length bytes - (length pre + 2))%nat
    with (length bytes) by lia.
  rewrite skipn_app.
  rewrite (skipn_all2 pre) by lia.
  replace (length pre + 2 - length pre)%nat with 2%nat by lia.
  cbn [app].
  change (skipn 2 (writeUInt16LE (Z.of_nat (length bytes)) ++ bytes ++ post))
    with (bytes ++ post).
  rewrite firstn_app, Nat.sub_diag, firstn_all. cbn [firstn].
  rewrite app_nil_r. reflexivity.
Qed.

End StringFacts.

(** ** The pending map *)

Section MapFacts.
Import Js.
Context {V : Type}.

Lemma filter_keep_all (f : Z * V -> bool) (m : Map V) :
  (forall e, In e m -> f e = true) -> filter f m = m.
Proof.
  induction m as [ | e m IH]; intros H; [reflexivity | ].
  cbn [filter]. rewrite (H e (or_introl eq_refl)).
  f_equal. apply IH. intros e' He'. apply H. right. exact He'.
Qed.

Lemma delete_absent (k : Z) (m : Map V) :
  ~ In k (map fst m) -> delete k m = m.
Proof.
  intros H. apply filter_keep_all. intros e He.
  apply negb_true_iff, Z.eqb_neq. intros Hk.
  apply H. rewrite <- Hk. apply in_map, He.
Qed.

(** Deleting the key of the oldest entry removes that entry only. *)
Lemma delete_first (k : Z) (v : V) (m : Map V) :
  NoDup (map fst ((k, v) :: m)) -> delete k ((k, v) :: m) = m.
Proof.
  intros H. inversion H as [ | ? ? Hk _]; subst.
  unfold delete. cbn [filter fst]. rewrite Z.eqb_refl. cbn [negb].
  apply delete_absent. exact Hk.
Qed.

(** [set] with a key that is not in the map appends the entry. *)
Lemma set_new (k : Z) (v : V) (m : Map V) :
  ~ In k (map fst m) -> set k v m = m ++ [(k, v)].
Proof.
  induction m as [ | [k' v'] m IH]; intros H; [reflexivity | ].
  cbn [set app]. cbn [map fst In] in H.
  destruct (Z.eqb_spec k' k) as [-> | Hne]; [tauto | ].
  rewrite IH by tauto. reflexivity.
Qed.

Lemma NoDup_map_filter {A B : Type} (g : A -> B) (f : A -> bool)
    (l : list A) :
  NoDup (map g l) -> NoDup (map g (filter f l)).
Proof.
  induction l as [ | a l IH]; cbn [map filter]; intros H; [constructor | ].
  inversion H as [ | ? ? Ha Hl]; subst.
  destruct (f a); [ | exact (IH Hl)].
  cbn [map]. constructor; [ | exact (IH Hl)].
  intros Hin. apply Ha. apply in_map_iff in Hin as (x & Hx & Hin).
  apply filter_In in Hin as [Hin _].
  rewrite <- Hx. apply in_map. exact Hin.
Qed.

Lemma NoDup_map_eq {A B : Type} (g : A -> B) (l : list A) (a b : A) :
  NoDup (map g l) -> In a l -> In b l -> g a = g b -> a = b.
Proof.
  induction l as [ | x l IH]; cbn [map In]; intros H Ha Hb Hg; [tauto | ].
  inversion H as [ | ? ? Hx Hl]; subst.
  destruct Ha as [-> | Ha], Hb as [-> | Hb].
  - reflexivity.
  - destruct Hx. rewrite Hg. apply in_map. exact Hb.
  - destruct Hx. rewrite <- Hg. apply in_map. exact Ha.
  - apply IH; assumption.
Qed.

End MapFacts.

(** ** pipeline.ts: handleFrame *)

Section HandleFrameFacts.
Import Js Bytes Protocol Pipeline.

(** handleFrame on a payload that is not empty, with a request
    pending: the oldest entry is deleted first, then the payload is
    read. *)
Lemma handleFrame_oldest (payload : list byte) (w : World)
    (seqId : Z) (request : PendingRequest) (rest : Map PendingRequest) :
  payload <> [] ->
  pending (pipeline w) = (seqId, request) :: rest ->
  handleFrame payload w
  = let w' := set_pending (delete seqId (pending (pipeline w))) w in
    match readResponse payload with
    | Returns s => Normal (call (promise request) s w')
    | Throws e => Throw e w'
    end.
Proof.
  intros Hne Hp. unfold handleFrame, readResponse.
  destruct payload as [ | tag data]; [contradiction | ].
  cbn [length Nat.ltb Nat.leb hd]. rewrite Hp. cbn [first hd_error].
  cbv zeta.
  destruct (to_Z tag =? RESPONSE_ERROR); [ | reflexivity].
  destruct (readU8 _) as [[errorCode reader] | e]; [ | reflexivity].
  destruct (readString reader) as [[message r'] | e]; reflexivity.
Qed.

Lemma handleFrame_unsolicited (payload : list byte) (w : World) :
  payload <> [] ->
  pending (pipeline w) = [] ->
  handleFrame payload w = Normal (console_warn Warn.noPendingRequest w).
Proof.
  intros Hne Hp. unfold handleFrame.
  destruct payload as [ | tag data]; [contradiction | ].
  cbn [length Nat.ltb Nat.leb]. rewrite Hp. reflexivity.
Qed.

(** An error frame with a complete body. *)
Lemma readResponse_error (X : Z) (m : String.string) :
  0 <= X < 256 ->
  Z.of_nat (length (TextEncoder_encode m)) < 2 ^ 16 ->
  readResponse (of_Z RESPONSE_ERROR :: of_Z X :: encodeString m)
  = Returns (Rejected (newMindFryError X
                         (TextDecoder_decode (TextEncoder_encode m)))).
Proof.
  intros HX Hlen. unfold readResponse. cbn [hd]. cbv zeta.
  rewrite to_Z_of_Z. change (RESPONSE_ERROR mod 256) with RESPONSE_ERROR.
  rewrite Z.eqb_refl.
  unfold subarrayFrom. cbn [skipn].
  unfold readU8, newPayloadReader. cbn [data offset nth_error].
  rewrite to_Z_of_Z, Z.mod_small by lia.
  unfold readString. cbn [data offset Nat.add].
  pose proof (decodeString_encodeString [of_Z X] m [] Hlen) as Hd.
  cbn [length app] in Hd. rewrite app_nil_r in Hd. rewrite Hd.
  reflexivity.
Qed.

(** Any other tag. *)
Lemma readResponse_success (tag : byte) (body : list byte) :
  to_Z tag <> RESPONSE_ERROR ->
  readResponse (tag :: body) = Returns (Resolved body).
Proof.
  intros H. unfold readResponse. cbn [hd]. cbv zeta.
  apply Z.eqb_neq in H. rewrite H. reflexivity.
Qed.

End HandleFrameFacts.

(** ** Calls on promises *)

Section CallFacts.
Import Js Pipeline.

Lemma invocations_app (l1 l2 : list (nat * Settlement)) (p : nat) :
  invocations (l1 ++ l2) p = (invocations l1 p + invocations l2 p)%nat.
Proof. unfold invocations. rewrite filter_app, length_app. reflexivity. Qed.

Lemma invocations_none (l : list (nat * Settlement)) (p : nat) :
  ~ In p (map fst l) -> invocations l p = 0%nat.
Proof.
  unfold invocations. induction l as [ | [q s] l IH]; intros H;
    [reflexivity | ].
  cbn [map fst In] in H. cbn [filter fst].
  destruct (Nat.eqb_spec q p) as [-> | Hne]; [tauto | ].
  apply IH. tauto.
Qed.

Lemma invocations_some (l : list (nat * Settlement)) (p : nat) :
  In p (map fst l) -> (1 <= invocations l p)%nat.
Proof.
  unfold invocations. induction l as [ | [q s] l IH]; intros H;
    [destruct H | ].
  cbn [map fst In] in H. cbn [filter fst].
  destruct (Nat.eqb_spec q p) as [-> | Hne]; [cbn [length]; lia | ].
  apply IH. tauto.
Qed.

(** Once in [NoDup] lists every promise is called once. *)
Lemma invocations_NoDup (l : list (nat * Settlement)) (p : nat) :
  NoDup (map fst l) -> (invocations l p <= 1)%nat.
Proof.
  unfold invocations. induction l as [ | [q s] l IH]; intros H;
    [cbn; lia | ].
  cbn [map fst] in H. inversion H as [ | ? ? Hq Hl]; subst.
  cbn [filter fst].
  destruct (Nat.eqb_spec q p) as [-> | Hne]; [ | apply IH, Hl].
  cbn [length]. fold (invocations l p).
  rewrite invocations_none by exact Hq. lia.
Qed.

(** The state of a settled promise is not changed by later calls. *)
Lemma promiseState_app (l1 l2 : list (nat * Settlement)) (p : nat) :
  (1 <= invocations l1 p)%nat ->
  promiseState (l1 ++ l2) p = promiseState l1 p.
Proof.
  unfold promiseState, invocations.
  induction l1 as [ | [q s] l1 IH]; cbn [filter length app find fst];
    intros H; [lia | ].
  destruct (Nat.eqb q p); [reflexivity | ].
  apply IH. exact H.
Qed.

Lemma promiseState_settled (l : list (nat * Settlement)) (p : nat) :
  (1 <= invocations l p)%nat <-> promiseState l p <> None.
Proof.
  unfold promiseState, invocations.
  induction l as [ | [q s] l IH]; cbn [filter length find fst].
  - split; [lia | intros H; exfalso; apply H; reflexivity].
  - destruct (Nat.eqb q p); [ | exact IH].
    cbn [length option_map]. split; [discriminate | lia].
Qed.

Lemma promiseState_unsettled (l : list (nat * Settlement)) (p : nat) :
  invocations l p = 0%nat <-> promiseState l p = None.
Proof.
  pose proof (promiseState_settled l p) as H.
  destruct (promiseState l p) as [s | ].
  - split; [ | discriminate]. intros H0.
    assert (1 <= invocations l p)%nat by (apply H; discriminate). lia.
  - split; [reflexivity | ]. intros _.
    destruct (invocations l p); [reflexivity | ].
    exfalso. apply H; [lia | reflexivity].
Qed.

End CallFacts.

(** ** Coherent pipelines *)

Section CoherentFacts.
Import Js Pipeline.

Lemma pending_written (w : World) (e : Z * PendingRequest) :
  Coherent w -> In e (pending (pipeline w)) ->
  In (promise (snd e)) (writtenPromises w).
Proof.
  intros Hc He. apply (coh_written w Hc) in He.
  apply in_map_iff in He as (x & Hx & Hin).
  unfold writtenPromises. apply in_map_iff. exists x.
  split; [rewrite Hx; reflexivity | exact Hin].
Qed.

Lemma new_coherent (c : PartialConfig) : Coherent (new c).
Proof.
  constructor; cbn.
  - constructor.
  - constructor.
  - intros e [].
  - intros i x H. destruct i; discriminate H.
  - reflexivity.
  - lia.
  - constructor.
  - intros p [[] | []].
  - intros p [].
  - intros p [].
Qed.

(** Entries leave the pending map and calls are made: every entry that
    leaves is called, and whoever is called was written and is pending no
    more. *)
Lemma removal_coherent (w w' : World)
    (keep : Z * PendingRequest -> bool) (made : list (nat * Settlement)) :
  Coherent w ->
  pending (pipeline w') = filter keep (pending (pipeline w)) ->
  calls w' = calls w ++ made ->
  socketWrites w' = socketWrites w ->
  promises w' = promises w ->
  sequenceId (pipeline w') = sequenceId (pipeline w) ->
  (forall e, In e (pending (pipeline w)) -> keep e = false ->
             In (promise (snd e)) (map fst made)) ->
  (forall p, In p (map fst made) ->
             In p (writtenPromises w)
             /\ ~ In p (map (fun e => promise (snd e))
                          (filter keep (pending (pipeline w))))) ->
  Coherent w'.
Proof.
  intros Hc Hp Hcalls Hw Hn Hs Hleft Hmade.
  assert (Hpp : pendingPromises w'
                = map (fun e => promise (snd e))
                    (filter keep (pending (pipeline w)))).
  { unfold pendingPromises. rewrite Hp. reflexivity. }
  assert (Hwp : writtenPromises w' = writtenPromises w).
  { unfold writtenPromises. rewrite Hw. reflexivity. }
  constructor.
  - rewrite Hp. apply NoDup_map_filter, (coh_keys w Hc).
  - rewrite Hpp. apply NoDup_map_filter, (coh_promises w Hc).
  - intros e He. rewrite Hp in He. apply filter_In in He as [He _].
    rewrite Hw. apply (coh_written w Hc), He.
  - rewrite Hw. apply (coh_writeKeys w Hc).
  - rewrite Hs, Hw. apply (coh_sequenceId w Hc).
  - rewrite Hw. apply (coh_bound w Hc).
  - rewrite Hwp. apply (coh_writePromises w Hc).
  - intros p Hin. rewrite Hn. apply (coh_fresh w Hc).
    rewrite Hwp, Hcalls, map_app, in_app_iff in Hin.
    destruct Hin as [Hin | [Hin | Hin]]; [tauto | tauto | ].
    left. apply Hmade, Hin.
  - intros p Hin. rewrite Hcalls, invocations_app.
    rewrite Hpp in Hin.
    assert (Hold : In p (pendingPromises w)).
    { apply in_map_iff in Hin as (e & He & Hin).
      apply filter_In in Hin as [Hin _].
      unfold pendingPromises. apply in_map_iff. exists e. tauto. }
    rewrite (coh_pending w Hc p Hold).
    rewrite invocations_none; [reflexivity | ].
    intros Hm. apply Hmade in Hm. tauto.
  - intros p Hwr Hout. rewrite Hcalls, invocations_app.
    rewrite Hwp in Hwr. rewrite Hpp in Hout.
    destruct (in_dec Nat.eq_dec p (pendingPromises w)) as [Hold | Hold].
    + unfold pendingPromises in Hold.
      apply in_map_iff in Hold as (e & He & Hin).
      destruct (keep e) eqn:Ek.
      * destruct Hout. apply in_map_iff. exists e.
        split; [exact He | apply filter_In; tauto].
      * pose proof (Hleft e Hin Ek) as Hm. rewrite He in Hm.
        apply invocations_some in Hm. lia.
    + pose proof (coh_settled w Hc p Hwr Hold). lia.
Qed.

(** The usual case: the calls made are those on the entries that
    leave. *)
Lemma selection_coherent (w w' : World)
    (keep : Z * PendingRequest -> bool) (made : list (nat * Settlement)) :
  Coherent w ->
  pending (pipeline w') = filter keep (pending (pipeline w)) ->
  calls w' = calls w ++ made ->
  socketWrites w' = socketWrites w ->
  promises w' = promises w ->
  sequenceId (pipeline w') = sequenceId (pipeline w) ->
  map fst made
  = map (fun e => promise (snd e))
      (filter (fun e => negb (keep e)) (pending (pipeline w))) ->
  Coherent w'.
Proof.
  intros Hc Hp Hcalls Hw Hn Hs Hmade.
  apply (removal_coherent w w' keep made); try assumption.
  - intros e He Ek. rewrite Hmade. apply in_map_iff. exists e.
    split; [reflexivity | ]. apply filter_In. rewrite Ek. tauto.
  - intros p Hin. rewrite Hmade in Hin.
    apply in_map_iff in Hin as (e & He & Hin).
    apply filter_In in Hin as [Hin Ek]. apply negb_true_iff in Ek.
    split.
    + rewrite <- He. apply pending_written; assumption.
    + intros Hkept. apply in_map_iff in Hkept as (e' & He' & Hin').
      apply filter_In in Hin' as [Hin' Ek'].
      assert (e' = e).
      { apply (NoDup_map_eq (fun e => promise (snd e))
                 (pending (pipeline w))); try assumption.
        - apply (coh_promises w Hc).
        - congruence. }
      congruence.
Qed.

End CoherentFacts.

Section SequenceKeys.
Import Js Pipeline.

Lemma ToInt32_mod_eq (x y : Z) :
  x mod 2 ^ 32 = y mod 2 ^ 32 -> ToInt32 x = ToInt32 y.
Proof. unfold ToInt32. intros ->. reflexivity. Qed.

Lemma ToInt32_succ (n : Z) : ToInt32 (ToInt32 n + 1) = ToInt32 (n + 1).
Proof.
  apply ToInt32_mod_eq.
  rewrite Z.add_mod by lia. rewrite ToInt32_congr.
  rewrite <- Z.add_mod by lia. reflexivity.
Qed.

(** 2^32 consecutive allocations give 2^32 different numbers. *)
Lemma ToInt32_inj (a b : Z) :
  1 <= a <= 2 ^ 32 -> 1 <= b <= 2 ^ 32 -> ToInt32 a = ToInt32 b -> a = b.
Proof.
  intros Ha Hb H.
  apply (f_equal (fun z => z mod 2 ^ 32)) in H.
  rewrite !ToInt32_congr in H.
  destruct (Z.eq_dec a (2 ^ 32)) as [-> | Hna];
    destruct (Z.eq_dec b (2 ^ 32)) as [-> | Hnb]; try reflexivity.
  - rewrite Z.mod_same in H by lia. rewrite Z.mod_small in H by lia. lia.
  - rewrite (Z.mod_same (2 ^ 32)) in H by lia.
    rewrite Z.mod_small in H by lia. lia.
  - rewrite !Z.mod_small in H by lia. exact H.
Qed.

(** Two writes with the same sequence number are the same write. *)
Lemma writeKey_inj (w : World) (x y : list Byte.byte * (Z * nat)) :
  Coherent w -> In x (socketWrites w) -> In y (socketWrites w) ->
  writeKey x = writeKey y -> x = y.
Proof.
  intros Hc Hx Hy Hk.
  apply In_nth_error in Hx as [i Hi]. apply In_nth_error in Hy as [j Hj].
  pose proof (coh_bound w Hc) as Hb.
  assert (Hil : (i < length (socketWrites w))%nat)
    by (apply nth_error_Some; congruence).
  assert (Hjl : (j < length (socketWrites w))%nat)
    by (apply nth_error_Some; congruence).
  rewrite (coh_writeKeys w Hc i x Hi), (coh_writeKeys w Hc j y Hj) in Hk.
  apply ToInt32_inj in Hk; [ | lia | lia].
  assert (i = j) by lia. subst j. congruence.
Qed.

Lemma writePromise_inj (w : World) (x y : list Byte.byte * (Z * nat)) :
  Coherent w -> In x (socketWrites w) -> In y (socketWrites w) ->
  writePromise x = writePromise y -> x = y.
Proof.
  intros Hc Hx Hy Hp.
  apply (NoDup_map_eq writePromise (socketWrites w)); try assumption.
  apply (coh_writePromises w Hc).
Qed.

(** The next sequence number is the key of no write so far. *)
Lemma next_key_new (w : World) :
  Coherent w ->
  Z.of_nat (length (socketWrites w)) + 1 <= 2 ^ 32 ->
  ~ In (ToInt32 (sequenceId (pipeline w) + 1))
       (map writeKey (socketWrites w)).
Proof.
  intros Hc Hb Hin.
  apply in_map_iff in Hin as (x & Hx & Hin).
  apply In_nth_error in Hin as [i Hi].
  assert (Hil : (i < length (socketWrites w))%nat)
    by (apply nth_error_Some; congruence).
  rewrite (coh_writeKeys w Hc i x Hi) in Hx.
  rewrite (coh_sequenceId w Hc), ToInt32_succ in Hx.
  apply ToInt32_inj in Hx; lia.
Qed.

Lemma pending_key_written (w : World) (e : Z * PendingRequest) :
  Coherent w -> In e (pending (pipeline w)) ->
  In (fst e) (map writeKey (socketWrites w)).
Proof.
  intros Hc He. apply (coh_written w Hc) in He.
  apply in_map_iff in He as (x & Hx & Hin).
  apply in_map_iff. exists x. split; [ | exact Hin].
  unfold writeKey. rewrite Hx. reflexivity.
Qed.

End SequenceKeys.

Section HandlerCoherence.
Import Js Pipeline.

Lemma filter_none {A : Type} (l : list A) : filter (fun _ => false) l = [].
Proof. induction l; [reflexivity | exact IHl]. Qed.

Lemma filter_all {A : Type} (l : list A) : filter (fun _ => true) l = l.
Proof. induction l; [reflexivity | cbn [filter]; f_equal; exact IHl]. Qed.

(** In a Map the entries under one key are one entry. *)
Lemma filter_key (m : Map PendingRequest) (k : Z) (v : PendingRequest) :
  NoDup (map fst m) -> In (k, v) m ->
  filter (fun e => negb (negb (fst e =? k))) m = [(k, v)].
Proof.
  induction m as [ | [k' v'] m IH]; intros Hnd Hin; [destruct Hin | ].
  cbn [map fst] in Hnd. inversion Hnd as [ | ? ? Hk' Hm]; subst.
  cbn [filter fst].
  destruct Hin as [Heq | Hin].
  - inversion Heq; subst. rewrite Z.eqb_refl. cbn [negb]. f_equal.
    rewrite (filter_ext_in _ (fun _ => false)); [apply filter_none | ].
    intros e He. rewrite negb_involutive. apply Z.eqb_neq.
    intros Hk. apply Hk'. rewrite <- Hk. apply in_map, He.
  - destruct (Z.eqb_spec k' k) as [-> | Hne].
    + destruct Hk'. change k with (fst (k, v)). apply in_map, Hin.
    + cbn [negb]. apply IH; assumption.
Qed.

(** Changes that leave the pending map, the calls, the writes and the
    counters alone. *)
Lemma coherent_same (w w' : World) :
  Coherent w ->
  pending (pipeline w') = pending (pipeline w) ->
  calls w' = calls w ->
  socketWrites w' = socketWrites w ->
  promises w' = promises w ->
  sequenceId (pipeline w') = sequenceId (pipeline w) ->
  Coherent w'.
Proof.
  intros Hc Hp Hcalls Hw Hn Hs.
  apply (removal_coherent w w' (fun _ => true) []); try assumption.
  - rewrite filter_all. exact Hp.
  - rewrite app_nil_r. exact Hcalls.
  - discriminate.
  - intros p [].
Qed.

Lemma handleFrame_coherent (payload : list byte) (w w' : World) :
  Coherent w -> handleFrame payload w = Normal w' -> Coherent w'.
Proof.
  intros Hc Hh.
  destruct payload as [ | tag data].
  - inversion Hh; subst. apply (coherent_same w); auto.
  - destruct (pending (pipeline w)) as [ | [k r] rest] eqn:Ep.
    + rewrite handleFrame_unsolicited in Hh by (discriminate || assumption).
      inversion Hh; subst. apply (coherent_same w); auto.
    + rewrite (handleFrame_oldest _ w k r rest) in Hh
        by (discriminate || assumption).
      cbv zeta in Hh.
      destruct (readResponse (tag :: data)) as [s | e];
        [ | discriminate].
      inversion Hh; subst w'.
      apply (selection_coherent w _ (fun e => negb (fst e =? k))
               [(promise r, s)]); try assumption; try reflexivity.
      rewrite (filter_key _ k r).
      * reflexivity.
      * apply (coh_keys w Hc).
      * rewrite Ep. left. reflexivity.
Qed.

Lemma rejectAllPending_coherent (err : Error) (w : World) :
  Coherent w -> Coherent (rejectAllPending err w).
Proof.
  intros Hc. rewrite rejectAllPending_eq.
  apply (selection_coherent w _ (fun _ => false)
           (map (rejection err) (pending (pipeline w))));
    try assumption; try reflexivity.
  - symmetry. apply filter_none.
  - cbn [negb]. rewrite filter_all, map_map. reflexivity.
Qed.

Lemma destroy_coherent (w : World) : Coherent w -> Coherent (destroy w).
Proof.
  intros Hc. rewrite destroy_eq.
  apply (selection_coherent w _ (fun _ => false)
           (map (rejection PipelineDestroyed) (pending (pipeline w))));
    try assumption; try reflexivity.
  - symmetry. apply filter_none.
  - cbn [negb]. rewrite filter_all, map_map. reflexivity.
Qed.

(** The write callback: the entry under its sequence number, if still
    there, is the one of its request. *)
Lemma writeCallback_coherent (i : nat) (err : option Error) (w : World) :
  Coherent w -> Coherent (writeCallback i err w).
Proof.
  intros Hc. unfold writeCallback.
  destruct (nth_error (socketWrites w) i) as [[frame [k p]] | ] eqn:Ei;
    [ | exact Hc].
  destruct err as [e | ]; [ | exact Hc].
  assert (Hx : In (frame, (k, p)) (socketWrites w))
    by (eapply nth_error_In; exact Ei).
  apply (removal_coherent w _ (fun e => negb (fst e =? k))
           [(p, Rejected e)]); try assumption; try reflexivity.
  - intros e0 He0 Ek. apply negb_false_iff, Z.eqb_eq in Ek.
    left. cbn [fst].
    pose proof (coh_written w Hc e0 He0) as Hw0.
    apply in_map_iff in Hw0 as (y & Hy & Hin).
    assert (y = (frame, (k, p))).
    { apply (writeKey_inj w); try assumption.
      unfold writeKey. rewrite Hy. cbn [snd fst]. exact Ek. }
    subst y. cbn [snd] in Hy. inversion Hy. reflexivity.
  - intros q [<- | []]. cbn [fst]. split.
    + unfold writtenPromises. apply in_map_iff.
      exists (frame, (k, p)). tauto.
    + intros Hkept. apply in_map_iff in Hkept as (e' & He' & Hin').
      apply filter_In in Hin' as [Hin' Ek'].
      apply negb_true_iff, Z.eqb_neq in Ek'.
      pose proof (coh_written w Hc e' Hin') as Hw'.
      apply in_map_iff in Hw' as (y & Hy & Hin).
      assert (y = (frame, (k, p))).
      { apply (writePromise_inj w); try assumption.
        unfold writePromise. rewrite Hy. cbn [snd]. exact He'. }
      subst y. cbn [snd] in Hy. inversion Hy. congruence.
Qed.

End HandlerCoherence.

Section TimeoutFacts.
Import Js Pipeline.

Lemma filter_twice {A : Type} (f g : A -> bool) (l : list A) :
  filter f (filter g l) = filter (fun x => g x && f x) l.
Proof.
  induction l as [ | a l IH]; [reflexivity | ].
  cbn [filter]. destruct (g a); cbn [andb filter].
  - destruct (f a); rewrite IH; reflexivity.
  - exact IH.
Qed.

(** An entry survives the loop unless a chosen entry visited has its
    key. *)
Lemma sweepKeys_fold (sel : Z * PendingRequest -> bool)
    (l : list (Z * PendingRequest)) :
  forall m : Map PendingRequest,
    fold_left (sweepKeys sel) l m
    = filter (fun e => negb (existsb (fun e' => sel e' && (fst e' =? fst e)) l))
        m.
Proof.
  induction l as [ | a l IH]; intros m.
  - cbn [fold_left existsb negb]. symmetry. apply filter_all.
  - cbn [fold_left existsb]. rewrite IH. unfold sweepKeys.
    destruct (sel a); cbn [andb orb].
    + unfold delete. rewrite filter_twice. apply filter_ext.
      intros e. rewrite negb_orb, (Z.eqb_sym (fst e) (fst a)).
      reflexivity.
    + reflexivity.
Qed.

Lemma sweepKeys_self (sel : Z * PendingRequest -> bool)
    (m : Map PendingRequest) :
  NoDup (map fst m) ->
  fold_left (sweepKeys sel) m m = filter (fun e => negb (sel e)) m.
Proof.
  intros Hnd. rewrite sweepKeys_fold. apply filter_ext_in.
  intros e He. f_equal.
  destruct (sel e) eqn:Es.
  - apply existsb_exists. exists e.
    rewrite Es, Z.eqb_refl. tauto.
  - destruct (existsb _ m) eqn:Ex; [ | reflexivity].
    apply existsb_exists in Ex as (e' & He' & Hb).
    apply andb_true_iff in Hb as [Hs Hk]. apply Z.eqb_eq in Hk.
    assert (e' = e)
      by (apply (NoDup_map_eq fst m); assumption).
    congruence.
Qed.

Lemma sweep_config (sel : Z * PendingRequest -> bool) (err : Error)
    (w : World) (e : Z * PendingRequest) :
  config (pipeline (sweep sel err w e)) = config (pipeline w).
Proof. unfold sweep. destruct (sel e); reflexivity. Qed.

(** The loop of the timeout sweep, in the shape of [sweep]. *)
Lemma timeoutCheck_loop (now t : Z) (l : list (Z * PendingRequest)) :
  forall w : World,
    timeout (config (pipeline w)) = t ->
    fold_left
      (fun w e =>
         (fun (seqId : Z) (req : PendingRequest) (w : World) =>
            let t := timeout (config (pipeline w)) in
            if t <? now - timestamp req then
              let w := reject req (RequestTimeout t) w in
              set_pending (delete seqId (pending (pipeline w))) w
            else w) (fst e) (snd e) w) l w
    = fold_left (sweep (expired t now) (RequestTimeout t)) l w.
Proof.
  induction l as [ | e l IH]; intros w Ht; [reflexivity | ].
  cbn [fold_left].
  rewrite <- IH by (rewrite sweep_config; exact Ht).
  f_equal. unfold sweep, expired. cbv beta zeta. rewrite Ht. reflexivity.
Qed.

Lemma timeoutCheck_sweep (now : Z) (w : World) :
  timeoutCheck now w
  = let t := timeout (config (pipeline w)) in
    fold_left (sweep (expired t now) (RequestTimeout t))
      (pending (pipeline w)) w.
Proof. apply timeoutCheck_loop. reflexivity. Qed.

Lemma timeoutCheck_eq (now : Z) (w : World) :
  NoDup (map fst (pending (pipeline w))) ->
  timeoutCheck now w
  = let t := timeout (config (pipeline w)) in
    set_pending
      (filter (fun e => negb (expired t now e)) (pending (pipeline w)))
      (add_calls
         (map (rejection (RequestTimeout t))
            (filter (expired t now) (pending (pipeline w)))) w).
Proof.
  intros Hnd. rewrite timeoutCheck_sweep. cbv zeta.
  rewrite sweep_fold, sweepKeys_self by exact Hnd. reflexivity.
Qed.

Lemma timeoutCheck_coherent (now : Z) (w : World) :
  Coherent w -> Coherent (timeoutCheck now w).
Proof.
  intros Hc. rewrite timeoutCheck_eq by apply (coh_keys w Hc).
  cbv zeta.
  set (t := timeout (config (pipeline w))).
  apply (selection_coherent w _ (fun e => negb (expired t now e))
           (map (rejection (RequestTimeout t))
              (filter (expired t now) (pending (pipeline w)))));
    try assumption; try reflexivity.
  rewrite map_map. cbn [rejection fst]. f_equal.
  apply filter_ext. intros e. rewrite negb_involutive. reflexivity.
Qed.

End TimeoutFacts.

Section SendCoherence.
Import Js Pipeline.

Lemma send_rejected_fields (frame : list byte) (opcode now : Z) (w : World) :
  maxPending (config (pipeline w)) <= Z.of_nat (size (pending (pipeline w))) ->
  let w' := send frame opcode now w in
  pipeline w' = pipeline w
  /\ socketWrites w' = socketWrites w
  /\ calls w'
     = calls w
       ++ [(promises w,
            Rejected (PipelineBackpressure (size (pending (pipeline w)))))]
  /\ promises w' = S (promises w).
Proof.
  intros H. cbv zeta. rewrite send_rejected by exact H. repeat split.
Qed.

Lemma send_accepted_fields (frame : list byte) (opcode now : Z) (w : World) :
  Z.of_nat (size (pending (pipeline w))) < maxPending (config (pipeline w)) ->
  let w' := send frame opcode now w in
  let seqId := ToInt32 (sequenceId (pipeline w) + 1) in
  pending (pipeline w')
  = set seqId {| promise := promises w; opcode := opcode; timestamp := now |}
      (pending (pipeline w))
  /\ sequenceId (pipeline w') = seqId
  /\ socketWrites w' = socketWrites w ++ [(frame, (seqId, promises w))]
  /\ calls w' = calls w
  /\ promises w' = S (promises w).
Proof.
  intros H. cbv zeta. rewrite send_accepted by exact H. cbv zeta.
  rewrite bitand_ffffffff. repeat split.
Qed.

Lemma NoDup_snoc {A : Type} (l : list A) (a : A) :
  NoDup l -> ~ In a l -> NoDup (l ++ [a]).
Proof.
  intros Hl Ha. apply NoDup_app; [exact Hl | repeat constructor; intros [] | ].
  intros x Hx [<- | []]. exact (Ha Hx).
Qed.

(** An accepted send appends one entry to the pending map. *)
Lemma send_accepted_pending (frame : list byte) (opcode now : Z) (w : World) :
  Coherent w ->
  Z.of_nat (size (pending (pipeline w))) < maxPending (config (pipeline w)) ->
  Z.of_nat (length (socketWrites w)) + 1 <= 2 ^ 32 ->
  pending (pipeline (send frame opcode now w))
  = pending (pipeline w)
    ++ [(ToInt32 (sequenceId (pipeline w) + 1),
         {| promise := promises w; opcode := opcode; timestamp := now |})].
Proof.
  intros Hc Hroom Hb.
  destruct (send_accepted_fields frame opcode now w Hroom) as (-> & _).
  apply set_new. intros Hin.
  apply (next_key_new w Hc Hb).
  apply in_map_iff in Hin as (e & He & Hin). rewrite <- He.
  apply pending_key_written; assumption.
Qed.

Lemma send_coherent (frame : list byte) (opcode now : Z) (w : World) :
  Coherent w ->
  Z.of_nat (length (socketWrites (send frame opcode now w))) <= 2 ^ 32 ->
  Coherent (send frame opcode now w).
Proof.
  intros Hc Hb.
  assert (Hlt : forall q, In q (pendingPromises w) -> (q < promises w)%nat).
  { intros q Hq. apply (coh_fresh w Hc). left.
    unfold pendingPromises in Hq. apply in_map_iff in Hq as (e & <- & He).
    apply pending_written; assumption. }
  destruct (Z.le_gt_cases (maxPending (config (pipeline w)))
              (Z.of_nat (size (pending (pipeline w))))) as [Hfull | Hroom].
  - destruct (send_rejected_fields frame opcode now w Hfull)
      as (Hpipe & Hw & Hcalls & Hn).
    set (w' := send frame opcode now w) in *.
    assert (Hpp : pendingPromises w' = pendingPromises w)
      by (unfold pendingPromises; rewrite Hpipe; reflexivity).
    assert (Hwp : writtenPromises w' = writtenPromises w)
      by (unfold writtenPromises; rewrite Hw; reflexivity).
    constructor.
    + rewrite Hpipe. apply (coh_keys w Hc).
    + rewrite Hpp. apply (coh_promises w Hc).
    + rewrite Hpipe, Hw. apply (coh_written w Hc).
    + rewrite Hw. apply (coh_writeKeys w Hc).
    + rewrite Hpipe, Hw. apply (coh_sequenceId w Hc).
    + exact Hb.
    + rewrite Hwp. apply (coh_writePromises w Hc).
    + intros q Hq. rewrite Hn.
      rewrite Hwp, Hcalls, map_app, in_app_iff in Hq. cbn [map fst In] in Hq.
      destruct Hq as [Hq | [Hq | [<- | []]]]; [ | | lia];
        pose proof (coh_fresh w Hc q ltac:(tauto)); lia.
    + intros q Hq. rewrite Hpp in Hq.
      rewrite Hcalls, invocations_app, (coh_pending w Hc q Hq).
      apply invocations_none. cbn [map fst In].
      pose proof (Hlt q Hq). lia.
    + intros q Hq Hout. rewrite Hwp in Hq. rewrite Hpp in Hout.
      rewrite Hcalls, invocations_app.
      pose proof (coh_settled w Hc q Hq Hout). lia.
  - destruct (send_accepted_fields frame opcode now w Hroom)
      as (_ & Hs & Hw & Hcalls & Hn).
    assert (Hb' : Z.of_nat (length (socketWrites w)) + 1 <= 2 ^ 32).
    { rewrite Hw, length_app in Hb. cbn [length] in Hb. lia. }
    pose proof (send_accepted_pending frame opcode now w Hc Hroom Hb')
      as Hp.
    set (w' := send frame opcode now w) in *.
    set (k := ToInt32 (sequenceId (pipeline w) + 1)) in *.
    assert (Hpp : pendingPromises w' = pendingPromises w ++ [promises w])
      by (unfold pendingPromises; rewrite Hp, map_app; reflexivity).
    assert (Hwp : writtenPromises w' = writtenPromises w ++ [promises w])
      by (unfold writtenPromises; rewrite Hw, map_app; reflexivity).
    assert (Hfresh : ~ In (promises w) (writtenPromises w)).
    { intros Hin. pose proof (coh_fresh w Hc _ (or_introl Hin)). lia. }
    constructor.
    + rewrite Hp, map_app. cbn [map fst]. apply NoDup_snoc.
      * apply (coh_keys w Hc).
      * intros Hin. apply (next_key_new w Hc Hb').
        apply in_map_iff in Hin as (e & He & Hin). fold k. rewrite <- He.
        apply pending_key_written; assumption.
    + rewrite Hpp. apply NoDup_snoc; [apply (coh_promises w Hc) | ].
      intros Hin. pose proof (Hlt _ Hin). lia.
    + intros e He. rewrite Hw, map_app, in_app_iff.
      rewrite Hp, in_app_iff in He. destruct He as [He | [<- | []]].
      * left. apply (coh_written w Hc), He.
      * right. left. reflexivity.
    + intros i x Hi. rewrite Hw in Hi.
      destruct (Nat.lt_ge_cases i (length (socketWrites w))) as [Hil | Hil].
      * rewrite nth_error_app1 in Hi by exact Hil.
        apply (coh_writeKeys w Hc), Hi.
      * rewrite nth_error_app2 in Hi by exact Hil.
        destruct (i - length (socketWrites w))%nat as [ | j] eqn:Ej;
          [ | destruct j; discriminate Hi].
        inversion Hi; subst x. unfold writeKey. cbn [snd fst].
        unfold k. rewrite (coh_sequenceId w Hc), ToInt32_succ.
        f_equal. lia.
    + rewrite Hs, Hw, length_app. cbn [length]. unfold k.
      rewrite (coh_sequenceId w Hc), ToInt32_succ. f_equal. lia.
    + exact Hb.
    + rewrite Hwp. apply NoDup_snoc;
        [apply (coh_writePromises w Hc) | exact Hfresh].
    + intros q Hq. rewrite Hn. rewrite Hwp, Hcalls, in_app_iff in Hq.
      cbn [In] in Hq.
      destruct Hq as [[Hq | [<- | []]] | Hq]; [ | lia | ];
        pose proof (coh_fresh w Hc q ltac:(tauto)); lia.
    + intros q Hq. rewrite Hcalls. rewrite Hpp, in_app_iff in Hq.
      destruct Hq as [Hq | [<- | []]]; [apply (coh_pending w Hc), Hq | ].
      apply invocations_none. intros Hin.
      pose proof (coh_fresh w Hc _ (or_intror Hin)). lia.
    + intros q Hq Hout. rewrite Hcalls.
      rewrite Hwp, in_app_iff in Hq. rewrite Hpp, in_app_iff in Hout.
      cbn [In] in Hq, Hout.
      apply (coh_settled w Hc); tauto.
Qed.

End SendCoherence.

(** ** Runs *)

Section RunFacts.
Import Js Pipeline.

Lemma Extends_refl (w : World) : Extends w w.
Proof.
  repeat split; try (exists []; rewrite app_nil_r; reflexivity). lia.
Qed.

Lemma Extends_trans (w1 w2 w3 : World) :
  Extends w1 w2 -> Extends w2 w3 -> Extends w1 w3.
Proof.
  intros ([m1 H1] & [c1 Hc1] & Hn1) ([m2 H2] & [c2 Hc2] & Hn2).
  repeat split.
  - exists (m1 ++ m2). rewrite H2, H1, app_assoc. reflexivity.
  - exists (c1 ++ c2). rewrite Hc2, Hc1, app_assoc. reflexivity.
  - lia.
Qed.

(** What is needed to see that a world comes after another. *)
Lemma Extends_calls (w w' : World) (made : list (nat * Settlement)) :
  socketWrites w' = socketWrites w -> calls w' = calls w ++ made ->
  promises w' = promises w -> Extends w w'.
Proof.
  intros Hw Hc Hn. repeat split.
  - exists []. rewrite app_nil_r. exact Hw.
  - exists made. exact Hc.
  - lia.
Qed.

Lemma handleFrame_extends (payload : list byte) (w w' : World) :
  handleFrame payload w = Normal w' -> Extends w w'.
Proof.
  intros Hh. destruct payload as [ | tag data].
  - inversion Hh; subst. apply (Extends_calls _ _ []); try reflexivity.
    cbn. rewrite app_nil_r. reflexivity.
  - destruct (pending (pipeline w)) as [ | [k r] rest] eqn:Ep.
    + rewrite handleFrame_unsolicited in Hh by (discriminate || assumption).
      inversion Hh; subst. apply (Extends_calls _ _ []); try reflexivity.
      cbn. rewrite app_nil_r. reflexivity.
    + rewrite (handleFrame_oldest _ w k r rest) in Hh
        by (discriminate || assumption).
      cbv zeta in Hh.
      destruct (readResponse (tag :: data)) as [s | e]; [ | discriminate].
      inversion Hh; subst w'.
      apply (Extends_calls _ _ [(promise r, s)]); reflexivity.
Qed.

Lemma rejectAllPending_extends (err : Error) (w : World) :
  Extends w (rejectAllPending err w).
Proof.
  rewrite rejectAllPending_eq.
  apply (Extends_calls _ _ (map (rejection err) (pending (pipeline w))));
    reflexivity.
Qed.

Lemma timeoutCheck_extends (now : Z) (w : World) :
  Extends w (timeoutCheck now w).
Proof.
  rewrite timeoutCheck_sweep. cbv zeta. rewrite sweep_fold.
  eapply Extends_calls; reflexivity.
Qed.

Lemma destroy_extends (w : World) : Extends w (destroy w).
Proof.
  rewrite destroy_eq.
  apply (Extends_calls _ _
           (map (rejection PipelineDestroyed) (pending (pipeline w))));
    reflexivity.
Qed.

Lemma writeCallback_extends (i : nat) (err : option Error) (w : World) :
  Extends w (writeCallback i err w).
Proof.
  unfold writeCallback.
  destruct (nth_error (socketWrites w) i) as [[frame [k p]] | ];
    [ | apply Extends_refl].
  destruct err as [e | ]; [ | apply Extends_refl].
  apply (Extends_calls _ _ [(p, Rejected e)]); reflexivity.
Qed.

Lemma send_extends (frame : list byte) (opcode now : Z) (w : World) :
  Extends w (send frame opcode now w).
Proof.
  destruct (Z.le_gt_cases (maxPending (config (pipeline w)))
              (Z.of_nat (size (pending (pipeline w))))) as [Hfull | Hroom].
  - destruct (send_rejected_fields frame opcode now w Hfull)
      as (_ & Hw & Hcalls & Hn).
    repeat split.
    + exists []. rewrite app_nil_r. exact Hw.
    + eexists. exact Hcalls.
    + lia.
  - destruct (send_accepted_fields frame opcode now w Hroom)
      as (_ & _ & Hw & Hcalls & Hn).
    repeat split.
    + eexists. exact Hw.
    + exists []. rewrite app_nil_r. exact Hcalls.
    + lia.
Qed.

(** A property that the listeners keep is kept by the drain loop. *)
Lemma drain_preserves {S : Type} (P : S -> Prop) (L : Framer.Listeners S)
    (max : Z) (fuel : nat) :
  (forall payload s s', P s -> Framer.onFrame L payload s = Normal s' -> P s') ->
  (forall err s s', P s -> Framer.onError L err s = Normal s' -> P s') ->
  forall (buf buf' : list byte) (s s' : S),
    P s -> Framer.drain L max fuel buf s = (buf', Normal s') -> P s'.
Proof.
  intros Hframe Herror.
  induction fuel as [ | fuel IH]; intros buf buf' s s' Hs Hd.
  - inversion Hd; subst. exact Hs.
  - cbn [Framer.drain] in Hd.
    destruct (4 <=? length buf)%nat; [ | inversion Hd; subst; exact Hs].
    destruct (max <? Bytes.readUInt32LE buf).
    + destruct (Framer.onError L _ s) as [s1 | e s1] eqn:E;
        inversion Hd; subst. eapply Herror; eassumption.
    + destruct (Z.of_nat (length buf) <? 4 + Bytes.readUInt32LE buf);
        [inversion Hd; subst; exact Hs | ].
      destruct (Framer.onFrame L _ s) as [s1 | e s1] eqn:E;
        [ | discriminate Hd].
      eapply IH; [ | exact Hd]. eapply Hframe; eassumption.
Qed.

Lemma socketData_keeps (P : World -> Prop) (chunk : list byte) (w w' : World) :
  (forall payload s s', P s -> handleFrame payload s = Normal s' -> P s') ->
  (forall err s, P s -> P (rejectAllPending err s)) ->
  (forall d s, P s -> P (set_decoder d s)) ->
  P w -> socketData chunk w = Normal w' -> P w'.
Proof.
  intros Hframe Herror Hdec Hw Hd. unfold socketData in Hd.
  destruct (Framer.pushWith _ chunk _ w) as [d r] eqn:Ep.
  cbn [fst snd] in Hd. destruct r as [w1 | e w1]; [ | discriminate].
  inversion Hd; subst w'. apply Hdec.
  unfold Framer.pushWith in Ep. inversion Ep as [[Hbuf Hr]].
  match type of Hr with
  | snd ?x = _ => destruct x as [buf' r] eqn:Edrain
  end.
  cbn [snd] in Hr. subst r.
  eapply (drain_preserves P); [ | | exact Hw | exact Edrain].
  - unfold decoderListeners. destruct (listening w);
      cbn [Framer.onFrame]; intros payload s s' Hs Hf.
    + eapply Hframe; eassumption.
    + inversion Hf; subst. exact Hs.
  - unfold decoderListeners. destruct (listening w);
      cbn [Framer.onError]; intros err s s' Hs Hf.
    + inversion Hf; subst. apply Herror, Hs.
    + discriminate.
Qed.

Lemma socketData_coherent (chunk : list byte) (w w' : World) :
  Coherent w -> socketData chunk w = Normal w' -> Coherent w'.
Proof.
  apply socketData_keeps.
  - intros payload s s'. apply handleFrame_coherent.
  - intros err s. apply rejectAllPending_coherent.
  - intros d s Hs. apply (coherent_same s); auto.
Qed.

Lemma socketData_extends (chunk : list byte) (w w' : World) :
  socketData chunk w = Normal w' -> Extends w w'.
Proof.
  apply (socketData_keeps (Extends w)).
  - intros payload s s' Hs Hf.
    eapply Extends_trans; [exact Hs | eapply handleFrame_extends, Hf].
  - intros err s Hs.
    eapply Extends_trans; [exact Hs | apply rejectAllPending_extends].
  - intros d s Hs.
    eapply Extends_trans; [exact Hs | ].
    apply (Extends_calls _ _ []); try reflexivity.
    cbn. rewrite app_nil_r. reflexivity.
  - apply Extends_refl.
Qed.

Lemma step_extends (ev : Event) (w w' : World) :
  step ev w = Normal w' -> Extends w w'.
Proof.
  destruct ev as [frame opcode now | i err | chunk | err | | now | ];
    cbn [step]; intros H; try (inversion H; subst w'; clear H).
  - apply send_extends.
  - apply writeCallback_extends.
  - apply socketData_extends in H. exact H.
  - apply rejectAllPending_extends.
  - apply rejectAllPending_extends.
  - destruct (timeoutChecker (pipeline w));
      [apply timeoutCheck_extends | apply Extends_refl].
  - apply destroy_extends.
Qed.

Lemma run_extends (evs : list Event) :
  forall w w', run evs w = Normal w' -> Extends w w'.
Proof.
  induction evs as [ | ev evs IH]; intros w w' H; cbn [run] in H.
  - inversion H; subst. apply Extends_refl.
  - destruct (step ev w) as [w1 | e w1] eqn:Es; [ | discriminate].
    eapply Extends_trans; [eapply step_extends, Es | apply IH, H].
Qed.

Lemma Extends_writes_le (w w' : World) :
  Extends w w' ->
  Z.of_nat (length (socketWrites w)) <= Z.of_nat (length (socketWrites w')).
Proof. intros ([m H] & _). rewrite H, length_app. lia. Qed.

Lemma step_coherent (ev : Event) (w w' : World) :
  Coherent w -> step ev w = Normal w' ->
  Z.of_nat (length (socketWrites w')) <= 2 ^ 32 -> Coherent w'.
Proof.
  intros Hc Hs Hb.
  destruct ev as [frame opcode now | i err | chunk | err | | now | ];
    cbn [step] in Hs; try (inversion Hs; subst w'; clear Hs).
  - apply send_coherent; assumption.
  - apply writeCallback_coherent, Hc.
  - eapply socketData_coherent; eassumption.
  - apply rejectAllPending_coherent, Hc.
  - apply rejectAllPending_coherent, Hc.
  - destruct (timeoutChecker (pipeline w));
      [apply timeoutCheck_coherent, Hc | exact Hc].
  - apply destroy_coherent, Hc.
Qed.

(** Every state that a run without uncaught exception reaches with at
    most 2^32 requests written is coherent. *)
Lemma run_coherent (evs : list Event) :
  forall w w',
    Coherent w -> run evs w = Normal w' ->
    Z.of_nat (length (socketWrites w')) <= 2 ^ 32 -> Coherent w'.
Proof.
  induction evs as [ | ev evs IH]; intros w w' Hc H Hb; cbn [run] in H.
  - inversion H; subst. exact Hc.
  - destruct (step ev w) as [w1 | e w1] eqn:Es; [ | discriminate].
    apply (IH w1 w'); [ | exact H | exact Hb].
    eapply step_coherent; [exact Hc | exact Es | ].
    pose proof (Extends_writes_le _ _ (run_extends evs w1 w' H)). lia.
Qed.

End RunFacts.

(** ** First in, first out *)

Section FifoFacts.
Import Js Pipeline.

(** Frames that each answer a request are matched with the pending
    entries oldest first; frames in excess are dropped. *)
Lemma handleFrames_fifo (frames : list (list byte))
    (settlements : list Settlement) :
  Forall2 answers frames settlements ->
  forall w : World,
    NoDup (map fst (pending (pipeline w))) ->
    exists w',
      handleFrames frames w = Normal w'
      /\ calls w'
         = calls w ++ map answer (combine (pending (pipeline w)) settlements)
      /\ pending (pipeline w')
         = skipn (length frames) (pending (pipeline w))
      /\ socketWrites w' = socketWrites w
      /\ promises w' = promises w.
Proof.
  induction 1 as [ | f s frames settlements [Hne Hread] _ IH]; intros w Hnd.
  - exists w. cbn [handleFrames combine map length skipn].
    rewrite combine_nil, app_nil_r. auto.
  - cbn [handleFrames length].
    destruct (pending (pipeline w)) as [ | [k r] rest] eqn:Ep.
    + rewrite handleFrame_unsolicited by assumption.
      destruct (IH (console_warn Warn.noPendingRequest w)) as (w' & Hw').
      { cbn. rewrite Ep. constructor. }
      exists w'. cbn [pipeline console_warn calls socketWrites promises]
        in Hw'. rewrite Ep in Hw'.
      cbn [combine map skipn] in *. rewrite skipn_nil in Hw'. exact Hw'.
    + rewrite (handleFrame_oldest f w k r rest) by assumption.
      cbv zeta. rewrite Hread, Ep.
      rewrite delete_first by exact Hnd.
      destruct (IH (call (promise r) s (set_pending rest w))) as (w' & Hw').
      { cbn. cbn [map fst] in Hnd. inversion Hnd; assumption. }
      exists w'.
      cbn [pipeline call set_pending with_pipeline pending calls
           socketWrites promises] in Hw'.
      destruct Hw' as (Hrun & Hcalls & Hp & Hw & Hn).
      repeat split; try assumption.
      rewrite Hcalls. cbn [combine map answer fst snd].
      rewrite <- app_assoc. reflexivity.
Qed.

(** Requests sent in a coherent state with room for them: each gets the
    next promise and its entry goes to the end of the pending map. *)
Lemma sendAll_pending (reqs : list (list byte * Z * Z)) :
  forall w : World,
    Coherent w ->
    Z.of_nat (size (pending (pipeline w)) + length reqs)
    <= maxPending (config (pipeline w)) ->
    Z.of_nat (length (socketWrites w) + length reqs) <= 2 ^ 32 ->
    let w' := sendAll reqs w in
    Coherent w'
    /\ pendingPromises w'
       = pendingPromises w ++ seq (promises w) (length reqs)
    /\ calls w' = calls w
    /\ map fst (socketWrites w')
       = map fst (socketWrites w) ++ map (fun r => fst (fst r)) reqs.
Proof.
  induction reqs as [ | [[frame opcode] now] reqs IH];
    intros w Hc Hroom Hb; cbv zeta.
  - cbn [sendAll length seq map]. rewrite !app_nil_r. auto.
  - cbn [sendAll length] in *.
    assert (Hroom1 : Z.of_nat (size (pending (pipeline w)))
                     < maxPending (config (pipeline w))) by lia.
    destruct (send_accepted_fields frame opcode now w Hroom1)
      as (_ & _ & Hw & Hcalls & Hn).
    pose proof (send_accepted_pending frame opcode now w Hc Hroom1
                  ltac:(lia)) as Hp.
    assert (Hc1 : Coherent (send frame opcode now w)).
    { apply send_coherent; [exact Hc | ].
      rewrite Hw, length_app. cbn [length]. lia. }
    assert (Hcfg : config (pipeline (send frame opcode now w))
                   = config (pipeline w)).
    { rewrite send_accepted by exact Hroom1. reflexivity. }
    destruct (IH (send frame opcode now w) Hc1) as (Hc' & Hpp & Hcs & Hws).
    { rewrite Hcfg, Hp. unfold size in *. rewrite length_app.
      cbn [length]. lia. }
    { rewrite Hw, length_app. cbn [length]. lia. }
    split; [exact Hc' | split; [ | split]].
    + rewrite Hpp. unfold pendingPromises at 1. rewrite Hp, map_app, Hn.
      cbn [map snd promise seq]. rewrite <- app_assoc. reflexivity.
    + rewrite Hcs. exact Hcalls.
    + rewrite Hws, Hw, map_app. cbn [map fst]. rewrite <- app_assoc.
      reflexivity.
Qed.

End FifoFacts.

(** ** Calls made once *)

Section OnceFacts.
Import Js Pipeline.

(** Calls on entries chosen from the pending map are first calls. *)
Lemma selection_once (w w' : World)
    (sel : Z * PendingRequest -> bool) (made : list (nat * Settlement)) :
  Coherent w -> NoDup (map fst (calls w)) ->
  calls w' = calls w ++ made ->
  map fst made
  = map (fun e => promise (snd e)) (filter sel (pending (pipeline w))) ->
  NoDup (map fst (calls w')).
Proof.
  intros Hc Hnd Hcalls Hmade.
  rewrite Hcalls, map_app. apply NoDup_app; [exact Hnd | | ].
  - rewrite Hmade. apply NoDup_map_filter, (coh_promises w Hc).
  - intros p Hold Hnew. rewrite Hmade in Hnew.
    apply in_map_iff in Hnew as (e & He & Hin).
    apply filter_In in Hin as [Hin _].
    assert (Hp : In p (pendingPromises w)).
    { unfold pendingPromises. apply in_map_iff. exists e. tauto. }
    pose proof (coh_pending w Hc p Hp) as H0.
    pose proof (invocations_some _ _ Hold). lia.
Qed.

Lemma handleFrame_once (payload : list byte) (w w' : World) :
  Coherent w -> NoDup (map fst (calls w)) ->
  handleFrame payload w = Normal w' -> NoDup (map fst (calls w')).
Proof.
  intros Hc Hnd Hh.
  destruct payload as [ | tag data].
  - inversion Hh; subst. exact Hnd.
  - destruct (pending (pipeline w)) as [ | [k r] rest] eqn:Ep.
    + rewrite handleFrame_unsolicited in Hh by (discriminate || assumption).
      inversion Hh; subst. exact Hnd.
    + rewrite (handleFrame_oldest _ w k r rest) in Hh
        by (discriminate || assumption).
      cbv zeta in Hh.
      destruct (readResponse (tag :: data)) as [s | e]; [ | discriminate].
      inversion Hh; subst w'.
      apply (selection_once w _ (fun e => negb (negb (fst e =? k)))
               [(promise r, s)]); try assumption; try reflexivity.
      rewrite (filter_key _ k r).
      * reflexivity.
      * apply (coh_keys w Hc).
      * rewrite Ep. left. reflexivity.
Qed.

Lemma rejectAllPending_once (err : Error) (w : World) :
  Coherent w -> NoDup (map fst (calls w)) ->
  NoDup (map fst (calls (rejectAllPending err w))).
Proof.
  intros Hc Hnd. rewrite rejectAllPending_eq.
  apply (selection_once w _ (fun _ => true)
           (map (rejection err) (pending (pipeline w))));
    try assumption; try reflexivity.
  rewrite filter_all, map_map. reflexivity.
Qed.

Lemma destroy_once (w : World) :
  Coherent w -> NoDup (map fst (calls w)) ->
  NoDup (map fst (calls (destroy w))).
Proof.
  intros Hc Hnd. rewrite destroy_eq.
  apply (selection_once w _ (fun _ => true)
           (map (rejection PipelineDestroyed) (pending (pipeline w))));
    try assumption; try reflexivity.
  rewrite filter_all, map_map. reflexivity.
Qed.

Lemma timeoutCheck_once (now : Z) (w : World) :
  Coherent w -> NoDup (map fst (calls w)) ->
  NoDup (map fst (calls (timeoutCheck now w))).
Proof.
  intros Hc Hnd. rewrite timeoutCheck_eq by apply (coh_keys w Hc).
  cbv zeta. set (t := timeout (config (pipeline w))).
  apply (selection_once w _ (expired t now)
           (map (rejection (RequestTimeout t))
              (filter (expired t now) (pending (pipeline w)))));
    try assumption; try reflexivity.
  rewrite map_map. reflexivity.
Qed.

Lemma has_In (k : Z) (m : Map PendingRequest) :
  has k m = true -> exists v, In (k, v) m.
Proof.
  unfold has. intros H. apply existsb_exists in H as ([k' v] & Hin & Hk).
  apply Z.eqb_eq in Hk. cbn [fst] in Hk. subst k'. exists v. exact Hin.
Qed.

(** A write error that comes while the entry is pending is the first
    call on its promise. *)
Lemma writeCallback_once (i : nat) (err : option Error) (w : World) :
  Coherent w -> NoDup (map fst (calls w)) ->
  lateWriteError (WriteCallback i err) w = false ->
  NoDup (map fst (calls (writeCallback i err w))).
Proof.
  intros Hc Hnd Hlate. unfold writeCallback. cbn [lateWriteError] in Hlate.
  destruct err as [e | ];
    [ | destruct (nth_error (socketWrites w) i) as [[? [? ?]] | ];
        exact Hnd].
  destruct (nth_error (socketWrites w) i) as [[frame [k p]] | ] eqn:Ei;
    [ | exact Hnd].
  apply negb_false_iff in Hlate. cbn [writeKey snd fst] in Hlate.
  apply has_In in Hlate as [r Hr].
  assert (Hx : In (frame, (k, p)) (socketWrites w))
    by (eapply nth_error_In; exact Ei).
  assert (Hp : promise r = p).
  { pose proof (coh_written w Hc (k, r) Hr) as Hw0.
    apply in_map_iff in Hw0 as (y & Hy & Hin).
    assert (y = (frame, (k, p))).
    { apply (writeKey_inj w); try assumption.
      unfold writeKey. rewrite Hy. reflexivity. }
    subst y. cbn [snd fst] in Hy. inversion Hy. reflexivity. }
  apply (selection_once w _ (fun e => negb (negb (fst e =? k)))
           [(p, Rejected e)]); try assumption; try reflexivity.
  rewrite (filter_key _ k r); [ | apply (coh_keys w Hc) | exact Hr].
  cbn [map fst snd]. rewrite Hp. reflexivity.
Qed.

Lemma send_once (frame : list byte) (opcode now : Z) (w : World) :
  Coherent w -> NoDup (map fst (calls w)) ->
  NoDup (map fst (calls (send frame opcode now w))).
Proof.
  intros Hc Hnd.
  destruct (Z.le_gt_cases (maxPending (config (pipeline w)))
              (Z.of_nat (size (pending (pipeline w))))) as [Hfull | Hroom].
  - destruct (send_rejected_fields frame opcode now w Hfull)
      as (_ & _ & Hcalls & _).
    rewrite Hcalls, map_app. cbn [map fst]. apply NoDup_snoc; [exact Hnd | ].
    intros Hin. pose proof (coh_fresh w Hc _ (or_intror Hin)). lia.
  - destruct (send_accepted_fields frame opcode now w Hroom)
      as (_ & _ & _ & Hcalls & _).
    rewrite Hcalls. exact Hnd.
Qed.

Lemma socketData_once (chunk : list byte) (w w' : World) :
  Coherent w -> NoDup (map fst (calls w)) ->
  socketData chunk w = Normal w' -> NoDup (map fst (calls w')).
Proof.
  intros Hc Hnd Hd.
  apply (socketData_keeps
           (fun s => Coherent s /\ NoDup (map fst (calls s)))
           chunk w w'); try assumption; try tauto.
  - intros payload s s' [Hs Hn] Hf. split.
    + eapply handleFrame_coherent; eassumption.
    + eapply handleFrame_once; eassumption.
  - intros err s [Hs Hn]. split.
    + apply rejectAllPending_coherent, Hs.
    + apply rejectAllPending_once; assumption.
  - intros d s [Hs Hn]. split; [ | exact Hn].
    apply (coherent_same s); auto.
Qed.

Lemma step_once (ev : Event) (w w' : World) :
  Coherent w -> NoDup (map fst (calls w)) ->
  lateWriteError ev w = false ->
  step ev w = Normal w' -> NoDup (map fst (calls w')).
Proof.
  intros Hc Hnd Hlate Hs.
  destruct ev as [frame opcode now | i err | chunk | err | | now | ];
    cbn [step] in Hs; try (inversion Hs; subst w'; clear Hs).
  - apply send_once; assumption.
  - apply writeCallback_once; assumption.
  - eapply socketData_once; eassumption.
  - apply rejectAllPending_once; assumption.
  - apply rejectAllPending_once; assumption.
  - destruct (timeoutChecker (pipeline w));
      [apply timeoutCheck_once; assumption | exact Hnd].
  - apply destroy_once; assumption.
Qed.

(** In a run without late write errors no promise is called twice. *)
Lemma run_once (evs : list Event) :
  forall w w',
    Coherent w -> NoDup (map fst (calls w)) ->
    timely evs w = true -> run evs w = Normal w' ->
    Z.of_nat (length (socketWrites w')) <= 2 ^ 32 ->
    NoDup (map fst (calls w')).
Proof.
  induction evs as [ | ev evs IH]; intros w w' Hc Hnd Ht H Hb;
    cbn [run timely] in *.
  - inversion H; subst. exact Hnd.
  - apply andb_true_iff in Ht as [Hlate Ht].
    apply negb_true_iff in Hlate.
    destruct (step ev w) as [w1 | e w1] eqn:Es; [ | discriminate].
    assert (Hb1 : Z.of_nat (length (socketWrites w1)) <= 2 ^ 32).
    { pose proof (Extends_writes_le _ _ (run_extends evs w1 w' H)). lia. }
    apply (IH w1 w'); try assumption.
    + eapply step_coherent; eassumption.
    + eapply step_once; eassumption.
Qed.

End OnceFacts.

(** ** Responses *)

Section ResponseClaims.
Import String.

(** C5, as the code has it.  With a request pending, a frame whose first
    byte is RESPONSE_ERROR and whose body is ErrorCode:u8 followed by a
    u16-length-prefixed message fails the oldest pending call with a
    MindFryError whose [code] is X and whose message text is the name of X
    in brackets, a blank, and the decoded message: m itself for a
    well-formed UTF-8 text that does not begin with U+FEFF.  A frame with
    any other first byte resolves the oldest pending call with the bytes
    after that byte.  In both cases the entry is deleted from the map. *)
Theorem response_frame_settles_oldest
    (w : Pipeline.World) (seqId : Z) (request : Pipeline.PendingRequest)
    (rest : Js.Map Pipeline.PendingRequest) :
  Pipeline.pending (Pipeline.pipeline w) = (seqId, request) :: rest ->
  let w1 := Pipeline.set_pending
              (Js.delete seqId (Pipeline.pending (Pipeline.pipeline w))) w in
  (forall (X : Z) (m : string),
      0 <= X < 256 ->
      Z.of_nat (List.length (Protocol.TextEncoder_encode m)) < 2 ^ 16 ->
      Protocol.Utf8 (Protocol.TextEncoder_encode m) ->
      (forall tl, Protocol.TextEncoder_encode m <> Protocol.BOM ++ tl) ->
      Pipeline.handleFrame
        (Bytes.of_Z Protocol.RESPONSE_ERROR :: Bytes.of_Z X
           :: Protocol.encodeString m) w
      = Js.Normal
          (Pipeline.reject request
             (Js.MindFryError X
                ("[" ++ match Protocol.ErrorCode_name X with
                        | Some n => n
                        | None => "undefined"
                        end ++ "] " ++ m)%string) w1))
  /\ (forall (tag : Byte.byte) (body : list Byte.byte),
         Bytes.to_Z tag <> Protocol.RESPONSE_ERROR ->
         Pipeline.handleFrame (tag :: body) w
         = Js.Normal (Pipeline.resolve request body w1)).
Proof.
  intros Hp w1. split.
  - intros X m HX Hlen Hwf Hbom.
    rewrite (handleFrame_oldest _ w seqId request rest)
      by (discriminate || assumption).
    cbv zeta. rewrite readResponse_error by assumption.
    rewrite decode_encode by assumption. reflexivity.
  - intros tag body Htag.
    rewrite (handleFrame_oldest _ w seqId request rest)
      by (discriminate || assumption).
    cbv zeta. rewrite readResponse_success by assumption. reflexivity.
Qed.

Lemma response_frame_settles_oldest_witness :
  let w := Pipeline.sendAll [([x01], 0x11, 0)]
             (Pipeline.new Pipeline.noConfig) in
  (exists w',
      Pipeline.handleFrame
        (xf1 :: x10 :: Protocol.encodeString "no such lineage") w
      = Js.Normal w'
      /\ Pipeline.calls w'
         = [(0%nat,
             Pipeline.Rejected
               (Js.MindFryError 16 "[LINEAGE_NOT_FOUND] no such lineage"))])
  /\ (exists w',
         Pipeline.handleFrame [xf0; x02; x07] w = Js.Normal w'
         /\ Pipeline.calls w' = [(0%nat, Pipeline.Resolved [x02; x07])]).
Proof.
  intros w.
  destruct (response_frame_settles_oldest w 1
              {| Pipeline.promise := 0; Pipeline.opcode := 0x11;
                 Pipeline.timestamp := 0 |} [] eq_refl) as [Herr Hok].
  split.
  - eexists. split.
    + apply (Herr 16 "no such lineage"%string).
      * lia.
      * cbn. lia.
      * repeat (apply Protocol.Utf8_1;
                [unfold Protocol.inRange; cbn; lia | ]).
        apply Protocol.Utf8_nil.
      * intros tl H. discriminate H.
    + reflexivity.
  - eexists. split.
    + apply (Hok xf0 [x02; x07]). cbn. discriminate.
    + reflexivity.
Defined.

(** C5 as stated fails: the message of the server is not what the error
    carries.  For the error frame with code LINEAGE_NOT_FOUND and the
    message U+FEFF "m" (bytes ef bb bf 6d) the pending call is failed with
    the text "[LINEAGE_NOT_FOUND] m": the name of the code is put in front
    and the decoder has dropped the leading U+FEFF. *)
Lemma error_message_is_rewritten :
  let w := Pipeline.sendAll [([x01], 0x11, 0)]
             (Pipeline.new Pipeline.noConfig) in
  let m := string_of_list_byte [xef; xbb; xbf; x6d] in
  exists w',
    Pipeline.handleFrame (xf1 :: x10 :: Protocol.encodeString m) w
    = Js.Normal w'
    /\ Pipeline.calls w'
       = [(0%nat,
           Pipeline.Rejected
             (Js.MindFryError 16 "[LINEAGE_NOT_FOUND] m"))]
    /\ "[LINEAGE_NOT_FOUND] m"%string <> m
    /\ Protocol.TextDecoder_decode (Protocol.TextEncoder_encode m) <> m.
Proof.
  cbv zeta. eexists. split; [reflexivity | ].
  split; [reflexivity | ]. split; discriminate.
Qed.

End ResponseClaims.

(** ** Order of settlement *)

Section OrderClaims.
Import String.

Lemma answer_combine (l : list (Z * Pipeline.PendingRequest))
    (ss : list Pipeline.Settlement) :
  map Pipeline.answer (combine l ss)
  = combine (map (fun e => Pipeline.promise (snd e)) l) ss.
Proof.
  revert ss. induction l as [ | e l IH]; intros [ | s ss]; try reflexivity.
  cbn [combine map]. rewrite IH. reflexivity.
Qed.

(** C1, as the code has it.  In any state the pipeline has reached, let
    requests R1..Rn be sent while there is room for them, and let frames
    then be handed to handleFrame that are not empty and, when tagged as
    errors, carry a readable body.  Then the frames settle the pending
    requests strictly in the order of creation: the i-th frame makes the
    one call on the i-th oldest request still pending (those pending
    before, then R1, R2, ...), with the settlement read from that frame, and
    the requests beyond the last frame stay pending in their order. *)
Theorem fifo_resolution
    (c : Pipeline.PartialConfig) (evs : list Pipeline.Event)
    (w0 : Pipeline.World) (reqs : list (list Byte.byte * Z * Z))
    (frames : list (list Byte.byte))
    (settlements : list Pipeline.Settlement) :
  Pipeline.run evs (Pipeline.new c) = Js.Normal w0 ->
  Z.of_nat (Js.size (Pipeline.pending (Pipeline.pipeline w0))
            + List.length reqs)
  <= Pipeline.maxPending (Pipeline.config (Pipeline.pipeline w0)) ->
  Z.of_nat (List.length (Pipeline.socketWrites w0) + List.length reqs)
  <= 2 ^ 32 ->
  Forall2 Pipeline.answers frames settlements ->
  let queue := Pipeline.pendingPromises w0
               ++ seq (Pipeline.promises w0) (List.length reqs) in
  exists w',
    Pipeline.handleFrames frames (Pipeline.sendAll reqs w0) = Js.Normal w'
    /\ Pipeline.calls w' = Pipeline.calls w0 ++ combine queue settlements
    /\ Pipeline.pendingPromises w' = skipn (List.length frames) queue.
Proof.
  intros Hrun Hroom Hb Hans queue.
  assert (Hc0 : Pipeline.Coherent w0).
  { apply (run_coherent evs (Pipeline.new c) w0);
      [apply new_coherent | exact Hrun | lia]. }
  destruct (sendAll_pending reqs w0 Hc0 Hroom Hb) as (Hc & Hpp & Hcalls & _).
  destruct (handleFrames_fifo frames settlements Hans
              (Pipeline.sendAll reqs w0) (Pipeline.coh_keys _ Hc))
    as (w' & Hh & Hcs & Hp & _).
  exists w'. split; [exact Hh | split].
  - rewrite Hcs, Hcalls, answer_combine.
    change (map (fun e => Pipeline.promise (snd e))
              (Pipeline.pending (Pipeline.pipeline (Pipeline.sendAll reqs w0))))
      with (Pipeline.pendingPromises (Pipeline.sendAll reqs w0)).
    rewrite Hpp. reflexivity.
  - unfold Pipeline.pendingPromises at 1. rewrite Hp, <- skipn_map.
    change (map (fun e => Pipeline.promise (snd e))
              (Pipeline.pending (Pipeline.pipeline (Pipeline.sendAll reqs w0))))
      with (Pipeline.pendingPromises (Pipeline.sendAll reqs w0)).
    rewrite Hpp. reflexivity.
Qed.

Lemma fifo_resolution_witness :
  let reqs := [([x01], 0x11, 0); ([x02], 0x11, 1); ([x03], 0x40, 2)] in
  let frames := [[xf0; x0a]; xf1 :: x10 :: Protocol.encodeString "gone";
                 [xf0]] in
  exists w',
    Pipeline.handleFrames frames
      (Pipeline.sendAll reqs (Pipeline.new Pipeline.noConfig))
    = Js.Normal w'
    /\ Pipeline.calls w'
       = [(0%nat, Pipeline.Resolved [x0a]);
          (1%nat,
           Pipeline.Rejected (Js.MindFryError 16 "[LINEAGE_NOT_FOUND] gone"));
          (2%nat, Pipeline.Resolved [])]
    /\ Pipeline.pendingPromises w' = [].
Proof.
  cbv zeta.
  apply (fifo_resolution Pipeline.noConfig [] (Pipeline.new Pipeline.noConfig)
           [([x01], 0x11, 0); ([x02], 0x11, 1); ([x03], 0x40, 2)]
           [[xf0; x0a]; xf1 :: x10 :: Protocol.encodeString "gone"; [xf0]]
           [Pipeline.Resolved [x0a];
            Pipeline.Rejected (Js.MindFryError 16 "[LINEAGE_NOT_FOUND] gone");
            Pipeline.Resolved []]).
  - reflexivity.
  - cbn. lia.
  - cbn. lia.
  - repeat constructor; discriminate.
Defined.

(** C1 as stated fails on a frame of length zero: with R1 and R2 pending,
    the frames [] and [f0 07] leave R2 pending; the first frame settles
    nothing and it is the second frame that settles R1. *)
Lemma empty_frame_shifts_the_matching :
  let reqs := [([x01], 0x11, 0); ([x02], 0x11, 1)] in
  let w := Pipeline.sendAll reqs (Pipeline.new Pipeline.noConfig) in
  let r1 := Pipeline.handleFrames [[]] w in
  let r2 := Pipeline.handleFrames [[]; [xf0; x07]] w in
  Js.returned r1 = true
  /\ Pipeline.calls (Js.state r1) = []
  /\ Pipeline.pendingPromises (Js.state r1) = [0%nat; 1%nat]
  /\ Js.returned r2 = true
  /\ Pipeline.calls (Js.state r2) = [(0%nat, Pipeline.Resolved [x07])]
  /\ Pipeline.pendingPromises (Js.state r2) = [1%nat].
Proof. cbv zeta. repeat split; vm_compute; reflexivity. Qed.

End OrderClaims.

(** ** Settlement *)

Section SettlementClaims.
Import String.

(** C3, as the code has it.  Take any run of the pipeline from its
    construction in which no handler throws and at most 2^32 requests are
    written, and any request [p] that [send] has written.  Then
    - [p] has an entry in the pending map exactly as long as its promise is
      unsettled: no entry is both removed and unsettled, none both pending
      and settled;
    - [p] has at most one entry in the map;
    - once its entry is removed, by whichever mechanism (frame, write
      failure, timeout sweep, decoder error, transport error or close,
      destroy), it is never in the map again and its settlement, which is
      the first call made on it, never changes, whatever happens next;
    - exactly one call is made on it as long as no write callback reports
      an error for a request whose entry has already been removed; such a
      late callback calls reject once more, which the promise ignores. *)
Theorem settled_exactly_once
    (c : Pipeline.PartialConfig) (evs1 evs2 : list Pipeline.Event)
    (w1 w2 : Pipeline.World) :
  Pipeline.run evs1 (Pipeline.new c) = Js.Normal w1 ->
  Pipeline.run evs2 w1 = Js.Normal w2 ->
  Z.of_nat (List.length (Pipeline.socketWrites w2)) <= 2 ^ 32 ->
  forall p : nat,
    In p (Pipeline.writtenPromises w1) ->
    (In p (Pipeline.pendingPromises w1)
     <-> Pipeline.promiseState (Pipeline.calls w1) p = None)
    /\ (count_occ Nat.eq_dec (Pipeline.pendingPromises w1) p <= 1)%nat
    /\ (~ In p (Pipeline.pendingPromises w1) ->
        ~ In p (Pipeline.pendingPromises w2)
        /\ Pipeline.promiseState (Pipeline.calls w2) p
           = Pipeline.promiseState (Pipeline.calls w1) p)
    /\ (Pipeline.timely evs1 (Pipeline.new c) = true ->
        (Pipeline.invocations (Pipeline.calls w1) p <= 1)%nat).
Proof.
  intros Hrun1 Hrun2 Hb p Hp.
  pose proof (run_extends evs2 w1 w2 Hrun2) as Hext.
  pose proof (Extends_writes_le _ _ Hext) as Hle.
  assert (Hb1 : Z.of_nat (List.length (Pipeline.socketWrites w1)) <= 2 ^ 32)
    by lia.
  assert (Hc1 : Pipeline.Coherent w1).
  { apply (run_coherent evs1 (Pipeline.new c) w1);
      [apply new_coherent | exact Hrun1 | exact Hb1]. }
  assert (Hc2 : Pipeline.Coherent w2)
    by (apply (run_coherent evs2 w1 w2); assumption).
  split; [ | split; [ | split]].
  - split.
    + intros Hin. apply promiseState_unsettled.
      apply (Pipeline.coh_pending w1 Hc1), Hin.
    + intros Hnone. apply promiseState_unsettled in Hnone.
      destruct (in_dec Nat.eq_dec p (Pipeline.pendingPromises w1))
        as [Hin | Hout]; [exact Hin | ].
      pose proof (Pipeline.coh_settled w1 Hc1 p Hp Hout). lia.
  - apply NoDup_count_occ, (Pipeline.coh_promises w1 Hc1).
  - intros Hout.
    pose proof (Pipeline.coh_settled w1 Hc1 p Hp Hout) as Hset.
    destruct Hext as (_ & [more Hcalls] & _).
    split.
    + intros Hin. pose proof (Pipeline.coh_pending w2 Hc2 p Hin) as H0.
      rewrite Hcalls, invocations_app in H0. lia.
    + rewrite Hcalls. apply promiseState_app, Hset.
  - intros Ht. apply invocations_NoDup.
    apply (run_once evs1 (Pipeline.new c) w1); try assumption.
    + apply new_coherent.
    + constructor.
Qed.

Lemma settled_exactly_once_witness :
  let evs1 := [Pipeline.Send [x01] 0x11 0; Pipeline.Send [x02] 0x11 5;
               Pipeline.SocketData [x02; x00; x00; x00; xf0; x07];
               Pipeline.Timer 40000] in
  let evs2 := [Pipeline.WriteCallback 0 (Some (Js.SocketFailure "EPIPE"));
               Pipeline.SocketClose; Pipeline.Destroy] in
  let w1 := Js.state (Pipeline.run evs1 (Pipeline.new Pipeline.noConfig)) in
  let w2 := Js.state (Pipeline.run evs2 w1) in
  (In 0%nat (Pipeline.pendingPromises w1)
   <-> Pipeline.promiseState (Pipeline.calls w1) 0%nat = None)
  /\ (count_occ Nat.eq_dec (Pipeline.pendingPromises w1) 0%nat <= 1)%nat
  /\ (~ In 0%nat (Pipeline.pendingPromises w1) ->
      ~ In 0%nat (Pipeline.pendingPromises w2)
      /\ Pipeline.promiseState (Pipeline.calls w2) 0%nat
         = Pipeline.promiseState (Pipeline.calls w1) 0%nat)
  /\ (Pipeline.timely evs1 (Pipeline.new Pipeline.noConfig) = true ->
      (Pipeline.invocations (Pipeline.calls w1) 0%nat <= 1)%nat).
Proof.
  intros evs1 evs2 w1 w2.
  apply (settled_exactly_once Pipeline.noConfig evs1 evs2 w1 w2).
  - vm_compute. reflexivity.
  - vm_compute. reflexivity.
  - vm_compute. discriminate.
  - vm_compute. tauto.
Defined.

(** C3 as stated fails in the race it names: the request is written, a
    frame settles its entry, and then the write callback reports an error.
    The callback calls reject although resolve has been called: two calls
    were made on the continuations of the one entry.  The promise keeps its
    first settlement. *)
Lemma late_write_error_calls_reject_again :
  let evs := [Pipeline.Send [x01] 0x11 0;
              Pipeline.SocketData [x02; x00; x00; x00; xf0; x07];
              Pipeline.WriteCallback 0 (Some (Js.SocketFailure "EPIPE"))] in
  let r := Pipeline.run evs (Pipeline.new Pipeline.noConfig) in
  Js.returned r = true
  /\ Pipeline.calls (Js.state r)
     = [(0%nat, Pipeline.Resolved [x07]);
        (0%nat, Pipeline.Rejected (Js.SocketFailure "EPIPE"))]
  /\ Pipeline.invocations (Pipeline.calls (Js.state r)) 0%nat = 2%nat
  /\ Pipeline.promiseState (Pipeline.calls (Js.state r)) 0%nat
     = Some (Pipeline.Resolved [x07]).
Proof. cbv zeta. repeat split; vm_compute; reflexivity. Qed.

(** The path that the theorem leaves out.  An error frame without a body
    (payload f1 alone): handleFrame deletes the oldest entry and then throws
    from readU8, so that the request is neither pending nor settled. *)
Lemma error_frame_without_body_throws :
  let w := Pipeline.sendAll [([x01], 0x11, 0)]
             (Pipeline.new Pipeline.noConfig) in
  let r := Pipeline.handleFrame [xf1] w in
  Js.returned r = false
  /\ Pipeline.pendingPromises w = [0%nat]
  /\ Pipeline.pendingPromises (Js.state r) = []
  /\ Pipeline.calls (Js.state r) = [].
Proof. cbv zeta. repeat split; vm_compute; reflexivity. Qed.

End SettlementClaims.

(** ** Frames of length zero *)

(** C9, as the code has it.  Given a payload of length zero, handleFrame
    logs a warning and returns: the pipeline (pending map included) is
    unchanged and no continuation is called, whatever is pending.  So a
    legal L = 0 frame arriving on the socket settles no request.  The
    oldest pending entry stays the oldest: the next frame that is not empty
    (and, when error-tagged, carries a readable error body) settles it,
    unless a write failure, the timeout sweep, a broad failure or destroy
    comes first. *)
Theorem empty_frame_settles_nothing (w : Pipeline.World) :
  (exists w',
      Pipeline.handleFrame [] w = Js.Normal w'
      /\ Pipeline.pipeline w' = Pipeline.pipeline w
      /\ Pipeline.calls w' = Pipeline.calls w
      /\ Pipeline.warnings w'
         = Pipeline.warnings w ++ [Pipeline.Warn.emptyFrame])
  /\ (Pipeline.listening w = true ->
      Framer.buffer (Pipeline.decoder (Pipeline.pipeline w)) = [] ->
      0 <= Framer.maxFrameSize (Pipeline.decoder (Pipeline.pipeline w)) ->
      exists w',
        Pipeline.run [Pipeline.SocketData (Framer.frameBytes [])] w
        = Js.Normal w'
        /\ Pipeline.pipeline w' = Pipeline.pipeline w
        /\ Pipeline.calls w' = Pipeline.calls w)
  /\ (forall (seqId : Z) (request : Pipeline.PendingRequest)
             (rest : Js.Map Pipeline.PendingRequest)
             (payload : list Byte.byte) (s : Pipeline.Settlement),
         Pipeline.pending (Pipeline.pipeline w) = (seqId, request) :: rest ->
         Pipeline.answers payload s ->
         exists w',
           Pipeline.handleFrames [[]; payload] w = Js.Normal w'
           /\ Pipeline.calls w'
              = Pipeline.calls w ++ [(Pipeline.promise request, s)]).
Proof.
  split; [ | split].
  - exists (Pipeline.console_warn Pipeline.Warn.emptyFrame w).
    repeat split.
  - intros Hl Hb Hm.
    exists (Pipeline.console_warn Pipeline.Warn.emptyFrame w).
    cbn [Pipeline.run Pipeline.step].
    change (Framer.frameBytes []) with [x00; x00; x00; x00].
    rewrite socketData_empty_frame by assumption.
    repeat split.
  - intros seqId request rest payload s Hp [Hne Hread].
    cbn [Pipeline.handleFrames].
    change (Pipeline.handleFrame [] w)
      with (Js.Normal (Pipeline.console_warn Pipeline.Warn.emptyFrame w)).
    cbv beta iota.
    rewrite (handleFrame_oldest payload _ seqId request rest)
      by (assumption || exact Hp).
    cbv zeta. rewrite Hread. eexists. split; reflexivity.
Qed.

Lemma empty_frame_settles_nothing_witness :
  let w := Pipeline.sendAll [([x01], 0x40, 0)]
             (Pipeline.new Pipeline.noConfig) in
  (exists w',
      Pipeline.run [Pipeline.SocketData (Framer.frameBytes [])] w
      = Js.Normal w'
      /\ Pipeline.pipeline w' = Pipeline.pipeline w
      /\ Pipeline.calls w' = Pipeline.calls w)
  /\ (exists w',
         Pipeline.handleFrames [[]; [xf0; x07]] w = Js.Normal w'
         /\ Pipeline.calls w'
            = Pipeline.calls w ++ [(0%nat, Pipeline.Resolved [x07])]).
Proof.
  intros w.
  destruct (empty_frame_settles_nothing w) as (_ & Hsocket & Hnext).
  split.
  - apply Hsocket.
    + reflexivity.
    + reflexivity.
    + cbn. lia.
  - apply (Hnext 1 {| Pipeline.promise := 0; Pipeline.opcode := 0x40;
                      Pipeline.timestamp := 0 |} [] [xf0; x07]
                 (Pipeline.Resolved [x07])).
    + reflexivity.
    + split; [discriminate | reflexivity].
Defined.

(** C9 as stated fails in its last part: after a frame of length zero the
    oldest pending request does not have to wait for the timeout, a broad
    failure or destroy.  The next frame from the socket resolves it, with
    the timer idle and the pipeline neither failed nor destroyed. *)
Lemma frame_after_empty_frame_settles_oldest :
  let w := Pipeline.sendAll [([x01], 0x40, 0)]
             (Pipeline.new Pipeline.noConfig) in
  let r := Pipeline.run
             [Pipeline.SocketData (Framer.frameBytes []);
              Pipeline.SocketData (Framer.frameBytes [xf0; x07])] w in
  Js.returned r = true
  /\ Pipeline.pendingPromises w = [0%nat]
  /\ Pipeline.calls (Js.state r) = [(0%nat, Pipeline.Resolved [x07])]
  /\ Pipeline.pendingPromises (Js.state r) = [].
Proof. cbv zeta. repeat split; vm_compute; reflexivity. Qed.

(** ** From the socket to handleFrame *)

Section SocketFacts.
Import Js Pipeline.

(** Complete frames at the head of the buffer are handed to the frame
    listener of the pipeline in order. *)
Lemma drain_handleFrames (max : Z) (payloads : list (list byte)) :
  forall (fuel : nat) (rest : list byte) (w w' : World),
    listening w = true ->
    Forall (Framer.wellFormed max) payloads ->
    (length (concat (map Framer.frameBytes payloads) ++ rest) <= fuel)%nat ->
    handleFrames payloads w = Normal w' ->
    Framer.drain (decoderListeners w) max fuel
      (concat (map Framer.frameBytes payloads) ++ rest) w
    = Framer.drain (decoderListeners w) max (length rest) rest w'.
Proof.
  induction payloads as [ | p ps IH]; intros fuel rest w w' Hl Hwf Hfuel Hh.
  - cbn [handleFrames] in Hh. inversion Hh; subst w'.
    cbn [map concat app] in *. apply drain_fuel; lia.
  - inversion Hwf as [ | ? ? [Hmax H32] Hwf']; subst.
    cbn [handleFrames] in Hh.
    destruct (handleFrame p w) as [w1 | e w1] eqn:E1; [ | discriminate].
    rewrite concat_frames_cons, <- app_assoc in *.
    rewrite drain_frame by assumption.
    assert (Hon : Framer.onFrame (decoderListeners w) p w = Normal w1).
    { unfold decoderListeners. rewrite Hl. exact E1. }
    rewrite Hon.
    assert (Hl1 : listening w1 = listening w).
    { clear - E1. unfold handleFrame in E1.
      destruct (length p <? 1)%nat; [inversion E1; reflexivity | ].
      destruct (first (pending (pipeline w))) as [[k r] | ];
        [ | inversion E1; reflexivity].
      cbv zeta in E1.
      destruct (_ =? Protocol.RESPONSE_ERROR);
        [ | inversion E1; reflexivity].
      destruct (Protocol.readU8 _) as [[c rd] | ]; [ | discriminate].
      destruct (Protocol.readString rd) as [[m rd'] | ]; [ | discriminate].
      inversion E1; reflexivity. }
    assert (HL : decoderListeners w = decoderListeners w1)
      by (unfold decoderListeners; rewrite Hl1; reflexivity).
    rewrite HL. apply IH; try assumption; [congruence | lia].
Qed.

(** One chunk that carries complete frames, arriving while the buffer of
    the decoder is empty, has the effect of handleFrame on each payload in
    turn. *)
Lemma socketData_handleFrames (payloads : list (list byte)) (w w' : World) :
  listening w = true ->
  Framer.buffer (decoder (pipeline w)) = [] ->
  Forall (Framer.wellFormed (Framer.maxFrameSize (decoder (pipeline w))))
    payloads ->
  handleFrames payloads w = Normal w' ->
  socketData (concat (map Framer.frameBytes payloads)) w
  = Normal (set_decoder (decoder (pipeline w)) w').
Proof.
  intros Hl Hb Hwf Hh. unfold socketData, Framer.pushWith.
  rewrite Hb. cbn [app].
  pose proof (drain_handleFrames _ payloads
                (length (concat (map Framer.frameBytes payloads) ++ []))
                [] w w' Hl Hwf (Nat.le_refl _) Hh) as Hd.
  rewrite app_nil_r in Hd. rewrite Hd.
  cbn [length Framer.drain fst snd].
  destruct (decoder (pipeline w)) as [buf max]. cbn in Hb. subst buf.
  reflexivity.
Qed.

End SocketFacts.

(** ** Sequence numbers in a run *)

(** The counter is ToInt32 of the number of requests written so far: it
    counts up to 2^31 - 1 and goes on from -2^31. *)
Lemma sequenceId_counts_writes
    (c : Pipeline.PartialConfig) (evs : list Pipeline.Event)
    (w : Pipeline.World) :
  Pipeline.run evs (Pipeline.new c) = Js.Normal w ->
  Z.of_nat (length (Pipeline.socketWrites w)) <= 2 ^ 32 ->
  Pipeline.sequenceId (Pipeline.pipeline w)
  = Js.ToInt32 (Z.of_nat (length (Pipeline.socketWrites w))).
Proof.
  intros Hrun Hb. apply Pipeline.coh_sequenceId.
  apply (run_coherent evs (Pipeline.new c) w);
    [apply new_coherent | exact Hrun | exact Hb].
Qed.

(* ================================================================= *)
(** * The decoder on a byte stream *)

Section HeaderFacts.
Import Bytes.

Lemma of_Z_to_Z (b : byte) : of_Z (to_Z b) = b.
Proof. destruct b; reflexivity. Qed.

Lemma of_Z_mod (z : Z) : of_Z (z mod 256) = of_Z z.
Proof. unfold of_Z. rewrite Z.mod_mod by lia. reflexivity. Qed.

Lemma readUInt32LE_range (buf : list byte) : 0 <= readUInt32LE buf < 2 ^ 32.
Proof.
  unfold readUInt32LE.
  destruct buf as [ | b0 [ | b1 [ | b2 [ | b3 rest]]]]; try lia.
  pose proof (to_Z_range b0). pose proof (to_Z_range b1).
  pose proof (to_Z_range b2). pose proof (to_Z_range b3). lia.
Qed.

Lemma readUInt16LE_range (buf : list byte) : 0 <= readUInt16LE buf < 2 ^ 16.
Proof.
  unfold readUInt16LE.
  destruct buf as [ | b0 [ | b1 rest]]; try lia.
  pose proof (to_Z_range b0). pose proof (to_Z_range b1). lia.
Qed.

(** Writing the number read from four bytes gives the four bytes. *)
Lemma write_readUInt32LE (b0 b1 b2 b3 : byte) (rest : list byte) :
  writeUInt32LE (readUInt32LE (b0 :: b1 :: b2 :: b3 :: rest))
  = [b0; b1; b2; b3].
Proof.
  unfold writeUInt32LE, readUInt32LE.
  pose proof (to_Z_range b0) as H0. pose proof (to_Z_range b1) as H1.
  pose proof (to_Z_range b2) as H2. pose proof (to_Z_range b3) as H3.
  set (n := to_Z b0 + to_Z b1 * 2 ^ 8 + to_Z b2 * 2 ^ 16 + to_Z b3 * 2 ^ 24).
  assert (E0 : n mod 256 = to_Z b0).
  { symmetry.
    apply (Z.mod_unique_pos n 256
             (to_Z b1 + to_Z b2 * 2 ^ 8 + to_Z b3 * 2 ^ 16)); [lia | ].
    unfold n. lia. }
  assert (D1 : n / 2 ^ 8 = to_Z b1 + to_Z b2 * 2 ^ 8 + to_Z b3 * 2 ^ 16).
  { symmetry. apply (Z.div_unique_pos n (2 ^ 8) _ (to_Z b0)); [lia | ].
    unfold n. lia. }
  assert (E1 : (n / 2 ^ 8) mod 256 = to_Z b1).
  { rewrite D1. symmetry.
    apply (Z.mod_unique_pos _ 256 (to_Z b2 + to_Z b3 * 2 ^ 8)); lia. }
  assert (D2 : n / 2 ^ 16 = to_Z b2 + to_Z b3 * 2 ^ 8).
  { symmetry.
    apply (Z.div_unique_pos n (2 ^ 16) _ (to_Z b0 + to_Z b1 * 2 ^ 8));
      [lia | ].
    unfold n. lia. }
  assert (E2 : (n / 2 ^ 16) mod 256 = to_Z b2).
  { rewrite D2. symmetry.
    apply (Z.mod_unique_pos _ 256 (to_Z b3)); lia. }
  assert (D3 : n / 2 ^ 24 = to_Z b3).
  { symmetry.
    apply (Z.div_unique_pos n (2 ^ 24) _
             (to_Z b0 + to_Z b1 * 2 ^ 8 + to_Z b2 * 2 ^ 16)); [lia | ].
    unfold n. lia. }
  rewrite <- (of_Z_mod n), <- (of_Z_mod (n / 2 ^ 8)),
    <- (of_Z_mod (n / 2 ^ 16)), D3, E0, E1, E2.
  rewrite !of_Z_to_Z. reflexivity.
Qed.

(** The header is read from the first four bytes. *)
Lemma readUInt32LE_app (buf more : list byte) :
  (4 <= length buf)%nat -> readUInt32LE (buf ++ more) = readUInt32LE buf.
Proof.
  intros H.
  destruct buf as [ | b0 [ | b1 [ | b2 [ | b3 rest]]]]; cbn in H; try lia.
  reflexivity.
Qed.

(** A buffer that holds all the bytes its header declares begins with
    the wire form of one frame. *)
Lemma buffer_head_frame (buf : list byte) :
  (4 <= length buf)%nat ->
  4 + readUInt32LE buf <= Z.of_nat (length buf) ->
  let n := Z.to_nat (readUInt32LE buf) in
  buf = Framer.frameBytes (subarray 4 (4 + n) buf) ++ subarrayFrom (4 + n) buf
  /\ Z.of_nat (length (subarray 4 (4 + n) buf)) = readUInt32LE buf.
Proof.
  intros H4 Hall. cbv zeta.
  pose proof (readUInt32LE_range buf) as Hr.
  assert (Hlen : length (subarray 4 (4 + Z.to_nat (readUInt32LE buf)) buf)
                 = Z.to_nat (readUInt32LE buf)).
  { unfold subarray. rewrite length_firstn, length_skipn. lia. }
  split; [ | rewrite Hlen; lia].
  unfold Framer.frameBytes. rewrite Hlen, Z2Nat.id by lia.
  destruct buf as [ | b0 [ | b1 [ | b2 [ | b3 rest]]]]; cbn in H4; try lia.
  rewrite write_readUInt32LE.
  unfold subarray, subarrayFrom.
  replace (4 + Z.to_nat (readUInt32LE (b0 :: b1 :: b2 :: b3 :: rest)) - 4)%nat
    with (Z.to_nat (readUInt32LE (b0 :: b1 :: b2 :: b3 :: rest))) by lia.
  cbn [skipn Nat.add app].
  rewrite firstn_skipn. reflexivity.
Qed.

End HeaderFacts.

Section StreamFacts.
Import Js Bytes Framer.

(** What stays in the buffer when [push] returns is less than a header
    and the largest payload allowed. *)
Lemma drain_bound {S : Type} (L : Listeners S) (max : Z) (fuel : nat) :
  forall (buf buf' : list byte) (s s' : S),
    (length buf <= fuel)%nat ->
    drain L max fuel buf s = (buf', Normal s') ->
    Z.of_nat (length buf') < 4 + Z.max 0 max.
Proof.
  induction fuel as [ | fuel IH]; intros buf buf' s s' Hf Hd.
  - cbn [drain] in Hd. inversion Hd; subst. lia.
  - cbn [drain] in Hd.
    destruct (4 <=? length buf)%nat eqn:E4.
    + destruct (Z.ltb_spec max (readUInt32LE buf)) as [Hbig | Hle].
      * destruct (onError L _ s) as [s1 | e s1]; inversion Hd; subst.
        cbn [length]. lia.
      * destruct (Z.ltb_spec (Z.of_nat (length buf)) (4 + readUInt32LE buf))
          as [Hlt | Hge].
        -- inversion Hd; subst. lia.
        -- destruct (onFrame L _ s) as [s1 | e s1]; [ | discriminate].
           apply Nat.leb_le in E4.
           pose proof (readUInt32LE_range buf) as Hr.
           apply IH in Hd; [exact Hd | ].
           unfold subarrayFrom. rewrite length_skipn. lia.
    + apply Nat.leb_gt in E4. inversion Hd; subst. lia.
Qed.

(** The calls recorded come after those recorded before. *)
Lemma drain_log (max : Z) (fuel : nat) :
  forall (buf : list byte) (log : list Event),
    drain recorder max fuel buf log
    = (fst (drain recorder max fuel buf []),
       Normal (log ++ events (snd (drain recorder max fuel buf [])))).
Proof.
  induction fuel as [ | fuel IH]; intros buf log.
  - cbn [drain fst snd events]. rewrite app_nil_r. reflexivity.
  - cbn [drain].
    destruct (4 <=? length buf)%nat;
      [ | cbn [fst snd events]; rewrite app_nil_r; reflexivity].
    destruct (max <? readUInt32LE buf); [reflexivity | ].
    destruct (Z.of_nat (length buf) <? 4 + readUInt32LE buf);
      [cbn [fst snd events]; rewrite app_nil_r; reflexivity | ].
    cbn [recorder onFrame].
    rewrite (IH _ (log ++ _)), (IH _ ([] ++ _)).
    cbn [fst snd events app]. rewrite <- app_assoc. reflexivity.
Qed.

(** The buffer is cut into the frames emitted and what follows them:
    either the part kept, which does not hold a whole frame, or a header
    that declares too much, which is reported and dropped with all that
    follows. *)
Lemma drain_parse (max : Z) (fuel : nat) :
  forall (buf : list byte) (log : list Event),
    (length buf <= fuel)%nat ->
    exists (payloads : list (list byte)) (rest : list byte),
      buf = concat (map frameBytes payloads) ++ rest
      /\ Forall (wellFormed max) payloads
      /\ ((drain recorder max fuel buf log
           = (rest, Normal (log ++ map FrameEvent payloads))
           /\ ((length rest < 4)%nat
               \/ (readUInt32LE rest <= max
                   /\ Z.of_nat (length rest) < 4 + readUInt32LE rest)))
          \/ (drain recorder max fuel buf log
              = ([], Normal (log ++ map FrameEvent payloads
                             ++ [ErrorEvent
                                   (FrameTooLarge (readUInt32LE rest) max)]))
              /\ (4 <= length rest)%nat
              /\ max < readUInt32LE rest)).
Proof.
  induction fuel as [ | fuel IH]; intros buf log Hf.
  - destruct buf; [ | cbn in Hf; lia].
    exists [], []. repeat split; [constructor | ].
    left. cbn [drain map length]. rewrite app_nil_r. split; [reflexivity | lia].
  - destruct (Nat.lt_ge_cases (length buf) 4) as [Hs | H4].
    { exists [], buf. repeat split; [constructor | ].
      left. rewrite drain_short by exact Hs. cbn [map].
      rewrite app_nil_r. split; [reflexivity | left; exact Hs]. }
    destruct (Z.lt_ge_cases max (readUInt32LE buf)) as [Hbig | Hle].
    { exists [], buf. repeat split; [constructor | ].
      right. rewrite drain_oversize by (assumption || lia).
      cbn [recorder onError map app]. repeat split; assumption. }
    destruct (Z.lt_ge_cases (Z.of_nat (length buf)) (4 + readUInt32LE buf))
      as [Hlt | Hge].
    { exists [], buf. repeat split; [constructor | ].
      left. rewrite drain_incomplete by assumption. cbn [map].
      rewrite app_nil_r. split; [reflexivity | right; split; assumption]. }
    destruct (buffer_head_frame buf H4 Hge) as [Hcut Hlen].
    set (p := subarray 4 (4 + Z.to_nat (readUInt32LE buf)) buf) in *.
    set (tl := subarrayFrom (4 + Z.to_nat (readUInt32LE buf)) buf) in *.
    pose proof (readUInt32LE_range buf) as Hr.
    assert (Htl : (length tl <= fuel)%nat).
    { apply (f_equal (@length byte)) in Hcut.
      unfold frameBytes in Hcut.
      rewrite !length_app, length_writeUInt32LE in Hcut. lia. }
    destruct (IH tl (log ++ [FrameEvent p]) Htl)
      as (ps & rest & Hbuf & Hwf & Hres).
    exists (p :: ps), rest.
    split; [ | split].
    + rewrite concat_frames_cons, <- app_assoc, <- Hbuf. exact Hcut.
    + constructor; [split; lia | exact Hwf].
    + assert (Hstep : drain recorder max (Datatypes.S fuel) buf log
                      = drain recorder max fuel tl (log ++ [FrameEvent p])).
      { rewrite Hcut at 1.
        rewrite drain_frame by (rewrite <- ?Hcut; lia).
        cbn [recorder onFrame]. apply drain_fuel; lia. }
      rewrite Hstep.
      cbn [map]. rewrite <- !app_assoc in Hres. cbn [app] in Hres.
      exact Hres.
Qed.

(** Bytes that arrive later do not change what was decoded before them,
    as long as the whole is decoded without an error. *)
Lemma drain_app (max : Z) (more : list byte) (fuel : nat) :
  forall (buf : list byte) (log : list Event),
    (length buf <= fuel)%nat ->
    existsb isError
      (events (snd (drain recorder max (length (buf ++ more))
                      (buf ++ more) log))) = false ->
    let r := drain recorder max fuel buf log in
    drain recorder max (length (fst r ++ more)) (fst r ++ more)
      (events (snd r))
    = drain recorder max (length (buf ++ more)) (buf ++ more) log.
Proof.
  induction fuel as [ | fuel IH]; intros buf log Hf Hne; cbv zeta.
  - reflexivity.
  - destruct (Nat.lt_ge_cases (length buf) 4) as [Hs | H4].
    { rewrite (drain_short recorder max (Datatypes.S fuel) buf) by exact Hs.
      reflexivity. }
    assert (H4' : (4 <= length (buf ++ more))%nat)
      by (rewrite length_app; lia).
    destruct (Z.lt_ge_cases max (readUInt32LE buf)) as [Hbig | Hle].
    { rewrite (drain_oversize recorder max _ (buf ++ more)) in Hne
        by (rewrite ?readUInt32LE_app by exact H4; assumption || lia).
      cbn [recorder onError snd events] in Hne.
      rewrite existsb_app in Hne. cbn [existsb isError] in Hne.
      rewrite orb_true_r in Hne. discriminate. }
    destruct (Z.lt_ge_cases (Z.of_nat (length buf)) (4 + readUInt32LE buf))
      as [Hlt | Hge].
    { rewrite (drain_incomplete recorder max (Datatypes.S fuel) buf)
        by assumption.
      reflexivity. }
    destruct (buffer_head_frame buf H4 Hge) as [Hcut Hlen].
    set (p := subarray 4 (4 + Z.to_nat (readUInt32LE buf)) buf) in *.
    set (tl := subarrayFrom (4 + Z.to_nat (readUInt32LE buf)) buf) in *.
    pose proof (readUInt32LE_range buf) as Hr.
    assert (Hlb : length buf = (4 + length p + length tl)%nat).
    { rewrite Hcut at 1. unfold frameBytes.
      rewrite !length_app, length_writeUInt32LE. lia. }
    assert (Hwhole : drain recorder max (length (buf ++ more)) (buf ++ more)
                       log
                     = drain recorder max (length (tl ++ more)) (tl ++ more)
                         (log ++ [FrameEvent p])).
    { rewrite Hcut at 1 2. rewrite <- app_assoc.
      rewrite drain_frame by (rewrite ?app_assoc, <- ?Hcut; lia).
      reflexivity. }
    assert (Hpart : drain recorder max (Datatypes.S fuel) buf log
                    = drain recorder max fuel tl (log ++ [FrameEvent p])).
    { rewrite Hcut at 1.
      rewrite drain_frame by (rewrite <- ?Hcut; lia).
      cbn [recorder onFrame]. apply drain_fuel; lia. }
    rewrite Hpart, Hwhole. rewrite Hwhole in Hne.
    apply IH; [lia | exact Hne].
Qed.

End StreamFacts.

(** X1 (bounded buffer).  When [push] returns, whatever the listeners
    did, the decoder holds fewer bytes than a header and the largest
    payload it accepts: pendingBytes < 4 + max(0, maxFrameSize). *)
Theorem push_keeps_less_than_one_frame
    {S : Type} (L : Framer.Listeners S) (chunk : list Byte.byte)
    (d d' : Framer.FrameDecoder) (s s' : S) :
  Framer.pushWith L chunk d s = (d', Js.Normal s') ->
  Z.of_nat (Framer.pendingBytes d') < 4 + Z.max 0 (Framer.maxFrameSize d).
Proof.
  unfold Framer.pushWith. cbv zeta. intros H.
  destruct (Framer.drain L (Framer.maxFrameSize d)
              (length (Framer.buffer d ++ chunk))
              (Framer.buffer d ++ chunk) s) as [buf' c] eqn:E.
  cbn [fst snd] in H. inversion H; subst.
  unfold Framer.pendingBytes. cbn [Framer.with_buffer Framer.buffer].
  apply (drain_bound L _ _ _ _ _ _ (Nat.le_refl _) E).
Qed.

Lemma push_keeps_less_than_one_frame_witness :
  Z.of_nat
    (Framer.pendingBytes
       {| Framer.buffer := [x03; x00; x00; x00; x41];
          Framer.maxFrameSize := 8 |})
  < 4 + Z.max 0 (Framer.maxFrameSize (Framer.new 8)).
Proof.
  apply (push_keeps_less_than_one_frame Framer.recorder
           [x01; x00; x00; x00; x40; x03; x00; x00; x00; x41]
           (Framer.new 8) _ [] [Framer.FrameEvent [x40]]).
  reflexivity.
Defined.

(** X2 (nothing lost, nothing invented).  One [push] cuts the bytes it
    works on, the buffer followed by the chunk, into the wire forms of the
    frames it emits, in order, and a remainder.  Either the remainder is
    kept as the new buffer and holds no whole frame (it is shorter than a
    header, or shorter than its header, within the limit, declares), or it
    begins with a header that declares more than maxFrameSize, which is
    reported by the one error event, the last event, and the buffer is
    left empty. *)
Theorem push_accounts_for_every_byte
    (chunk : list Byte.byte) (d : Framer.FrameDecoder) :
  exists (payloads : list (list Byte.byte)) (rest : list Byte.byte),
    Framer.buffer d ++ chunk
    = concat (map Framer.frameBytes payloads) ++ rest
    /\ Forall (Framer.wellFormed (Framer.maxFrameSize d)) payloads
    /\ ((snd (Framer.push chunk d) = map Framer.FrameEvent payloads
         /\ Framer.buffer (fst (Framer.push chunk d)) = rest
         /\ ((length rest < 4)%nat
             \/ (Bytes.readUInt32LE rest <= Framer.maxFrameSize d
                 /\ Z.of_nat (length rest) < 4 + Bytes.readUInt32LE rest)))
        \/ (snd (Framer.push chunk d)
            = map Framer.FrameEvent payloads
              ++ [Framer.ErrorEvent
                    (Js.FrameTooLarge (Bytes.readUInt32LE rest)
                       (Framer.maxFrameSize d))]
            /\ Framer.buffer (fst (Framer.push chunk d)) = []
            /\ (4 <= length rest)%nat
            /\ Framer.maxFrameSize d < Bytes.readUInt32LE rest)).
Proof.
  rewrite push_unfold. cbv zeta.
  destruct (drain_parse (Framer.maxFrameSize d)
              (length (Framer.buffer d ++ chunk))
              (Framer.buffer d ++ chunk) [] (Nat.le_refl _))
    as (ps & rest & Hbuf & Hwf & [[Hd Hrest] | (Hd & H4 & Hbig)]).
  - exists ps, rest. split; [exact Hbuf | split; [exact Hwf | left]].
    rewrite Hd. cbn [fst snd Framer.events Framer.with_buffer Framer.buffer app].
    repeat split. exact Hrest.
  - exists ps, rest. split; [exact Hbuf | split; [exact Hwf | right]].
    rewrite Hd. cbn [fst snd Framer.events Framer.with_buffer Framer.buffer app].
    repeat split; assumption.
Qed.

Section ChunkingFacts.
Import Js Bytes Framer.

Lemma push_events_shift (chunk : list byte) (d : FrameDecoder)
    (log : list Event) :
  drain recorder (maxFrameSize d) (length (buffer d ++ chunk))
    (buffer d ++ chunk) log
  = (buffer (fst (push chunk d)), Normal (log ++ snd (push chunk d))).
Proof. rewrite drain_log, push_unfold. reflexivity. Qed.

(** After a [push] the decoder is at rest: a push of no bytes emits
    nothing and changes nothing. *)
Lemma push_at_rest (chunk : list byte) (d : FrameDecoder) :
  push [] (fst (push chunk d)) = (fst (push chunk d), []).
Proof.
  rewrite (push_unfold chunk d). cbv zeta.
  destruct (drain_parse (maxFrameSize d) (length (buffer d ++ chunk))
              (buffer d ++ chunk) [] (Nat.le_refl _))
    as (ps & rest & _ & _ & [[Hd Hrest] | (Hd & _ & _)]);
    rewrite Hd; cbn [fst]; rewrite push_unfold;
    cbn [with_buffer buffer maxFrameSize]; cbv zeta; rewrite app_nil_r.
  - destruct Hrest as [Hs | [Hle Hlt]].
    + rewrite drain_short by exact Hs. reflexivity.
    + destruct (Nat.lt_ge_cases (length rest) 4) as [Hs | H4].
      * rewrite drain_short by exact Hs. reflexivity.
      * rewrite drain_incomplete by assumption. reflexivity.
  - reflexivity.
Qed.

End ChunkingFacts.

Section ChunkingClaim.
Import Js Bytes Framer.

(** X3 (chunking does not matter).  For a decoder at rest (one that was
    just constructed or reset, or has returned from any push) and any
    bytes whose decoding meets no oversized header, pushing the bytes in
    chunks of any sizes emits the same events, in the same order, and
    leaves the same decoder as pushing them at once. *)
Theorem chunking_does_not_matter
    (chunks : list (list byte)) (d : FrameDecoder) :
  push [] d = (d, []) ->
  existsb isError (snd (push (concat chunks) d)) = false ->
  pushAll chunks d = push (concat chunks) d.
Proof.
  revert d. induction chunks as [ | c cs IH]; intros d Hrest Hne.
  - cbn [concat pushAll]. symmetry. exact Hrest.
  - cbn [concat pushAll] in *.
    assert (Hwhole : push (c ++ concat cs) d
                     = (fst (push (concat cs) (fst (push c d))),
                        snd (push c d)
                        ++ snd (push (concat cs) (fst (push c d))))).
    { rewrite (push_unfold (c ++ concat cs) d). cbv zeta.
      rewrite app_assoc.
      assert (Hne' : existsb isError
                       (events
                          (snd (drain recorder (maxFrameSize d)
                                  (length ((buffer d ++ c) ++ concat cs))
                                  ((buffer d ++ c) ++ concat cs) [])))
                     = false).
      { rewrite push_unfold in Hne. cbv zeta in Hne.
        rewrite app_assoc in Hne. exact Hne. }
      pose proof (drain_app (maxFrameSize d) (concat cs)
                    (length (buffer d ++ c)) (buffer d ++ c) []
                    (Nat.le_refl _) Hne') as Happ.
      cbv zeta in Happ. rewrite <- Happ.
      rewrite (push_events_shift c d []). cbn [fst snd events app].
      pose proof (push_events_shift (concat cs) (fst (push c d))
                    (snd (push c d))) as Hs.
      rewrite (push_unfold c d) in Hs at 1 2 3.
      cbv zeta in Hs. cbn [fst with_buffer maxFrameSize buffer] in Hs.
      rewrite (push_events_shift c d []) in Hs. cbn [fst] in Hs.
      rewrite Hs. cbn [fst snd events].
      rewrite (push_unfold (concat cs) (fst (push c d))). cbv zeta.
      cbn [fst]. rewrite (push_unfold c d). reflexivity. }
    rewrite Hwhole in Hne |- *. cbn [snd] in Hne.
    rewrite existsb_app in Hne. apply orb_false_iff in Hne as [_ Hcs].
    rewrite (IH (fst (push c d)) (push_at_rest c d) Hcs).
    reflexivity.
Qed.

End ChunkingClaim.

Lemma chunking_does_not_matter_witness :
  Framer.pushAll
    [[x02]; [x00; x00]; [x00; xab; xcd; x01]; [x00; x00; x00; x07; x05]]
    (Framer.new 16)
  = Framer.push
      (concat
         [[x02]; [x00; x00]; [x00; xab; xcd; x01]; [x00; x00; x00; x07; x05]])
      (Framer.new 16).
Proof.
  apply (chunking_does_not_matter
           [[x02]; [x00; x00]; [x00; xab; xcd; x01];
            [x00; x00; x00; x07; x05]]
           (Framer.new 16));
    reflexivity.
Defined.

(* ================================================================= *)
(** * frames.ts: parseFrame *)

Section ParseFrameFacts.
Import Js Bytes Protocol Frames.

Lemma length_encodeFrame (opcode : Z) (payload : list byte) :
  length (encodeFrame opcode payload) = (5 + length payload)%nat.
Proof. reflexivity. Qed.

Lemma parseFrame_complete (buf : list byte) :
  (4 <= length buf)%nat ->
  readUInt32LE buf <= MAX_FRAME_SIZE ->
  4 + readUInt32LE buf <= Z.of_nat (length buf) ->
  parseFrame buf
  = Returns
      (Some {| opcode := option_map to_Z (nth_error buf 4);
               payload := subarray 5 (Z.to_nat (4 + readUInt32LE buf)) buf;
               totalLength := 4 + readUInt32LE buf |}).
Proof.
  intros H4 Hle Hall. unfold parseFrame.
  replace (length buf <? 4)%nat with false
    by (symmetry; apply Nat.ltb_ge; exact H4).
  cbv zeta.
  replace (MAX_FRAME_SIZE <? readUInt32LE buf) with false
    by (symmetry; apply Z.ltb_ge; exact Hle).
  replace (Z.of_nat (length buf) <? 4 + readUInt32LE buf) with false
    by (symmetry; apply Z.ltb_ge; exact Hall).
  reflexivity.
Qed.

End ParseFrameFacts.

(** parseFrame on an encoded frame and what follows it. *)
Lemma parseFrame_encoded
    (opcode : Z) (payload rest : list Byte.byte) :
  1 + Z.of_nat (length payload) <= Frames.MAX_FRAME_SIZE ->
  Frames.parseFrame (Protocol.encodeFrame opcode payload ++ rest)
  = Js.Returns
      (Some {| Frames.opcode := Some (opcode mod 256);
               Frames.payload := payload;
               Frames.totalLength := 5 + Z.of_nat (length payload) |}).
Proof.
  intros Hmax.
  assert (Hmax' : 1 + Z.of_nat (length payload) <= 16777216) by exact Hmax.
  assert (Hread : Bytes.readUInt32LE (Protocol.encodeFrame opcode payload ++ rest)
                  = 1 + Z.of_nat (length payload)).
  { unfold Protocol.encodeFrame. cbv zeta. rewrite <- app_assoc.
    rewrite read_writeUInt32LE; lia. }
  rewrite parseFrame_complete;
    rewrite ?Hread, ?length_app, ?length_encodeFrame; try lia.
  f_equal. f_equal.
  replace (4 + (1 + Z.of_nat (length payload)))
    with (5 + Z.of_nat (length payload)) by lia.
  f_equal.
  - unfold Protocol.encodeFrame, Bytes.writeUInt32LE. cbv zeta.
    cbn [app nth_error option_map]. rewrite to_Z_of_Z. reflexivity.
  - unfold Protocol.encodeFrame, Bytes.writeUInt32LE, Bytes.subarray.
    cbv zeta. cbn [app].
    replace (Z.to_nat (5 + Z.of_nat (length payload)) - 5)%nat
      with (length payload) by lia.
    cbn [skipn]. rewrite firstn_app, Nat.sub_diag, firstn_all.
    cbn [firstn]. apply app_nil_r.
Qed.

(** X4 (parseFrame reads back encodeFrame).  For every opcode and every
    payload such that the frame is within MAX_FRAME_SIZE, parseFrame on
    the encoded frame, whatever bytes follow it, returns the opcode (as
    the byte stored, opcode modulo 256), the payload, and the length of
    the frame on the wire, 5 + payload.length. *)
Theorem parseFrame_encodeFrame
    (opcode : Z) (payload rest : list Byte.byte) :
  1 + Z.of_nat (length payload) <= Frames.MAX_FRAME_SIZE ->
  Frames.parseFrame (Protocol.encodeFrame opcode payload ++ rest)
  = Js.Returns
      (Some {| Frames.opcode := Some (opcode mod 256);
               Frames.payload := payload;
               Frames.totalLength := 5 + Z.of_nat (length payload) |}).
Proof. apply parseFrame_encoded. Qed.

Lemma parseFrame_encodeFrame_witness :
  Frames.parseFrame
    (Protocol.encodeFrame 0x140 [x01; x02; x03] ++ [x09; x09])
  = Js.Returns
      (Some {| Frames.opcode := Some 0x40;
               Frames.payload := [x01; x02; x03];
               Frames.totalLength := 8 |}).
Proof.
  apply (parseFrame_encodeFrame 0x140 [x01; x02; x03] [x09; x09]).
  cbn. lia.
Defined.

(** X5 (incomplete frame).  For every frame within MAX_FRAME_SIZE,
    parseFrame returns null on every proper prefix of its encoding: a
    header that is not complete, or a frame short of its last byte. *)
Theorem parseFrame_incomplete
    (opcode : Z) (payload buf tail : list Byte.byte) :
  1 + Z.of_nat (length payload) <= Frames.MAX_FRAME_SIZE ->
  buf ++ tail = Protocol.encodeFrame opcode payload ->
  tail <> [] ->
  Frames.parseFrame buf = Js.Returns None.
Proof.
  intros Hmax Hsplit Htail.
  assert (Hmax' : 1 + Z.of_nat (length payload) <= 16777216) by exact Hmax.
  assert (Hlen : (length buf + length tail = 5 + length payload)%nat).
  { rewrite <- length_app, Hsplit. reflexivity. }
  assert (Htl : (0 < length tail)%nat).
  { destruct tail; [contradiction | cbn; lia]. }
  unfold Frames.parseFrame.
  destruct (Nat.ltb_spec (length buf) 4) as [Hs | H4]; [reflexivity | ].
  cbv zeta.
  assert (Hread : Bytes.readUInt32LE buf = 1 + Z.of_nat (length payload)).
  { rewrite <- (readUInt32LE_app buf tail H4), Hsplit.
    unfold Protocol.encodeFrame. cbv zeta.
    rewrite read_writeUInt32LE; lia. }
  rewrite Hread.
  replace (Frames.MAX_FRAME_SIZE <? 1 + Z.of_nat (length payload)) with false
    by (symmetry; apply Z.ltb_ge; exact Hmax).
  replace (Z.of_nat (length buf) <? 4 + (1 + Z.of_nat (length payload)))
    with true by (symmetry; apply Z.ltb_lt; lia).
  reflexivity.
Qed.

Lemma parseFrame_incomplete_witness :
  Frames.parseFrame [x04; x00; x00] = Js.Returns None
  /\ Frames.parseFrame [x04; x00; x00; x00; x40; x01; x02] = Js.Returns None.
Proof.
  split.
  - apply (parseFrame_incomplete 0x40 [x01; x02; x03] [x04; x00; x00]
             [x00; x40; x01; x02; x03]);
      [cbn; lia | reflexivity | discriminate].
  - apply (parseFrame_incomplete 0x40 [x01; x02; x03]
             [x04; x00; x00; x00; x40; x01; x02] [x03]);
      [cbn; lia | reflexivity | discriminate].
Defined.

(** X6 (frame of length zero).  A header that declares zero bytes is a
    complete frame for parseFrame: it returns totalLength 4 and an empty
    payload, and as opcode the byte that follows the header, which belongs
    to the next frame, or undefined when nothing follows. *)
Theorem parseFrame_empty_frame (rest : list Byte.byte) :
  Frames.parseFrame ([x00; x00; x00; x00] ++ rest)
  = Js.Returns
      (Some {| Frames.opcode := option_map Bytes.to_Z (hd_error rest);
               Frames.payload := [];
               Frames.totalLength := 4 |}).
Proof.
  rewrite parseFrame_complete; cbn [app length]; try (cbn; lia).
  change (Bytes.readUInt32LE (x00 :: x00 :: x00 :: x00 :: rest)) with 0.
  cbn [nth_error]. destruct rest; reflexivity.
Qed.

(** X7 (the two parsers agree).  On any buffer, parseFrame and a fresh
    FrameDecoder with the limit MAX_FRAME_SIZE see the same thing at the
    head: where parseFrame throws, the decoder emits that error alone and
    keeps nothing; where it returns null, the decoder emits nothing and
    keeps the bytes; where it returns a frame, the first event of the
    decoder is that frame, its payload being the opcode byte followed by
    the payload of parseFrame (and empty for a frame of length zero). *)
Theorem parseFrame_agrees_with_decoder (buf : list Byte.byte) :
  let d := Framer.new Frames.MAX_FRAME_SIZE in
  match Frames.parseFrame buf with
  | Js.Throws e => Framer.push buf d = (d, [Framer.ErrorEvent e])
  | Js.Returns None => Framer.push buf d = (Framer.with_buffer buf d, [])
  | Js.Returns (Some f) =>
      exists (p : list Byte.byte) (more : list Framer.Event),
        snd (Framer.push buf d) = Framer.FrameEvent p :: more
        /\ 4 + Z.of_nat (length p) = Frames.totalLength f
        /\ match p with
           | [] => Frames.payload f = []
           | op :: body =>
               Frames.opcode f = Some (Bytes.to_Z op)
               /\ Frames.payload f = body
           end
  end.
Proof.
  cbv zeta. rewrite push_unfold. cbv zeta.
  cbn [Framer.new Framer.buffer Framer.maxFrameSize app].
  destruct (Nat.lt_ge_cases (length buf) 4) as [Hs | H4].
  { unfold Frames.parseFrame.
    replace (length buf <? 4)%nat with true
      by (symmetry; apply Nat.ltb_lt; exact Hs).
    rewrite drain_short by exact Hs. reflexivity. }
  destruct (Z.lt_ge_cases Frames.MAX_FRAME_SIZE (Bytes.readUInt32LE buf))
    as [Hbig | Hle].
  { unfold Frames.parseFrame.
    replace (length buf <? 4)%nat with false
      by (symmetry; apply Nat.ltb_ge; exact H4).
    cbv zeta.
    replace (Frames.MAX_FRAME_SIZE <? Bytes.readUInt32LE buf) with true
      by (symmetry; apply Z.ltb_lt; exact Hbig).
    rewrite drain_oversize by (assumption || lia). reflexivity. }
  destruct (Z.lt_ge_cases (Z.of_nat (length buf))
              (4 + Bytes.readUInt32LE buf)) as [Hlt | Hge].
  { unfold Frames.parseFrame.
    replace (length buf <? 4)%nat with false
      by (symmetry; apply Nat.ltb_ge; exact H4).
    cbv zeta.
    replace (Frames.MAX_FRAME_SIZE <? Bytes.readUInt32LE buf) with false
      by (symmetry; apply Z.ltb_ge; exact Hle).
    replace (Z.of_nat (length buf) <? 4 + Bytes.readUInt32LE buf) with true
      by (symmetry; apply Z.ltb_lt; exact Hlt).
    rewrite drain_incomplete by assumption. reflexivity. }
  rewrite parseFrame_complete by assumption.
  destruct (buffer_head_frame buf H4 Hge) as [Hcut Hlen].
  pose proof (readUInt32LE_range buf) as Hr.
  set (n := Z.to_nat (Bytes.readUInt32LE buf)) in *.
  set (p := Bytes.subarray 4 (4 + n) buf) in *.
  set (tl := Bytes.subarrayFrom (4 + n) buf) in *.
  assert (Hstep : Framer.drain Framer.recorder Frames.MAX_FRAME_SIZE
                    (length buf) buf []
                  = Framer.drain Framer.recorder Frames.MAX_FRAME_SIZE
                      (length tl) tl [Framer.FrameEvent p]).
  { rewrite Hcut at 1 2.
    rewrite drain_frame by lia. reflexivity. }
  rewrite Hstep, drain_log. cbn [snd fst Framer.events app].
  exists p, (Framer.events
               (snd (Framer.drain Framer.recorder Frames.MAX_FRAME_SIZE
                       (length tl) tl []))).
  split; [reflexivity | ].
  cbn [Frames.totalLength Frames.payload Frames.opcode].
  split; [lia | ].
  replace (Z.to_nat (4 + Bytes.readUInt32LE buf)) with (4 + n)%nat by lia.
  subst p. clear Hcut Hstep tl Hlen.
  destruct buf as [ | b0 [ | b1 [ | b2 [ | b3 rest]]]]; cbn in H4; try lia.
  unfold Bytes.subarray.
  replace (4 + n - 4)%nat with n by lia.
  replace (4 + n - 5)%nat with (n - 1)%nat by lia.
  cbn [skipn nth_error].
  destruct rest as [ | b rest'].
  - rewrite !firstn_nil. reflexivity.
  - destruct n as [ | n']; [reflexivity | ].
    cbn [firstn option_map]. replace (Datatypes.S n' - 1)%nat with n' by lia.
    split; reflexivity.
Qed.

(* ================================================================= *)
(** * frames.ts: PayloadBuilder and PayloadReader *)

Section BuilderFacts.
Import Js Bytes Protocol Frames.

Lemma TypedArray_set_fill (pre chunk : list byte) (m : nat) :
  TypedArray_set (pre ++ repeat x00 (length chunk + m)) chunk (length pre)
  = Returns ((pre ++ chunk) ++ repeat x00 m).
Proof.
  unfold TypedArray_set.
  rewrite length_app, repeat_length.
  replace (length pre + (length chunk + m) <? length pre + length chunk)%nat
    with false by (symmetry; apply Nat.ltb_ge; lia).
  rewrite firstn_app, Nat.sub_diag, firstn_all. cbn [firstn].
  rewrite app_nil_r.
  rewrite skipn_app, skipn_all2 by lia.
  replace (length pre + length chunk - length pre)%nat
    with (length chunk) by lia.
  cbn [app].
  rewrite repeat_app, skipn_app, repeat_length, Nat.sub_diag.
  rewrite skipn_all2 by (rewrite repeat_length; lia).
  cbn [skipn app]. rewrite <- app_assoc. reflexivity.
Qed.

(** The loop fills the array from the left, chunk by chunk. *)
Lemma buildLoop_fill (chunks : list (list byte)) :
  forall pre : list byte,
    buildLoop chunks (pre ++ repeat x00 (length (concat chunks)))
      (length pre)
    = Returns (pre ++ concat chunks).
Proof.
  induction chunks as [ | c cs IH]; intros pre.
  - cbn [concat length repeat buildLoop]. reflexivity.
  - cbn [concat buildLoop]. rewrite length_app, TypedArray_set_fill.
    rewrite <- length_app, IH, <- app_assoc. reflexivity.
Qed.

Lemma pushChunk_sized (buf : list byte) (b : PayloadBuilder) :
  totalSize b = length (concat (chunks b)) ->
  totalSize (pushChunk buf (length buf) b)
  = length (concat (chunks (pushChunk buf (length buf) b))).
Proof.
  intros H. cbn [pushChunk totalSize chunks].
  rewrite concat_app, length_app. cbn [concat]. rewrite app_nil_r. lia.
Qed.

(** totalSize is the number of bytes in the chunks. *)
Lemma Built_sized (b : PayloadBuilder) :
  Built b -> totalSize b = length (concat (chunks b)).
Proof.
  induction 1 as [ | v b _ IH | v b _ IH | v b _ IH | v b _ IH | v b _ IH].
  - reflexivity.
  - exact (pushChunk_sized [of_Z v] b IH).
  - exact (pushChunk_sized [of_Z v] b IH).
  - exact (pushChunk_sized (writeUInt16LE v) b IH).
  - exact (pushChunk_sized (writeUInt32LE v) b IH).
  - exact (pushChunk_sized (encodeString v) b IH).
Qed.

Lemma build_sized (b : PayloadBuilder) :
  totalSize b = length (concat (chunks b)) ->
  build b = Returns (concat (chunks b)).
Proof.
  intros H. unfold build. rewrite H.
  exact (buildLoop_fill (chunks b) []).
Qed.

Lemma write_Built (v : Value) (b : PayloadBuilder) :
  Built b -> Built (write v b).
Proof. destruct v; intros H; constructor; exact H. Qed.

Lemma writeAll_Built (vs : list Value) :
  forall b, Built b -> Built (writeAll vs b).
Proof.
  induction vs as [ | v vs IH]; intros b H; [exact H | ].
  apply IH, write_Built, H.
Qed.

Lemma write_chunks (v : Value) (b : PayloadBuilder) :
  chunks (write v b) = chunks b ++ [encoded v].
Proof.
  destruct v; unfold encoded; cbn; rewrite ?app_nil_r; reflexivity.
Qed.

Lemma writeAll_chunks (vs : list Value) :
  forall b, chunks (writeAll vs b) = chunks b ++ map encoded vs.
Proof.
  induction vs as [ | v vs IH]; intros b.
  - cbn [writeAll fold_left map]. rewrite app_nil_r. reflexivity.
  - cbn [writeAll fold_left map].
    change (fold_left (fun b0 v0 => write v0 b0) vs (write v b))
      with (writeAll vs (write v b)).
    rewrite IH, write_chunks, <- app_assoc. reflexivity.
Qed.

End BuilderFacts.

(** X8 (build).  For every builder made from a new PayloadBuilder by the
    write methods (writeU8, writeI8, writeU16, writeU32, writeString, in
    any number and order), build() does not throw and returns the chunks
    written, one after the other in the order of the writes, with no
    byte between or after them: totalSize bytes in all. *)
Theorem build_returns_the_writes (b : Frames.PayloadBuilder) :
  Frames.Built b ->
  Frames.build b = Js.Returns (concat (Frames.chunks b))
  /\ length (concat (Frames.chunks b)) = Frames.totalSize b.
Proof.
  intros H. pose proof (Built_sized b H) as Hs.
  split; [apply build_sized; exact Hs | symmetry; exact Hs].
Qed.

Section BuilderWitness.
Import String.

Lemma build_returns_the_writes_witness :
  let b := Frames.writeString "hi"%string
             (Frames.writeI8 (-1)
                (Frames.writeU16 0x1234 Frames.newPayloadBuilder)) in
  Frames.build b = Js.Returns [x34; x12; xff; x02; x00; x68; x69]
  /\ List.length [x34; x12; xff; x02; x00; x68; x69] = Frames.totalSize b.
Proof.
  apply (build_returns_the_writes
           (Frames.writeString "hi"%string
              (Frames.writeI8 (-1)
                 (Frames.writeU16 0x1234 Frames.newPayloadBuilder)))).
  repeat constructor.
Defined.

End BuilderWitness.

Section ReaderFacts.
Import Js Bytes Protocol Frames.

Lemma skipn_prefix (pre rest : list byte) :
  skipn (length pre) (pre ++ rest) = rest.
Proof. rewrite skipn_app, Nat.sub_diag, skipn_all. reflexivity. Qed.

(** Reading, at the place where a value was written, gives the value. *)
Lemma read_encoded (v : Value) (pre post : list byte) :
  fits v ->
  read (kindOf v)
    {| data := pre ++ encoded v ++ post; offset := length pre |}
  = Returns (v, {| data := pre ++ encoded v ++ post;
                   offset := length pre + length (encoded v) |}).
Proof.
  destruct v as [n | n | n | s]; cbn [fits kindOf read]; intros Hfit.
  - change (encoded (VU8 n)) with [of_Z n].
    unfold readU8. cbn [data offset app].
    rewrite nth_error_app2, Nat.sub_diag by lia. cbn [nth_error].
    rewrite to_Z_of_Z, Z.mod_small by (change (2 ^ 8) with 256 in Hfit; lia).
    reflexivity.
  - change (encoded (VU16 n)) with (writeUInt16LE n).
    unfold readU16, advance. cbn [data offset].
    rewrite !length_app, length_writeUInt16LE.
    replace (length pre + (2 + length post) <? length pre + 2)%nat
      with false by (symmetry; apply Nat.ltb_ge; lia).
    rewrite skipn_prefix, read_writeUInt16LE by exact Hfit.
    reflexivity.
  - change (encoded (VU32 n)) with (writeUInt32LE n).
    unfold readU32, advance. cbn [data offset].
    rewrite !length_app, length_writeUInt32LE.
    replace (length pre + (4 + length post) <? length pre + 4)%nat
      with false by (symmetry; apply Nat.ltb_ge; lia).
    rewrite skipn_prefix, read_writeUInt32LE by exact Hfit.
    reflexivity.
  - destruct Hfit as (Hwf & Hbom & Hlen).
    change (encoded (VString s)) with (encodeString s ++ []).
    rewrite app_nil_r.
    unfold readString. cbn [data offset].
    rewrite decodeString_encodeString by exact Hlen.
    rewrite decode_encode by assumption.
    unfold encodeString. rewrite length_app, length_writeUInt16LE.
    reflexivity.
Qed.

Lemma readAll_encoded (vs : list Value) :
  forall pre post : list byte,
    Forall fits vs ->
    readAll (map kindOf vs)
      {| data := pre ++ concat (map encoded vs) ++ post;
         offset := length pre |}
    = Returns (vs, {| data := pre ++ concat (map encoded vs) ++ post;
                      offset := length pre
                                + length (concat (map encoded vs)) |}).
Proof.
  induction vs as [ | v vs IH]; intros pre post Hfit.
  - cbn [map concat readAll length app]. rewrite Nat.add_0_r. reflexivity.
  - inversion Hfit as [ | ? ? Hv Hvs]; subst.
    cbn [map concat readAll]. rewrite <- app_assoc.
    rewrite (read_encoded v pre _ Hv).
    pose proof (IH (pre ++ encoded v) post Hvs) as Hrest.
    rewrite <- !app_assoc, length_app in Hrest. rewrite Hrest.
    rewrite length_app, Nat.add_assoc. reflexivity.
Qed.

End ReaderFacts.

Section ReaderClaims.
Import String.

(** X9 (what the builder writes, the reader reads).  For every sequence
    of values that fit their fields (u8, u16 and u32 numbers within the
    width; texts that are well-formed UTF-8 of fewer than 65536 bytes and
    do not begin with U+FEFF), written with the write methods in order to
    a new builder, build() returns bytes from which a PayloadReader reads
    the same values back with the matching read methods in the same
    order, and nothing remains. *)
Theorem reader_reads_back_builder (vs : list Frames.Value) :
  Forall Frames.fits vs ->
  exists (bytes : list Byte.byte) (r : Protocol.PayloadReader),
    Frames.build (Frames.writeAll vs Frames.newPayloadBuilder)
    = Js.Returns bytes
    /\ Frames.readAll (map Frames.kindOf vs) (Protocol.newPayloadReader bytes)
       = Js.Returns (vs, r)
    /\ Frames.remaining r = 0.
Proof.
  intros Hfit.
  pose proof (writeAll_Built vs _ Frames.Built_new) as HB.
  pose proof (build_sized _ (Built_sized _ HB)) as Hbuild.
  rewrite writeAll_chunks in Hbuild. cbn [Frames.chunks app] in Hbuild.
  pose proof (readAll_encoded vs [] [] Hfit) as Hread.
  cbn [app List.length Nat.add] in Hread. rewrite app_nil_r in Hread.
  eexists. eexists. split; [exact Hbuild | split; [exact Hread | ]].
  unfold Frames.remaining. cbn [Protocol.data Protocol.offset]. lia.
Qed.

Lemma reader_reads_back_builder_witness :
  exists (bytes : list Byte.byte) (r : Protocol.PayloadReader),
    Frames.build
      (Frames.writeAll
         [Frames.VString "fire"%string; Frames.VU8 1; Frames.VU32 70000;
          Frames.VU16 300]
         Frames.newPayloadBuilder)
    = Js.Returns bytes
    /\ Frames.readAll
         (map Frames.kindOf
            [Frames.VString "fire"%string; Frames.VU8 1; Frames.VU32 70000;
             Frames.VU16 300])
         (Protocol.newPayloadReader bytes)
       = Js.Returns
           ([Frames.VString "fire"%string; Frames.VU8 1; Frames.VU32 70000;
             Frames.VU16 300], r)
    /\ Frames.remaining r = 0.
Proof.
  apply (reader_reads_back_builder
           [Frames.VString "fire"%string; Frames.VU8 1; Frames.VU32 70000;
            Frames.VU16 300]).
  apply Forall_cons; [ | repeat apply Forall_cons; cbn; try lia; apply Forall_nil].
  split; [ | split; [intros rest; discriminate | cbn; lia]].
  repeat (apply Protocol.Utf8_1; [split; cbn; lia | ]).
  apply Protocol.Utf8_nil.
Defined.

End ReaderClaims.

(* ================================================================= *)
(** * frames.ts: the length prefix of a string *)

Section PrefixFacts.
Import Js Bytes Protocol.

(** setUint16 keeps the number modulo 2^16. *)
Lemma read_writeUInt16LE_mod (n : Z) (rest : list byte) :
  readUInt16LE (writeUInt16LE n ++ rest) = n mod 2 ^ 16.
Proof.
  unfold writeUInt16LE, readUInt16LE. cbn [app].
  rewrite !to_Z_of_Z.
  change (2 ^ 8) with 256. change (2 ^ 16) with (256 * 256).
  rewrite Z.rem_mul_r by lia. lia.
Qed.

End PrefixFacts.

(** X10 (the u16 length prefix wraps).  encodeString writes the number
    of UTF-8 bytes of the text modulo 65536 as the prefix, and all the
    bytes after it; decodeString on the result decodes only as many bytes
    as the prefix says.  A text of fewer than 65536 bytes is decoded from
    all of its bytes; a longer one comes back cut to its first
    (length mod 65536) bytes, without an error. *)
Theorem decodeString_encodeString_any_length (str : String.string) :
  let bytes := Protocol.TextEncoder_encode str in
  let n := Z.to_nat (Z.of_nat (length bytes) mod 2 ^ 16) in
  Protocol.decodeString (Protocol.encodeString str) 0
  = Js.Returns (Protocol.TextDecoder_decode (firstn n bytes), (2 + n)%nat).
Proof.
  cbv zeta. unfold Protocol.encodeString, Protocol.decodeString.
  rewrite length_app, length_writeUInt16LE.
  replace (2 + length (Protocol.TextEncoder_encode str) <? 0 + 2)%nat
    with false by (symmetry; apply Nat.ltb_ge; lia).
  cbn [skipn]. rewrite read_writeUInt16LE_mod.
  unfold Bytes.subarray.
  replace (0 + 2
           + Z.to_nat (Z.of_nat (length (Protocol.TextEncoder_encode str))
                       mod 2 ^ 16)
           - (0 + 2))%nat
    with (Z.to_nat (Z.of_nat (length (Protocol.TextEncoder_encode str))
                    mod 2 ^ 16)) by lia.
  reflexivity.
Qed.

(** X11 (a string that claims more than there is).  When the length
    prefix at the offset of a PayloadReader declares more bytes than
    follow it, readString does not throw: it decodes the bytes that are
    there and moves the offset by two plus the declared length, beyond
    the end of the data, so that remaining is negative and the next
    readU8 throws a RangeError. *)
Theorem readString_beyond_the_data
    (pre body : list Byte.byte) (n : Z) :
  Z.of_nat (length body) < n < 2 ^ 16 ->
  let r := {| Protocol.data := pre ++ Bytes.writeUInt16LE n ++ body;
              Protocol.offset := length pre |} in
  exists r' : Protocol.PayloadReader,
    Protocol.readString r
    = Js.Returns (Protocol.TextDecoder_decode body, r')
    /\ Frames.remaining r' = Z.of_nat (length body) - n
    /\ Protocol.readU8 r' = Js.Throws Js.RangeError.
Proof.
  intros Hn r. subst r.
  unfold Protocol.readString, Protocol.decodeString.
  cbn [Protocol.data Protocol.offset].
  rewrite !length_app, length_writeUInt16LE.
  replace (length pre + (2 + length body) <? length pre + 2)%nat
    with false by (symmetry; apply Nat.ltb_ge; lia).
  rewrite skipn_prefix, read_writeUInt16LE by lia.
  unfold Bytes.subarray.
  replace (length pre + 2 + Z.to_nat n - (length pre + 2))%nat
    with (Z.to_nat n) by lia.
  replace (length pre + 2)%nat
    with (length (pre ++ Bytes.writeUInt16LE n))
    by (rewrite length_app, length_writeUInt16LE; reflexivity).
  rewrite app_assoc, skipn_prefix, firstn_all2 by lia.
  eexists. split; [reflexivity | split].
  - unfold Frames.remaining. cbn [Protocol.data Protocol.offset].
    rewrite !length_app, length_writeUInt16LE. lia.
  - unfold Protocol.readU8. cbn [Protocol.data Protocol.offset].
    replace (nth_error _ _) with (@None Byte.byte); [reflexivity | ].
    symmetry. apply nth_error_None.
    rewrite !length_app, length_writeUInt16LE. lia.
Qed.

Lemma readString_beyond_the_data_witness :
  exists r' : Protocol.PayloadReader,
    Protocol.readString
      {| Protocol.data := [x07] ++ Bytes.writeUInt16LE 5 ++ [x68; x69];
         Protocol.offset := length [x07] |}
    = Js.Returns (Protocol.TextDecoder_decode [x68; x69], r')
    /\ Frames.remaining r' = Z.of_nat (length [x68; x69]) - 5
    /\ Protocol.readU8 r' = Js.Throws Js.RangeError.
Proof.
  apply (readString_beyond_the_data [x07] [x68; x69] 5). cbn. lia.
Defined.

(* ================================================================= *)
(** * opcodes.ts, errors.ts *)

Section EnumClaims.
Import String.

(** X12 (opcode names).  No two members of enum OpCode have the same
    value, so the reverse mapping gives each member its own name back:
    for every member, opcodeName of its value is its name; and
    isResponseOpCode holds of the value exactly for the members named
    RESPONSE_... *)
Theorem opcodeName_of_member (name : string) (value : Z) :
  In (name, value) OpCodes.OpCode ->
  OpCodes.opcodeName value = name
  /\ Protocol.isResponseOpCode value = OpCodes.isResponseName name.
Proof.
  intros H. cbv [OpCodes.OpCode] in H.
  repeat (destruct H as [H | H];
          [inversion H; subst; split; vm_compute; reflexivity | ]).
  destruct H.
Qed.

Lemma opcodeName_of_member_witness :
  OpCodes.opcodeName 0x40 = "SYS_PING"%string
  /\ Protocol.isResponseOpCode 0x40 = OpCodes.isResponseName "SYS_PING".
Proof.
  apply (opcodeName_of_member "SYS_PING" 0x40).
  cbv [OpCodes.OpCode]. do 13 right. left. reflexivity.
Defined.

(** X13 (error code names).  For every member of enum ErrorCode,
    errorCodeName of its value is its name, and it is the name that the
    message of a MindFryError carries in brackets for that code. *)
Theorem errorCodeName_of_member (name : string) (value : Z) :
  In (name, value) OpCodes.ErrorCode ->
  OpCodes.errorCodeName value = name
  /\ Protocol.newMindFryError value EmptyString
     = Js.MindFryError value ("[" ++ name ++ "] ").
Proof.
  intros H. cbv [OpCodes.ErrorCode] in H.
  repeat (destruct H as [H | H];
          [inversion H; subst; split; vm_compute; reflexivity | ]).
  destruct H.
Qed.

Lemma errorCodeName_of_member_witness :
  OpCodes.errorCodeName 0x30 = "SNAPSHOT_NOT_FOUND"%string
  /\ Protocol.newMindFryError 0x30 EmptyString
     = Js.MindFryError 0x30 ("[" ++ "SNAPSHOT_NOT_FOUND" ++ "] ").
Proof.
  apply (errorCodeName_of_member "SNAPSHOT_NOT_FOUND" 0x30).
  cbv [OpCodes.ErrorCode]. do 7 right. left. reflexivity.
Defined.

End EnumClaims.

(* ================================================================= *)
(** * pipeline.ts: what the handlers keep *)

Section KeptFacts.
Import Js Bytes Pipeline Invariants.
Variables (cfg : PipelineConfig) (n : nat)
          (ws : list (list byte * (Z * nat))) (m : nat).

Lemma size_delete_le (k : Z) (l : Map PendingRequest) :
  (size (delete k l) <= size l)%nat.
Proof. apply filter_length_le. Qed.

Lemma Kept_pending (w : World) (l : Map PendingRequest) :
  (size l <= size (pending (pipeline w)))%nat ->
  Kept cfg n ws m w -> Kept cfg n ws m (set_pending l w).
Proof.
  destruct w as [[sq pd dc cf tc] ls pr cl sw wn].
  unfold Kept. unfold_world. intros Hl (Hc & Hn & Hw & Hm).
  repeat split; try assumption. lia.
Qed.

Lemma Kept_calls (w : World) (cs : list (nat * Settlement)) :
  Kept cfg n ws m w -> Kept cfg n ws m (add_calls cs w).
Proof.
  destruct w as [[sq pd dc cf tc] ls pr cl sw wn].
  unfold Kept. unfold_world. tauto.
Qed.

Lemma Kept_call (w : World) (p : nat) (s : Settlement) :
  Kept cfg n ws m w -> Kept cfg n ws m (call p s w).
Proof. apply (Kept_calls w [(p, s)]). Qed.

Lemma Kept_warn (w : World) (msg : String.string) :
  Kept cfg n ws m w -> Kept cfg n ws m (console_warn msg w).
Proof.
  destruct w as [[sq pd dc cf tc] ls pr cl sw wn].
  unfold Kept. unfold_world. tauto.
Qed.

Lemma Kept_decoder (d : Framer.FrameDecoder) (w : World) :
  Kept cfg n ws m w -> Kept cfg n ws m (set_decoder d w).
Proof.
  destruct w as [[sq pd dc cf tc] ls pr cl sw wn].
  unfold Kept. unfold_world. tauto.
Qed.

Lemma Kept_listening (l : bool) (w : World) :
  Kept cfg n ws m w -> Kept cfg n ws m (set_listening l w).
Proof.
  destruct w as [[sq pd dc cf tc] ls pr cl sw wn].
  unfold Kept. unfold_world. tauto.
Qed.

Lemma Kept_timeoutChecker (t : bool) (w : World) :
  Kept cfg n ws m w -> Kept cfg n ws m (set_timeoutChecker t w).
Proof.
  destruct w as [[sq pd dc cf tc] ls pr cl sw wn].
  unfold Kept. unfold_world. tauto.
Qed.

Lemma handleFrame_kept (payload : list byte) (w w' : World) :
  Kept cfg n ws m w -> handleFrame payload w = Normal w' ->
  Kept cfg n ws m w'.
Proof.
  intros HK H. unfold handleFrame in H.
  destruct (length payload <? 1)%nat.
  { inversion H; subst. apply Kept_warn, HK. }
  destruct (first (pending (pipeline w))) as [[k r] | ];
    [ | inversion H; subst; apply Kept_warn, HK].
  cbv zeta in H.
  assert (HK' : Kept cfg n ws m
                  (set_pending (delete k (pending (pipeline w))) w))
    by (apply Kept_pending; [apply size_delete_le | exact HK]).
  destruct (_ =? Protocol.RESPONSE_ERROR).
  - destruct (Protocol.readU8 _) as [[c rd] | ]; [ | discriminate].
    destruct (Protocol.readString rd) as [[msg rd'] | ]; [ | discriminate].
    inversion H; subst. apply Kept_call, HK'.
  - inversion H; subst. apply Kept_call, HK'.
Qed.

Lemma rejectAllPending_kept (err : Error) (w : World) :
  Kept cfg n ws m w -> Kept cfg n ws m (rejectAllPending err w).
Proof.
  intros HK. rewrite rejectAllPending_eq.
  apply Kept_pending; [cbn; lia | apply Kept_calls, HK].
Qed.

Lemma destroy_kept (w : World) :
  Kept cfg n ws m w -> Kept cfg n ws m (destroy w).
Proof.
  intros HK. rewrite destroy_eq.
  apply Kept_pending; [cbn; lia | ].
  apply Kept_calls, Kept_decoder, Kept_listening, Kept_timeoutChecker, HK.
Qed.

Lemma add_calls_pending (cs : list (nat * Settlement)) (w : World) :
  pending (pipeline (add_calls cs w)) = pending (pipeline w).
Proof. reflexivity. Qed.

Lemma timeoutCheck_kept (now : Z) (w : World) :
  Kept cfg n ws m w -> Kept cfg n ws m (timeoutCheck now w).
Proof.
  intros HK. rewrite timeoutCheck_sweep. cbv zeta. rewrite sweep_fold.
  apply Kept_pending; [ | apply Kept_calls, HK].
  rewrite add_calls_pending, sweepKeys_fold. apply filter_length_le.
Qed.

Lemma writeCallback_kept (i : nat) (err : option Error) (w : World) :
  Kept cfg n ws m w -> Kept cfg n ws m (writeCallback i err w).
Proof.
  intros HK. unfold writeCallback.
  destruct (nth_error (socketWrites w) i) as [[f [k p]] | ]; [ | exact HK].
  destruct err as [e | ]; [ | exact HK].
  apply Kept_call, Kept_pending; [apply size_delete_le | exact HK].
Qed.

Lemma socketData_kept (chunk : list byte) (w w' : World) :
  Kept cfg n ws m w -> socketData chunk w = Normal w' -> Kept cfg n ws m w'.
Proof.
  intros HK H.
  apply (socketData_keeps (Kept cfg n ws m) chunk w w'); try assumption.
  - intros payload s s'. apply handleFrame_kept.
  - intros err s. apply rejectAllPending_kept.
  - intros d s. apply Kept_decoder.
Qed.

(** Every event other than a call of [send] keeps the configuration, the
    promises and the writes, and does not add to the pending map. *)
Lemma step_kept (ev : Event) (w w' : World) :
  (forall frame opcode now, ev <> Send frame opcode now) ->
  Kept cfg n ws m w -> step ev w = Normal w' -> Kept cfg n ws m w'.
Proof.
  intros Hev HK Hs.
  destruct ev as [frame opcode now | i err | chunk | err | | now | ];
    cbn [step] in Hs.
  - destruct (Hev frame opcode now eq_refl).
  - inversion Hs; subst. apply writeCallback_kept, HK.
  - eapply socketData_kept; eassumption.
  - inversion Hs; subst. apply rejectAllPending_kept, HK.
  - inversion Hs; subst. apply rejectAllPending_kept, HK.
  - inversion Hs; subst.
    destruct (timeoutChecker (pipeline w));
      [apply timeoutCheck_kept, HK | exact HK].
  - inversion Hs; subst. apply destroy_kept, HK.
Qed.

End KeptFacts.

Section BoundFacts.
Import Js Bytes Pipeline Invariants.

Lemma size_set_le (k : Z) (v : PendingRequest) (l : Map PendingRequest) :
  (size (set k v l) <= Datatypes.S (size l))%nat.
Proof.
  induction l as [ | [k' v'] l IH]; cbn [set size length]; [lia | ].
  destruct (k' =? k); cbn [length]; unfold size in IH; lia.
Qed.

Lemma send_config (frame : list byte) (opcode now : Z) (w : World) :
  config (pipeline (send frame opcode now w)) = config (pipeline w).
Proof.
  destruct (Z.le_gt_cases (maxPending (config (pipeline w)))
              (Z.of_nat (size (pending (pipeline w))))) as [Hfull | Hroom].
  - rewrite send_rejected by exact Hfull. reflexivity.
  - rewrite send_accepted by lia. reflexivity.
Qed.

Lemma send_bound (frame : list byte) (opcode now : Z) (w : World) :
  Z.of_nat (size (pending (pipeline w)))
  <= Z.max 0 (maxPending (config (pipeline w))) ->
  Z.of_nat (size (pending (pipeline (send frame opcode now w))))
  <= Z.max 0 (maxPending (config (pipeline w))).
Proof.
  intros Hb.
  destruct (Z.le_gt_cases (maxPending (config (pipeline w)))
              (Z.of_nat (size (pending (pipeline w))))) as [Hfull | Hroom].
  - destruct (send_rejected_fields frame opcode now w Hfull) as (Hp & _).
    rewrite Hp. exact Hb.
  - destruct (send_accepted_fields frame opcode now w ltac:(lia))
      as (Hp & _).
    rewrite Hp.
    pose proof (size_set_le
                  (ToInt32 (sequenceId (pipeline w) + 1))
                  {| promise := promises w; opcode := opcode;
                     timestamp := now |}
                  (pending (pipeline w))).
    lia.
Qed.

Lemma step_bound (ev : Event) (w w' : World) :
  step ev w = Normal w' ->
  Z.of_nat (size (pending (pipeline w)))
  <= Z.max 0 (maxPending (config (pipeline w))) ->
  config (pipeline w') = config (pipeline w)
  /\ Z.of_nat (size (pending (pipeline w')))
     <= Z.max 0 (maxPending (config (pipeline w))).
Proof.
  intros Hs Hb.
  destruct ev as [frame opcode now | i err | chunk | err | | now | ].
  1: { cbn [step] in Hs. inversion Hs; subst.
       split; [apply send_config | apply send_bound, Hb]. }
  all: assert (HK : Kept (config (pipeline w)) (promises w) (socketWrites w)
                      (size (pending (pipeline w))) w')
         by (eapply step_kept; [ | | exact Hs];
             [intros; discriminate
             | repeat split; reflexivity || apply Nat.le_refl]);
       destruct HK as (Hc & _ & _ & Hm); split; [exact Hc | lia].
Qed.

Lemma run_bound (evs : list Event) :
  forall w w' : World,
    run evs w = Normal w' ->
    Z.of_nat (size (pending (pipeline w)))
    <= Z.max 0 (maxPending (config (pipeline w))) ->
    config (pipeline w') = config (pipeline w)
    /\ Z.of_nat (size (pending (pipeline w')))
       <= Z.max 0 (maxPending (config (pipeline w))).
Proof.
  induction evs as [ | ev evs IH]; intros w w' Hr Hb.
  - inversion Hr; subst. split; [reflexivity | exact Hb].
  - cbn [run] in Hr. destruct (step ev w) as [w1 | e w1] eqn:Es;
      [ | discriminate].
    destruct (step_bound ev w w1 Es Hb) as [Hc1 Hb1].
    rewrite <- Hc1 in Hb1.
    destruct (IH w1 w' Hr Hb1) as [Hc' Hb'].
    rewrite Hc1 in Hc', Hb'. split; assumption.
Qed.

End BoundFacts.

(** X14 (the bound of backpressure).  For a pipeline whose maxPending
    is an integer: from any state with at most max(0, maxPending) pending
    requests (an empty pending map, as after construction, is one), every
    run of events in which no handler throws keeps the configuration as
    it is and leaves at most max(0, maxPending) requests pending. *)
Theorem pending_never_exceeds_maxPending
    (w0 : Pipeline.World) (evs : list Pipeline.Event) (w : Pipeline.World) :
  Z.of_nat (Js.size (Pipeline.pending (Pipeline.pipeline w0)))
  <= Z.max 0 (Pipeline.maxPending (Pipeline.config (Pipeline.pipeline w0))) ->
  Pipeline.run evs w0 = Js.Normal w ->
  Pipeline.config (Pipeline.pipeline w) = Pipeline.config (Pipeline.pipeline w0)
  /\ Z.of_nat (Js.size (Pipeline.pending (Pipeline.pipeline w)))
     <= Z.max 0 (Pipeline.maxPending (Pipeline.config (Pipeline.pipeline w0))).
Proof.
  intros Hb Hr. exact (run_bound evs w0 w Hr Hb).
Qed.

Lemma pending_never_exceeds_maxPending_witness :
  let w0 := Pipeline.new {| Pipeline.timeout_opt := None;
                            Pipeline.maxPending_opt := Some 2;
                            Pipeline.maxFrameSize_opt := None |} in
  let evs := [Pipeline.Send [x01] 0x40 0; Pipeline.Send [x02] 0x40 1;
              Pipeline.Send [x03] 0x40 2;
              Pipeline.SocketData [x01; x00; x00; x00; xf0];
              Pipeline.Send [x04] 0x40 3] in
  Pipeline.config (Pipeline.pipeline (Js.state (Pipeline.run evs w0)))
  = Pipeline.config (Pipeline.pipeline w0)
  /\ Z.of_nat
       (Js.size
          (Pipeline.pending
             (Pipeline.pipeline (Js.state (Pipeline.run evs w0)))))
     <= Z.max 0 (Pipeline.maxPending (Pipeline.config (Pipeline.pipeline w0))).
Proof.
  apply (pending_never_exceeds_maxPending
           (Pipeline.new {| Pipeline.timeout_opt := None;
                            Pipeline.maxPending_opt := Some 2;
                            Pipeline.maxFrameSize_opt := None |})
           [Pipeline.Send [x01] 0x40 0; Pipeline.Send [x02] 0x40 1;
            Pipeline.Send [x03] 0x40 2;
            Pipeline.SocketData [x01; x00; x00; x00; xf0];
            Pipeline.Send [x04] 0x40 3]).
  - vm_compute. discriminate.
  - vm_compute. reflexivity.
Defined.

(** X15 (the timeout sweep).  In every state a pipeline reaches with at
    most 2^32 requests written, one run of the interval function at time
    [now] rejects the pending requests with now - timestamp > timeout,
    and only those, oldest first, each with the error "Request timeout
    after <timeout>ms", and removes them from the pending map; the other
    entries, a request exactly timeout milliseconds old among them, stay
    in their order, and nothing else changes. *)
Theorem timeout_sweep_rejects_the_expired
    (c : Pipeline.PartialConfig) (evs : list Pipeline.Event)
    (w : Pipeline.World) (now : Z) :
  Pipeline.run evs (Pipeline.new c) = Js.Normal w ->
  Z.of_nat (length (Pipeline.socketWrites w)) <= 2 ^ 32 ->
  Pipeline.timeoutChecker (Pipeline.pipeline w) = true ->
  let t := Pipeline.timeout (Pipeline.mergeConfig c) in
  let old := Pipeline.pending (Pipeline.pipeline w) in
  Pipeline.step (Pipeline.Timer now) w
  = Js.Normal
      (Pipeline.set_pending
         (filter (fun e => negb (Pipeline.expired t now e)) old)
         (Pipeline.add_calls
            (map (Pipeline.rejection (Js.RequestTimeout t))
               (filter (Pipeline.expired t now) old))
            w)).
Proof.
  intros Hr Hb Ht. cbv zeta. cbn [Pipeline.step]. rewrite Ht.
  assert (Hc : Pipeline.Coherent w)
    by (apply (run_coherent evs (Pipeline.new c) w);
        [apply new_coherent | exact Hr | exact Hb]).
  destruct (run_bound evs (Pipeline.new c) w Hr ltac:(cbn; lia)) as [Hcfg _].
  rewrite timeoutCheck_eq by apply (Pipeline.coh_keys w Hc).
  cbv zeta. rewrite Hcfg. reflexivity.
Qed.

Lemma timeout_sweep_rejects_the_expired_witness :
  let w := Pipeline.sendAll [([x01], 0x40, 0); ([x02], 0x41, 1);
                             ([x03], 0x42, 5)]
             (Pipeline.new Pipeline.noConfig) in
  Pipeline.step (Pipeline.Timer 30001) w
  = Js.Normal
      (Pipeline.set_pending
         (filter (fun e => negb (Pipeline.expired 30000 30001 e))
            (Pipeline.pending (Pipeline.pipeline w)))
         (Pipeline.add_calls
            (map (Pipeline.rejection (Js.RequestTimeout 30000))
               (filter (Pipeline.expired 30000 30001)
                  (Pipeline.pending (Pipeline.pipeline w))))
            w)).
Proof.
  apply (timeout_sweep_rejects_the_expired Pipeline.noConfig
           [Pipeline.Send [x01] 0x40 0; Pipeline.Send [x02] 0x41 1;
            Pipeline.Send [x03] 0x42 5]).
  - vm_compute. reflexivity.
  - vm_compute. discriminate.
  - vm_compute. reflexivity.
Defined.

Section AccountedFacts.
Import Js Bytes Pipeline Invariants.

Lemma Accounted_grows (w w' : World) :
  Accounted w ->
  promises w' = promises w ->
  socketWrites w' = socketWrites w ->
  (exists more, calls w' = calls w ++ more) ->
  Accounted w'.
Proof.
  unfold Accounted, writtenPromises. intros HA Hp Hw [more Hc] p Hlt.
  rewrite Hp in Hlt. rewrite Hw, Hc, map_app.
  destruct (HA p Hlt) as [H | H]; [left; exact H | right].
  apply in_or_app. left. exact H.
Qed.

Lemma send_accounted (frame : list byte) (opcode now : Z) (w : World) :
  Accounted w -> Accounted (send frame opcode now w).
Proof.
  unfold Accounted, writtenPromises. intros HA p Hlt.
  destruct (Z.le_gt_cases (maxPending (config (pipeline w)))
              (Z.of_nat (size (pending (pipeline w))))) as [Hfull | Hroom].
  - destruct (send_rejected_fields frame opcode now w Hfull)
      as (_ & Hw & Hc & Hp).
    rewrite Hp in Hlt. rewrite Hw, Hc, map_app.
    destruct (Nat.eq_dec p (promises w)) as [-> | Hne].
    + right. apply in_or_app. right. left. reflexivity.
    + destruct (HA p ltac:(lia)) as [H | H]; [left; exact H | right].
      apply in_or_app. left. exact H.
  - destruct (send_accepted_fields frame opcode now w ltac:(lia))
      as (_ & _ & Hw & Hc & Hp).
    rewrite Hp in Hlt. rewrite Hw, Hc, map_app.
    destruct (Nat.eq_dec p (promises w)) as [-> | Hne].
    + left. apply in_or_app. right. left. reflexivity.
    + destruct (HA p ltac:(lia)) as [H | H]; [left | right; exact H].
      apply in_or_app. left. exact H.
Qed.

Lemma step_accounted (ev : Event) (w w' : World) :
  Accounted w -> step ev w = Normal w' -> Accounted w'.
Proof.
  intros HA Hs.
  destruct ev as [frame opcode now | i err | chunk | err | | now | ].
  1: { cbn [step] in Hs. inversion Hs; subst. apply send_accounted, HA. }
  all: assert (HK : Kept (config (pipeline w)) (promises w) (socketWrites w)
                      (size (pending (pipeline w))) w')
         by (eapply step_kept; [ | | exact Hs];
             [intros; discriminate
             | repeat split; reflexivity || apply Nat.le_refl]);
       destruct HK as (_ & Hp & Hw & _);
       destruct (step_extends _ w w' Hs) as (_ & Hc & _);
       exact (Accounted_grows w w' HA Hp Hw Hc).
Qed.

Lemma run_accounted (evs : list Event) :
  forall w w' : World,
    Accounted w -> run evs w = Normal w' -> Accounted w'.
Proof.
  induction evs as [ | ev evs IH]; intros w w' HA Hr.
  - inversion Hr; subst. exact HA.
  - cbn [run] in Hr. destruct (step ev w) as [w1 | e w1] eqn:Es;
      [ | discriminate].
    exact (IH w1 w' (step_accounted ev w w1 HA Es) Hr).
Qed.

Lemma new_accounted (c : PartialConfig) : Accounted (new c).
Proof. intros p Hlt. cbn in Hlt. lia. Qed.

(** With nothing pending, every promise made is settled. *)
Lemma settled_when_idle (w : World) :
  Coherent w -> Accounted w -> pending (pipeline w) = [] ->
  forall p : nat, (p < promises w)%nat -> promiseState (calls w) p <> None.
Proof.
  intros Hc HA Hp p Hlt. apply promiseState_settled.
  destruct (HA p Hlt) as [Hw | Hcall].
  - apply (coh_settled w Hc p Hw).
    unfold pendingPromises. rewrite Hp. intros [].
  - apply invocations_some, Hcall.
Qed.

End AccountedFacts.

(** X16 (no promise is left open by a close).  In every state a
    pipeline reaches from its construction by events none of whose
    handlers threw, with at most 2^32 requests written, after
    rejectAllPending (run by a socket error, a socket close or a decoder
    error) as after destroy, the pending map is empty and every promise
    that send has returned so far is settled.  (A handler that threw, as
    handleFrame does on an error frame it cannot read, has removed an
    entry without settling it; such runs are left out.) *)
Theorem close_settles_every_promise
    (c : Pipeline.PartialConfig) (evs : list Pipeline.Event)
    (w w' : Pipeline.World) :
  Pipeline.run evs (Pipeline.new c) = Js.Normal w ->
  Z.of_nat (length (Pipeline.socketWrites w)) <= 2 ^ 32 ->
  w' = Pipeline.destroy w
  \/ (exists err, w' = Pipeline.rejectAllPending err w) ->
  Pipeline.pending (Pipeline.pipeline w') = []
  /\ forall p : nat,
       (p < Pipeline.promises w')%nat ->
       Pipeline.promiseState (Pipeline.calls w') p <> None.
Proof.
  intros Hr Hb Hw'.
  assert (Hc : Pipeline.Coherent w)
    by (apply (run_coherent evs (Pipeline.new c) w);
        [apply new_coherent | exact Hr | exact Hb]).
  assert (HA : Invariants.Accounted w)
    by (apply (run_accounted evs (Pipeline.new c) w);
        [apply new_accounted | exact Hr]).
  assert (Hidle : Pipeline.pending (Pipeline.pipeline w') = []).
  { destruct Hw' as [-> | [err ->]];
      [rewrite destroy_eq | rewrite rejectAllPending_eq]; reflexivity. }
  split; [exact Hidle | ].
  apply settled_when_idle; [ | | exact Hidle].
  - destruct Hw' as [-> | [err ->]];
      [apply destroy_coherent | apply rejectAllPending_coherent]; exact Hc.
  - destruct Hw' as [-> | [err ->]].
    + apply (step_accounted Pipeline.Destroy w); [exact HA | reflexivity].
    + apply (step_accounted (Pipeline.SocketError err) w);
        [exact HA | reflexivity].
Qed.

Lemma close_settles_every_promise_witness :
  let w := Pipeline.sendAll [([x01], 0x40, 0); ([x02], 0x41, 1)]
             (Pipeline.new Pipeline.noConfig) in
  Pipeline.pending
    (Pipeline.pipeline (Pipeline.rejectAllPending Js.ConnectionClosed w))
  = []
  /\ forall p : nat,
       (p < Pipeline.promises
              (Pipeline.rejectAllPending Js.ConnectionClosed w))%nat ->
       Pipeline.promiseState
         (Pipeline.calls (Pipeline.rejectAllPending Js.ConnectionClosed w)) p
       <> None.
Proof.
  apply (close_settles_every_promise Pipeline.noConfig
           [Pipeline.Send [x01] 0x40 0; Pipeline.Send [x02] 0x41 1]
           (Pipeline.sendAll [([x01], 0x40, 0); ([x02], 0x41, 1)]
              (Pipeline.new Pipeline.noConfig))).
  - vm_compute. reflexivity.
  - vm_compute. discriminate.
  - right. exists Js.ConnectionClosed. reflexivity.
Defined.

(* ================================================================= *)
(** * pipeline.ts: data from the socket *)

Section SocketClaims.
Import Js Bytes Pipeline.

(** X17 (an oversized header on the socket).  When a chunk arrives on an
    empty decoder buffer of a pipeline that was not destroyed and carries
    complete frames followed by a header that declares more than
    maxFrameSize, and handleFrame throws on none of these frames, the
    frames are handled first, in order; then every request still pending
    is rejected with the error "Frame too large: <declared> >
    <maxFrameSize>", oldest first, the pending map is emptied, the rest of
    the chunk is dropped and the buffer of the decoder is left empty.  The
    'data' handler then returns normally. *)
Theorem oversize_header_fails_every_pending_request
    (w w1 : World) (payloads : list (list byte)) (header rest : list byte) :
  let max := Framer.maxFrameSize (decoder (pipeline w)) in
  listening w = true ->
  Framer.buffer (decoder (pipeline w)) = [] ->
  Forall (Framer.wellFormed max) payloads ->
  length header = 4%nat ->
  max < readUInt32LE header ->
  handleFrames payloads w = Normal w1 ->
  socketData (concat (map Framer.frameBytes payloads) ++ header ++ rest) w
  = Normal
      (set_decoder (decoder (pipeline w))
         (set_pending []
            (add_calls
               (map (rejection (FrameTooLarge (readUInt32LE header) max))
                  (pending (pipeline w1)))
               w1))).
Proof.
  intros max Hl Hb Hwf H4 Hbig Hh. subst max.
  unfold socketData, Framer.pushWith. rewrite Hb. cbn [app].
  rewrite (drain_handleFrames _ payloads _ (header ++ rest) w w1 Hl Hwf
             (Nat.le_refl _) Hh).
  rewrite drain_oversize;
    rewrite ?readUInt32LE_header, ?length_app, ?H4 by assumption;
    try lia.
  unfold decoderListeners. rewrite Hl. cbn [Framer.onError fst snd].
  rewrite rejectAllPending_eq.
  destruct (decoder (pipeline w)) as [buf mx]. cbn in Hb. subst buf.
  reflexivity.
Qed.

Lemma oversize_header_fails_every_pending_request_witness :
  let w := sendAll [([x01], 0x40, 0); ([x02], 0x41, 1); ([x03], 0x42, 2)]
             (new {| timeout_opt := None; maxPending_opt := None;
                     maxFrameSize_opt := Some 100 |}) in
  let w1 := state (handleFrames [[xf0; x07]] w) in
  socketData
    (concat (map Framer.frameBytes [[xf0; x07]])
     ++ [xc8; x00; x00; x00] ++ [x09])
    w
  = Normal
      (set_decoder (decoder (pipeline w))
         (set_pending []
            (add_calls
               (map (rejection
                       (FrameTooLarge (readUInt32LE [xc8; x00; x00; x00])
                          (Framer.maxFrameSize (decoder (pipeline w)))))
                  (pending (pipeline w1)))
               w1))).
Proof.
  apply (oversize_header_fails_every_pending_request
           (sendAll [([x01], 0x40, 0); ([x02], 0x41, 1); ([x03], 0x42, 2)]
              (new {| timeout_opt := None; maxPending_opt := None;
                      maxFrameSize_opt := Some 100 |}))
           _ [[xf0; x07]] [xc8; x00; x00; x00] [x09]).
  - vm_compute. reflexivity.
  - vm_compute. reflexivity.
  - apply Forall_cons; [split; vm_compute; first [discriminate | reflexivity] | apply Forall_nil].
  - reflexivity.
  - vm_compute. reflexivity.
  - vm_compute. reflexivity.
Defined.

End SocketClaims.

Section ExchangeClaims.
Import Js Bytes Pipeline.

(** X18 (one request, one response).  On a pipeline with nothing
    pending, an empty decoder buffer and room for a request, send writes
    the frame to the socket, and when the bytes of
    encodeFrame(tag, body), for a tag other than RESPONSE_ERROR and a
    frame within maxFrameSize, then arrive in one chunk, the promise that
    send returned is resolved with body, exactly; nothing stays
    pending. *)
Theorem response_resolves_the_request
    (w : World) (frame : list byte) (opcode now tag : Z)
    (body : list byte) :
  listening w = true ->
  pending (pipeline w) = [] ->
  Framer.buffer (decoder (pipeline w)) = [] ->
  0 < maxPending (config (pipeline w)) ->
  1 + Z.of_nat (length body) <= Framer.maxFrameSize (decoder (pipeline w)) ->
  1 + Z.of_nat (length body) < 2 ^ 32 ->
  tag mod 256 <> Protocol.RESPONSE_ERROR ->
  exists w' : World,
    socketData (Protocol.encodeFrame tag body) (send frame opcode now w)
    = Normal w'
    /\ pending (pipeline w') = []
    /\ calls w' = calls w ++ [(promises w, Resolved body)]
    /\ map fst (socketWrites w') = map fst (socketWrites w) ++ [frame].
Proof.
  intros Hl Hp Hb Hroom Hmax H32 Htag.
  assert (Hsize : Z.of_nat (size (pending (pipeline w)))
                  < maxPending (config (pipeline w)))
    by (rewrite Hp; cbn; lia).
  destruct (send_accepted_fields frame opcode now w Hsize)
    as (Hp1 & _ & Hw1 & Hc1 & _).
  cbv zeta in Hp1, Hw1. rewrite Hp in Hp1. cbn [set] in Hp1.
  set (w1 := send frame opcode now w) in *.
  assert (Hl1 : listening w1 = true).
  { subst w1. rewrite send_accepted by exact Hsize. exact Hl. }
  assert (Hd1 : decoder (pipeline w1) = decoder (pipeline w)).
  { subst w1. rewrite send_accepted by exact Hsize. reflexivity. }
  set (seqId := ToInt32 (sequenceId (pipeline w) + 1)) in *.
  set (req := {| promise := promises w; opcode := opcode;
                 timestamp := now |}) in *.
  assert (Hh : handleFrames [of_Z tag :: body] w1
               = Normal (call (promises w) (Resolved body)
                           (set_pending (delete seqId (pending (pipeline w1)))
                              w1))).
  { cbn [handleFrames].
    rewrite (handleFrame_oldest (of_Z tag :: body) w1 seqId req []
               ltac:(discriminate) Hp1).
    cbv zeta. rewrite readResponse_success by (rewrite to_Z_of_Z; exact Htag).
    reflexivity. }
  pose proof (socketData_handleFrames [of_Z tag :: body] w1 _ Hl1
                ltac:(rewrite Hd1; exact Hb)
                ltac:(rewrite Hd1; repeat constructor; cbn [length]; lia)
                Hh) as Hs.
  cbn [map concat] in Hs. rewrite app_nil_r in Hs.
  rewrite <- encodeFrame_wire in Hs.
  eexists. split; [exact Hs | ].
  rewrite Hp1. unfold delete. cbn [filter fst]. rewrite Z.eqb_refl.
  cbn [negb].
  clearbody w1. clear Hs Hh Hd1 Hl1 Hp1.
  destruct w1 as [[sq pd dc cf tc] ls pr cl sw wn].
  cbn [calls socketWrites] in Hc1, Hw1. subst cl sw.
  unfold_world. rewrite map_app. repeat split.
Qed.

Lemma response_resolves_the_request_witness :
  exists w' : World,
    socketData (Protocol.encodeFrame 0xf0 [x07; x08])
      (send [x01; x00; x00; x00; x40] 0x40 0 (new noConfig))
    = Normal w'
    /\ pending (pipeline w') = []
    /\ calls w'
       = calls (new noConfig)
         ++ [(promises (new noConfig), Resolved [x07; x08])]
    /\ map fst (socketWrites w')
       = map fst (socketWrites (new noConfig))
         ++ [[x01; x00; x00; x00; x40]].
Proof.
  apply (response_resolves_the_request (new noConfig)
           [x01; x00; x00; x00; x40] 0x40 0 0xf0 [x07; x08]);
    vm_compute; first [reflexivity | discriminate].
Defined.

(** X19 (after destroy).  destroy removes the listeners of the decoder
    and clears the interval but leaves the pipeline open to send: a
    request sent afterwards is accepted and written to the socket (when
    maxPending is positive), and after any such requests no data from the
    socket, whatever it is, and no tick of the timer changes anything but
    the buffer of the decoder.  A request sent after destroy is never
    answered and never times out. *)
Theorem after_destroy_nothing_answers
    (w : World) (reqs : list (list byte * Z * Z)) :
  let w1 := sendAll reqs (destroy w) in
  (forall (chunk : list byte) (w2 : World),
      socketData chunk w1 = Normal w2 ->
      exists d : Framer.FrameDecoder, w2 = set_decoder d w1)
  /\ (forall now : Z, step (Timer now) w1 = Normal w1)
  /\ (forall (frame : list byte) (opcode now : Z),
        0 < maxPending (config (pipeline w)) ->
        size (pending (pipeline (send frame opcode now (destroy w)))) = 1%nat
        /\ map fst (socketWrites (send frame opcode now (destroy w)))
           = map fst (socketWrites w) ++ [frame]).
Proof.
  cbv zeta.
  assert (Hopen : forall (frame : list byte) (opcode now : Z),
             0 < maxPending (config (pipeline w)) ->
             size (pending (pipeline (send frame opcode now (destroy w))))
             = 1%nat
             /\ map fst (socketWrites (send frame opcode now (destroy w)))
                = map fst (socketWrites w) ++ [frame]).
  { intros frame opcode now Hroom.
    assert (Hp : pending (pipeline (destroy w)) = [])
      by (rewrite destroy_eq; reflexivity).
    assert (Hcfg : config (pipeline (destroy w)) = config (pipeline w))
      by (rewrite destroy_eq; reflexivity).
    assert (Hws : socketWrites (destroy w) = socketWrites w)
      by (rewrite destroy_eq; reflexivity).
    destruct (send_accepted_fields frame opcode now (destroy w))
      as (Hp1 & _ & Hw1 & _).
    { rewrite Hp, Hcfg. cbn. lia. }
    cbv zeta in Hp1, Hw1. rewrite Hp in Hp1. cbn [set] in Hp1.
    rewrite Hp1, Hw1, Hws, map_app. split; reflexivity. }
  assert (Hoff : forall w0 : World,
             listening w0 = false /\ timeoutChecker (pipeline w0) = false ->
             listening (sendAll reqs w0) = false
             /\ timeoutChecker (pipeline (sendAll reqs w0)) = false).
  { induction reqs as [ | [[f o] t] reqs IH]; intros w0 H; [exact H | ].
    cbn [sendAll]. apply IH.
    destruct (Z.le_gt_cases (maxPending (config (pipeline w0)))
                (Z.of_nat (size (pending (pipeline w0))))) as [Hfull | Hroom].
    - rewrite send_rejected by exact Hfull. exact H.
    - rewrite send_accepted by lia. exact H. }
  destruct (Hoff (destroy w)) as [Hl Ht].
  { rewrite destroy_eq. split; reflexivity. }
  clear Hoff. set (w1 := sendAll reqs (destroy w)) in *.
  split.
  - intros chunk w2 Hs. unfold socketData in Hs.
    destruct (Framer.pushWith _ chunk _ w1) as [d r] eqn:Ep.
    cbn [fst snd] in Hs. destruct r as [w3 | e w3]; [ | discriminate].
    inversion Hs; subst w2. exists d. f_equal.
    unfold Framer.pushWith in Ep. inversion Ep as [[Hbuf Hr]].
    match type of Hr with
    | snd ?x = _ => destruct x as [buf' r] eqn:Edrain
    end.
    cbn [snd] in Hr. subst r.
    apply (drain_preserves (fun s => s = w1) _ _ _) in Edrain;
      [exact Edrain | | | reflexivity].
    + unfold decoderListeners. rewrite Hl. cbn [Framer.onFrame].
      intros payload s s' -> H. inversion H. reflexivity.
    + unfold decoderListeners. rewrite Hl. cbn [Framer.onError].
      intros err s s' _ H. discriminate.
  - split; [ | exact Hopen].
    intros now. cbn [step]. rewrite Ht. reflexivity.
Qed.

(** X20 (an oversized header after destroy).  Once the listeners of the
    decoder are removed, a header that declares more than maxFrameSize at
    the head of the bytes to decode makes the 'data' handler throw the
    error "Frame too large", the error event having no listener; the
    buffer is not cleared, it keeps the bytes with the new chunk, so that
    every later 'data' event throws again. *)
Theorem oversize_header_after_destroy_throws
    (w : World) (chunk : list byte) :
  let d := decoder (pipeline w) in
  let buf := Framer.buffer d ++ chunk in
  listening w = false ->
  (4 <= length buf)%nat ->
  Framer.maxFrameSize d < readUInt32LE buf ->
  socketData chunk w
  = Throw (FrameTooLarge (readUInt32LE buf) (Framer.maxFrameSize d))
      (set_decoder (Framer.with_buffer buf d) w).
Proof.
  cbv zeta. intros Hl H4 Hbig.
  unfold socketData, Framer.pushWith. cbv zeta.
  rewrite drain_oversize by (assumption || lia).
  unfold decoderListeners. rewrite Hl. reflexivity.
Qed.

Lemma oversize_header_after_destroy_throws_witness :
  let w := destroy (new {| timeout_opt := None; maxPending_opt := None;
                           maxFrameSize_opt := Some 100 |}) in
  socketData [xc8; x00; x00; x00; x01] w
  = Throw (FrameTooLarge 200 100)
      (set_decoder
         {| Framer.buffer := [xc8; x00; x00; x00; x01];
            Framer.maxFrameSize := 100 |} w).
Proof.
  apply (oversize_header_after_destroy_throws
           (destroy (new {| timeout_opt := None; maxPending_opt := None;
                            maxFrameSize_opt := Some 100 |}))
           [xc8; x00; x00; x00; x01]).
  - reflexivity.
  - cbn. lia.
  - cbn. lia.
Defined.

End ExchangeClaims.

Section FailureClaims.
Import Js Bytes Pipeline.

(** X21 (a failed write).  In every state a pipeline reaches with at
    most 2^32 requests written, the callback of a socket.write that
    reports an error removes from the pending map the entry of the
    request that was written, if it is still there, and no other entry:
    the sequence number it closes over designates no other request.  It
    then calls reject on that request with the error. *)
Theorem write_error_removes_its_own_request
    (c : PartialConfig) (evs : list Event) (w : World)
    (i : nat) (frame : list byte) (seqId : Z) (p : nat) (err : Error) :
  run evs (new c) = Normal w ->
  Z.of_nat (length (socketWrites w)) <= 2 ^ 32 ->
  nth_error (socketWrites w) i = Some (frame, (seqId, p)) ->
  writeCallback i (Some err) w
  = call p (Rejected err)
      (set_pending
         (filter (fun e => negb (Nat.eqb (promise (snd e)) p))
            (pending (pipeline w)))
         w).
Proof.
  intros Hr Hb Hi.
  assert (Hc : Coherent w)
    by (apply (run_coherent evs (new c) w);
        [apply new_coherent | exact Hr | exact Hb]).
  unfold writeCallback. rewrite Hi. f_equal. f_equal.
  unfold delete. apply filter_ext_in. intros e He. f_equal.
  pose proof (coh_written w Hc e He) as Hin.
  apply in_map_iff in Hin as (y & Hy & Hyin).
  pose proof (nth_error_In _ _ Hi) as Hxin.
  destruct (Z.eqb_spec (fst e) seqId) as [Hk | Hk];
    destruct (Nat.eqb_spec (promise (snd e)) p) as [Hp | Hp];
    try reflexivity; exfalso.
  - apply Hp.
    assert (Hxy : y = (frame, (seqId, p))).
    { apply (writeKey_inj w); try assumption.
      unfold writeKey. rewrite Hy. exact Hk. }
    subst y. cbn [snd] in Hy. inversion Hy. reflexivity.
  - apply Hk.
    assert (Hxy : y = (frame, (seqId, p))).
    { apply (writePromise_inj w); try assumption.
      unfold writePromise. rewrite Hy. exact Hp. }
    subst y. cbn [snd] in Hy. inversion Hy. reflexivity.
Qed.

Lemma write_error_removes_its_own_request_witness :
  let w := sendAll [([x01], 0x40, 0); ([x02], 0x41, 1)] (new noConfig) in
  writeCallback 1 (Some ConnectionClosed) w
  = call 1%nat (Rejected ConnectionClosed)
      (set_pending
         (filter (fun e => negb (Nat.eqb (promise (snd e)) 1))
            (pending (pipeline w)))
         w).
Proof.
  apply (write_error_removes_its_own_request noConfig
           [Send [x01] 0x40 0; Send [x02] 0x41 1]
           (sendAll [([x01], 0x40, 0); ([x02], 0x41, 1)] (new noConfig))
           1 [x02] 2 1 ConnectionClosed).
  - vm_compute. reflexivity.
  - vm_compute. discriminate.
  - vm_compute. reflexivity.
Defined.

(** X22 (an error frame that cannot be read).  When the frame at the
    head of the bytes to decode has the tag RESPONSE_ERROR and a body from
    which the error code or the message cannot be read, and a request is
    pending, the 'data' handler throws the RangeError of the read; the
    oldest entry has been removed from the pending map and none of its
    functions was called; and the decoder keeps the frame, with the bytes
    that followed it, so that the next 'data' event meets the same frame
    again. *)
Theorem unreadable_error_frame_is_not_consumed
    (w : World) (chunk payload tail : list byte)
    (k : Z) (req : PendingRequest) (rest : Map PendingRequest) (e : Error) :
  let d := decoder (pipeline w) in
  listening w = true ->
  Framer.buffer d ++ chunk = Framer.frameBytes payload ++ tail ->
  Framer.wellFormed (Framer.maxFrameSize d) payload ->
  payload <> [] ->
  readResponse payload = Throws e ->
  pending (pipeline w) = (k, req) :: rest ->
  socketData chunk w
  = Throw e
      (set_decoder (Framer.with_buffer (Framer.frameBytes payload ++ tail) d)
         (set_pending (delete k (pending (pipeline w))) w)).
Proof.
  cbv zeta. intros Hl Hbuf [Hmax H32] Hne Hread Hp.
  unfold socketData, Framer.pushWith. cbv zeta. rewrite Hbuf.
  rewrite drain_frame by (assumption || lia).
  assert (Hon : Framer.onFrame (decoderListeners w) payload w
                = Throw e (set_pending (delete k (pending (pipeline w))) w)).
  { unfold decoderListeners. rewrite Hl. cbn [Framer.onFrame].
    rewrite (handleFrame_oldest payload w k req rest Hne Hp).
    cbv zeta. rewrite Hread. reflexivity. }
  rewrite Hon. reflexivity.
Qed.

Lemma unreadable_error_frame_is_not_consumed_witness :
  let w := sendAll [([x01], 0x40, 0); ([x02], 0x41, 1)] (new noConfig) in
  socketData [x01; x00; x00; x00; xf1; x09] w
  = Throw RangeError
      (set_decoder
         (Framer.with_buffer (Framer.frameBytes [xf1] ++ [x09])
            (decoder (pipeline w)))
         (set_pending (delete 1 (pending (pipeline w))) w)).
Proof.
  apply (unreadable_error_frame_is_not_consumed
           (sendAll [([x01], 0x40, 0); ([x02], 0x41, 1)] (new noConfig))
           [x01; x00; x00; x00; xf1; x09] [xf1] [x09] 1
           {| promise := 0; opcode := 0x40; timestamp := 0 |}
           [(2, {| promise := 1; opcode := 0x41; timestamp := 1 |})]
           RangeError).
  - vm_compute. reflexivity.
  - vm_compute. reflexivity.
  - split; vm_compute; first [discriminate | reflexivity].
  - discriminate.
  - vm_compute. reflexivity.
  - vm_compute. reflexivity.
Defined.

(** X23 (frames that answer nothing).  With nothing pending, a chunk of
    complete frames within the limit that arrives on an empty decoder
    buffer settles nothing and writes nothing: each frame only adds a
    line to the console, "Received empty frame" for a frame of length
    zero and "Received response with no pending request" for any other,
    an event frame included. *)
Theorem frames_without_a_request_only_warn
    (w : World) (payloads : list (list byte)) :
  listening w = true ->
  Framer.buffer (decoder (pipeline w)) = [] ->
  pending (pipeline w) = [] ->
  Forall (Framer.wellFormed (Framer.maxFrameSize (decoder (pipeline w))))
    payloads ->
  exists w' : World,
    socketData (concat (map Framer.frameBytes payloads)) w = Normal w'
    /\ pipeline w' = pipeline w
    /\ calls w' = calls w
    /\ socketWrites w' = socketWrites w
    /\ warnings w'
       = warnings w
         ++ map (fun payload : list byte =>
                   match payload with
                   | [] => Warn.emptyFrame
                   | _ :: _ => Warn.noPendingRequest
                   end) payloads.
Proof.
  intros Hl Hb Hp Hwf.
  assert (Hh : forall (ps : list (list byte)) (w0 : World),
             pending (pipeline w0) = [] ->
             exists w' : World,
               handleFrames ps w0 = Normal w'
               /\ pipeline w' = pipeline w0
               /\ listening w' = listening w0
               /\ promises w' = promises w0
               /\ calls w' = calls w0
               /\ socketWrites w' = socketWrites w0
               /\ warnings w'
                  = warnings w0
                    ++ map (fun payload : list byte =>
                              match payload with
                              | [] => Warn.emptyFrame
                              | _ :: _ => Warn.noPendingRequest
                              end) ps).
  { induction ps as [ | q ps IH]; intros w0 Hp0.
    - exists w0. cbn [handleFrames map]. rewrite app_nil_r.
      repeat split.
    - cbn [handleFrames].
      assert (Hq : handleFrame q w0
                   = Normal (console_warn
                               match q with
                               | [] => Warn.emptyFrame
                               | _ :: _ => Warn.noPendingRequest
                               end w0)).
      { destruct q as [ | b q]; [reflexivity | ].
        apply handleFrame_unsolicited; [discriminate | exact Hp0]. }
      rewrite Hq.
      destruct (IH (console_warn
                      match q with
                      | [] => Warn.emptyFrame
                      | _ :: _ => Warn.noPendingRequest
                      end w0) Hp0)
        as (w' & H1 & H2 & H3 & H4 & H5 & H6 & H7).
      exists w'. split; [exact H1 | ].
      rewrite H2, H3, H4, H5, H6, H7. cbn [map].
      repeat split. cbn [console_warn warnings]. rewrite <- app_assoc.
      reflexivity. }
  destruct (Hh payloads w Hp) as (w' & H1 & H2 & H3 & H4 & H5 & H6 & H7).
  exists (set_decoder (decoder (pipeline w)) w').
  split; [apply socketData_handleFrames; assumption | ].
  destruct w' as [[sq pd dc cf tc] ls pr cl sw wn].
  destruct w as [[sq0 pd0 dc0 cf0 tc0] ls0 pr0 cl0 sw0 wn0].
  cbn in H2, H5, H6, H7. inversion H2; subst.
  unfold_world. repeat split.
Qed.

Lemma frames_without_a_request_only_warn_witness :
  exists w' : World,
    socketData (concat (map Framer.frameBytes [[xf2; x01]; []]))
      (new noConfig)
    = Normal w'
    /\ pipeline w' = pipeline (new noConfig)
    /\ calls w' = calls (new noConfig)
    /\ socketWrites w' = socketWrites (new noConfig)
    /\ warnings w'
       = warnings (new noConfig)
         ++ map (fun payload : list byte =>
                   match payload with
                   | [] => Warn.emptyFrame
                   | _ :: _ => Warn.noPendingRequest
                   end) [[xf2; x01]; []].
Proof.
  apply (frames_without_a_request_only_warn (new noConfig) [[xf2; x01]; []]).
  - reflexivity.
  - reflexivity.
  - reflexivity.
  - repeat (apply Forall_cons;
            [split; vm_compute; first [discriminate | reflexivity] | ]).
    apply Forall_nil.
Defined.

End FailureClaims.

(** X24 (the sequence numbers).  In every state a pipeline reaches with
    at most 2^32 requests written, the request written i-th (from zero)
    got the sequence number ToInt32(i + 1), and the counter is ToInt32 of
    the number of requests written: the numbers run 1, 2, ..., 2^31 - 1,
    then -2^31, ..., -1, 0, and requests refused by backpressure use
    none. *)
Theorem sequence_numbers_count_the_writes
    (c : Pipeline.PartialConfig) (evs : list Pipeline.Event)
    (w : Pipeline.World) :
  Pipeline.run evs (Pipeline.new c) = Js.Normal w ->
  Z.of_nat (length (Pipeline.socketWrites w)) <= 2 ^ 32 ->
  Pipeline.sequenceId (Pipeline.pipeline w)
  = Js.ToInt32 (Z.of_nat (length (Pipeline.socketWrites w)))
  /\ forall (i : nat) (x : list Byte.byte * (Z * nat)),
       nth_error (Pipeline.socketWrites w) i = Some x ->
       Pipeline.writeKey x = Js.ToInt32 (Z.of_nat i + 1).
Proof.
  intros Hr Hb.
  assert (Hc : Pipeline.Coherent w)
    by (apply (run_coherent evs (Pipeline.new c) w);
        [apply new_coherent | exact Hr | exact Hb]).
  split; [apply Pipeline.coh_sequenceId, Hc | apply Pipeline.coh_writeKeys, Hc].
Qed.

Lemma sequence_numbers_count_the_writes_witness :
  let c := {| Pipeline.timeout_opt := None;
              Pipeline.maxPending_opt := Some 1;
              Pipeline.maxFrameSize_opt := None |} in
  let w := Js.state
             (Pipeline.run
                [Pipeline.Send [x01] 0x40 0; Pipeline.Send [x02] 0x40 1;
                 Pipeline.SocketData [x01; x00; x00; x00; xf0];
                 Pipeline.Send [x03] 0x40 2]
                (Pipeline.new c)) in
  Pipeline.sequenceId (Pipeline.pipeline w)
  = Js.ToInt32 (Z.of_nat (length (Pipeline.socketWrites w)))
  /\ forall (i : nat) (x : list Byte.byte * (Z * nat)),
       nth_error (Pipeline.socketWrites w) i = Some x ->
       Pipeline.writeKey x = Js.ToInt32 (Z.of_nat i + 1).
Proof.
  apply (sequence_numbers_count_the_writes
           {| Pipeline.timeout_opt := None;
              Pipeline.maxPending_opt := Some 1;
              Pipeline.maxFrameSize_opt := None |}
           [Pipeline.Send [x01] 0x40 0; Pipeline.Send [x02] 0x40 1;
            Pipeline.SocketData [x01; x00; x00; x00; xf0];
            Pipeline.Send [x03] 0x40 2]).
  - vm_compute. reflexivity.
  - vm_compute. discriminate.
Defined.

(** X25 (from encodeFrame to the decoder).  For every opcode and
    payload such that the frame is within the limit of the decoder, the
    bytes of encodeFrame(opcode, payload), cut into chunks in any way and
    pushed in order into a fresh FrameDecoder, come out as exactly one
    frame event, whose payload is the opcode byte followed by the
    payload, with no error and nothing left in the buffer. *)
Theorem encoded_frame_survives_any_chunking
    (max opcode : Z) (payload : list Byte.byte)
    (chunks : list (list Byte.byte)) :
  1 + Z.of_nat (length payload) <= max ->
  1 + Z.of_nat (length payload) < 2 ^ 32 ->
  concat chunks = Protocol.encodeFrame opcode payload ->
  Framer.pushAll chunks (Framer.new max)
  = (Framer.new max,
     [Framer.FrameEvent (Bytes.of_Z opcode :: payload)]).
Proof.
  intros Hmax H32 Hcat. rewrite encodeFrame_wire in Hcat.
  apply (pushAll_one_frame max (Bytes.of_Z opcode :: payload) chunks []).
  - split; cbn [length]; lia.
  - exact Hcat.
  - cbn. lia.
Qed.

Lemma encoded_frame_survives_any_chunking_witness :
  Framer.pushAll [[x03; x00]; [x00; x00; x11]; []; [x68]; [x69]]
    (Framer.new 1024)
  = (Framer.new 1024,
     [Framer.FrameEvent (Bytes.of_Z 0x11 :: [x68; x69])]).
Proof.
  apply (encoded_frame_survives_any_chunking 1024 0x11 [x68; x69]);
    [cbn; lia | cbn; lia | reflexivity].
Defined.

(* ================================================================= *)
(** * client.ts: the requests *)

Section ClientFacts.
Import Js Bytes Protocol Frames Client.

Lemma payloadOf_args (r : Request) :
  payloadOf r = build (writeAll (argsOf r) newPayloadBuilder).
Proof. destruct r; reflexivity. Qed.

Lemma encoded_length (v : Value) :
  fits v -> Z.of_nat (length (encoded v)) <= 65537.
Proof.
  destruct v as [n | n | n | s]; cbn [fits]; intros H;
    try (cbn; lia).
  destruct H as (_ & _ & Hlen).
  change (encoded (VString s)) with (encodeString s ++ []).
  rewrite app_nil_r. unfold encodeString.
  rewrite length_app, length_writeUInt16LE.
  change (2 ^ 16) with 65536 in Hlen. lia.
Qed.

Lemma args_length (r : Request) :
  Forall fits (argsOf r) ->
  Z.of_nat (length (concat (map encoded (argsOf r)))) <= 2 * 65537.
Proof.
  intros H.
  assert (Hgen : forall vs, Forall fits vs ->
             Z.of_nat (length (concat (map encoded vs)))
             <= Z.of_nat (length vs) * 65537).
  { induction 1 as [ | v vs Hv _ IH]; [cbn; lia | ].
    cbn [map concat length]. rewrite length_app.
    pose proof (encoded_length v Hv). lia. }
  pose proof (Hgen _ H) as Hb.
  assert (Hn : Z.of_nat (length (argsOf r)) <= 2) by (destruct r; cbn; lia).
  nia.
Qed.

Lemma opcodeOf_byte (r : Request) :
  opcodeOf r mod 256 = opcodeOf r
  /\ isResponseOpCode (opcodeOf r) = false
  /\ In (OpCodes.opcodeName (opcodeOf r), opcodeOf r) OpCodes.OpCode.
Proof.
  destruct r; (split; [reflexivity | split; [reflexivity | ]]);
    vm_compute; repeat (first [left; reflexivity | right]).
Qed.

End ClientFacts.

(** X26 (a request of the client, read by the server).  For every
    method of the client modelled (lineage.forget and touch, bond.sever
    and neighbors, query.topK, pattern and neighbors, system.ping, stats,
    snapshot, restore, freeze and thaw, stream.subscribe and
    unsubscribe), called on a connected client with
    arguments that fit their fields: the method hands to the pipeline the
    frame encodeFrame(opcode, payload) with its own opcode, a member of
    enum OpCode that is not a response opcode; parseFrame reads the opcode
    and the payload back
    from that frame; and a PayloadReader reads the arguments back from the
    payload, in order, with nothing remaining. *)
Theorem client_request_round_trip
    (r : Client.Request) (w : Pipeline.World) (now : Z) :
  Forall Frames.fits (Client.argsOf r) ->
  exists (payload : list Byte.byte) (rd : Protocol.PayloadReader),
    Client.request r (Some w) now
    = Client.Sent
        (Pipeline.send (Protocol.encodeFrame (Client.opcodeOf r) payload)
           (Client.opcodeOf r) now w)
    /\ Protocol.isResponseOpCode (Client.opcodeOf r) = false
    /\ In (OpCodes.opcodeName (Client.opcodeOf r), Client.opcodeOf r)
         OpCodes.OpCode
    /\ Frames.parseFrame (Protocol.encodeFrame (Client.opcodeOf r) payload)
       = Js.Returns
           (Some {| Frames.opcode := Some (Client.opcodeOf r);
                    Frames.payload := payload;
                    Frames.totalLength := 5 + Z.of_nat (length payload) |})
    /\ Frames.readAll (map Frames.kindOf (Client.argsOf r))
         (Protocol.newPayloadReader payload)
       = Js.Returns (Client.argsOf r, rd)
    /\ Frames.remaining rd = 0.
Proof.
  intros Hfit.
  pose proof (writeAll_Built (Client.argsOf r) _ Frames.Built_new) as HB.
  pose proof (build_sized _ (Built_sized _ HB)) as Hbuild.
  rewrite writeAll_chunks in Hbuild. cbn [Frames.chunks app] in Hbuild.
  pose proof (readAll_encoded (Client.argsOf r) [] [] Hfit) as Hread.
  cbn [app length Nat.add] in Hread. rewrite app_nil_r in Hread.
  pose proof (args_length r Hfit) as Hlen.
  destruct (opcodeOf_byte r) as (Hbyte & Hcmd & Hmem).
  set (payload := concat (map Frames.encoded (Client.argsOf r))) in *.
  exists payload. eexists.
  split; [ | split; [exact Hcmd | split; [exact Hmem | split;
                                          [ | split; [exact Hread | ]]]]].
  - unfold Client.request. rewrite payloadOf_args, Hbuild. reflexivity.
  - pose proof (parseFrame_encoded (Client.opcodeOf r) payload []) as Hp.
    rewrite app_nil_r, Hbyte in Hp. apply Hp.
    change Frames.MAX_FRAME_SIZE with 16777216. lia.
  - unfold Frames.remaining. cbn [Protocol.data Protocol.offset]. lia.
Qed.

Section ClientWitness.
Import String.

Lemma client_request_round_trip_witness :
  exists (payload : list Byte.byte) (rd : Protocol.PayloadReader),
    Client.request (Client.BondSever "fire" "heat")
      (Some (Pipeline.new Pipeline.noConfig)) 7
    = Client.Sent
        (Pipeline.send
           (Protocol.encodeFrame
              (Client.opcodeOf (Client.BondSever "fire" "heat")) payload)
           (Client.opcodeOf (Client.BondSever "fire" "heat")) 7
           (Pipeline.new Pipeline.noConfig))
    /\ Protocol.isResponseOpCode
         (Client.opcodeOf (Client.BondSever "fire" "heat")) = false
    /\ In (OpCodes.opcodeName
             (Client.opcodeOf (Client.BondSever "fire" "heat")),
           Client.opcodeOf (Client.BondSever "fire" "heat"))
         OpCodes.OpCode
    /\ Frames.parseFrame
         (Protocol.encodeFrame
            (Client.opcodeOf (Client.BondSever "fire" "heat")) payload)
       = Js.Returns
           (Some {| Frames.opcode :=
                      Some (Client.opcodeOf (Client.BondSever "fire" "heat"));
                    Frames.payload := payload;
                    Frames.totalLength :=
                      5 + Z.of_nat (List.length payload) |})
    /\ Frames.readAll
         (map Frames.kindOf (Client.argsOf (Client.BondSever "fire" "heat")))
         (Protocol.newPayloadReader payload)
       = Js.Returns (Client.argsOf (Client.BondSever "fire" "heat"), rd)
    /\ Frames.remaining rd = 0.
Proof.
  apply (client_request_round_trip (Client.BondSever "fire" "heat")
           (Pipeline.new Pipeline.noConfig) 7).
  repeat (apply Forall_cons;
          [split;
           [repeat (apply Protocol.Utf8_1; [split; cbn; lia | ]);
            apply Protocol.Utf8_nil
           | split; [intros rest; discriminate | cbn; lia]]
          | ]).
  apply Forall_nil.
Defined.

End ClientWitness.

(* ================================================================= *)
(** * frames.ts: numbers beyond the width of their field *)

Section WrapFacts.
Import Js Bytes Protocol Frames.

Lemma of_Z_add_mul (a q : Z) : of_Z (a + q * 256) = of_Z a.
Proof. rewrite <- of_Z_mod, Z.mod_add, of_Z_mod by lia. reflexivity. Qed.

(** setUint32 writes the bytes of the number modulo 2^32. *)
Lemma writeUInt32LE_mod (n : Z) :
  writeUInt32LE (n mod 2 ^ 32) = writeUInt32LE n.
Proof.
  unfold writeUInt32LE.
  pose proof (Z.div_mod n (2 ^ 32) ltac:(lia)) as Hn.
  set (r := n mod 2 ^ 32) in *. set (q := n / 2 ^ 32) in *.
  assert (H0 : n = r + (q * 2 ^ 24) * 256) by lia.
  assert (H1 : n / 2 ^ 8 = r / 2 ^ 8 + (q * 2 ^ 16) * 256).
  { replace n with (r + (q * 2 ^ 16 * 256) * 2 ^ 8) by lia.
    apply Z.div_add. lia. }
  assert (H2 : n / 2 ^ 16 = r / 2 ^ 16 + (q * 2 ^ 8) * 256).
  { replace n with (r + (q * 2 ^ 8 * 256) * 2 ^ 16) by lia.
    apply Z.div_add. lia. }
  assert (H3 : n / 2 ^ 24 = r / 2 ^ 24 + q * 256).
  { replace n with (r + (q * 256) * 2 ^ 24) by lia.
    apply Z.div_add. lia. }
  rewrite H1, H2, H3, H0 at 1.
  rewrite !of_Z_add_mul. reflexivity.
Qed.

Lemma read_writeUInt32LE_mod (n : Z) (rest : list byte) :
  readUInt32LE (writeUInt32LE n ++ rest) = n mod 2 ^ 32.
Proof.
  rewrite <- writeUInt32LE_mod.
  apply read_writeUInt32LE. apply Z.mod_pos_bound. lia.
Qed.

End WrapFacts.

(** X27 (numbers wrap).  The write methods of the builder refuse no
    number: a number outside the width of its field is stored modulo 2^8
    (writeU8, writeI8), 2^16 (writeU16) or 2^32 (writeU32), and that is
    what the matching read returns.  So writeI8(-1) is read by readU8 as
    255, and writeU8(256) is read by readBool as false. *)
Theorem numbers_wrap_to_the_field_width (n : Z) :
  exists b8 bi8 b16 b32 : list Byte.byte,
    Frames.build (Frames.writeU8 n Frames.newPayloadBuilder) = Js.Returns b8
    /\ Frames.build (Frames.writeI8 n Frames.newPayloadBuilder)
       = Js.Returns bi8
    /\ Frames.build (Frames.writeU16 n Frames.newPayloadBuilder)
       = Js.Returns b16
    /\ Frames.build (Frames.writeU32 n Frames.newPayloadBuilder)
       = Js.Returns b32
    /\ Protocol.readU8 (Protocol.newPayloadReader b8)
       = Js.Returns (n mod 2 ^ 8,
                     Frames.advance 1 (Protocol.newPayloadReader b8))
    /\ Protocol.readU8 (Protocol.newPayloadReader bi8)
       = Js.Returns (n mod 2 ^ 8,
                     Frames.advance 1 (Protocol.newPayloadReader bi8))
    /\ Frames.readU16 (Protocol.newPayloadReader b16)
       = Js.Returns (n mod 2 ^ 16,
                     Frames.advance 2 (Protocol.newPayloadReader b16))
    /\ Frames.readU32 (Protocol.newPayloadReader b32)
       = Js.Returns (n mod 2 ^ 32,
                     Frames.advance 4 (Protocol.newPayloadReader b32))
    /\ Frames.readBool (Protocol.newPayloadReader b8)
       = Js.Returns (negb (n mod 2 ^ 8 =? 0),
                     Frames.advance 1 (Protocol.newPayloadReader b8)).
Proof.
  exists [Bytes.of_Z n], [Bytes.of_Z n], (Bytes.writeUInt16LE n),
    (Bytes.writeUInt32LE n).
  do 4 (split; [reflexivity | ]).
  pose proof (read_writeUInt16LE_mod n []) as E16.
  pose proof (read_writeUInt32LE_mod n []) as E32.
  rewrite app_nil_r in E16, E32.
  unfold Frames.readBool, Protocol.readU8, Frames.readU16, Frames.readU32,
    Protocol.newPayloadReader, Frames.advance.
  cbn [Protocol.data Protocol.offset nth_error skipn].
  rewrite to_Z_of_Z, E16, E32.
  change (2 ^ 8) with 256. repeat split.
Qed.

(* ================================================================= *)
(** * pipeline.ts: the order of the pending map *)

Section RemainsFacts.
Import Js Bytes Pipeline Invariants.
Variable l0 : Map PendingRequest.

Lemma Remains_filter (g : Z * PendingRequest -> bool) (w w2 : World) :
  Remains l0 w ->
  Remains l0 (set_pending (filter g (pending (pipeline w))) w2).
Proof.
  intros [f Hf]. exists (fun x => f x && g x).
  change (pending (pipeline (set_pending (filter g (pending (pipeline w))) w2)))
    with (filter g (pending (pipeline w))).
  rewrite Hf. apply filter_twice.
Qed.

Lemma Remains_empty (w2 : World) : Remains l0 (set_pending [] w2).
Proof. exists (fun _ => false). symmetry. apply filter_none. Qed.

Lemma Remains_same (w w' : World) :
  pending (pipeline w') = pending (pipeline w) ->
  Remains l0 w -> Remains l0 w'.
Proof. intros H [f Hf]. exists f. rewrite H. exact Hf. Qed.

Lemma handleFrame_remains (payload : list byte) (w w' : World) :
  Remains l0 w -> handleFrame payload w = Normal w' -> Remains l0 w'.
Proof.
  intros HR H. unfold handleFrame in H.
  destruct (length payload <? 1)%nat.
  { inversion H; subst. exact (Remains_same w _ eq_refl HR). }
  destruct (first (pending (pipeline w))) as [[k r] | ];
    [ | inversion H; subst; exact (Remains_same w _ eq_refl HR)].
  cbv zeta in H.
  assert (HR' : Remains l0 (set_pending (delete k (pending (pipeline w))) w))
    by (apply Remains_filter, HR).
  destruct (_ =? Protocol.RESPONSE_ERROR).
  - destruct (Protocol.readU8 _) as [[c rd] | ]; [ | discriminate].
    destruct (Protocol.readString rd) as [[msg rd'] | ]; [ | discriminate].
    inversion H; subst. exact (Remains_same _ _ eq_refl HR').
  - inversion H; subst. exact (Remains_same _ _ eq_refl HR').
Qed.

Lemma rejectAllPending_remains (err : Error) (w : World) :
  Remains l0 (rejectAllPending err w).
Proof. rewrite rejectAllPending_eq. apply Remains_empty. Qed.

Lemma destroy_remains (w : World) : Remains l0 (destroy w).
Proof. rewrite destroy_eq. apply Remains_empty. Qed.

Lemma timeoutCheck_remains (now : Z) (w : World) :
  Remains l0 w -> Remains l0 (timeoutCheck now w).
Proof.
  intros HR. rewrite timeoutCheck_sweep. cbv zeta. rewrite sweep_fold.
  rewrite sweepKeys_fold.
  apply Remains_filter, HR.
Qed.

Lemma writeCallback_remains (i : nat) (err : option Error) (w : World) :
  Remains l0 w -> Remains l0 (writeCallback i err w).
Proof.
  intros HR. unfold writeCallback.
  destruct (nth_error (socketWrites w) i) as [[f [k p]] | ]; [ | exact HR].
  destruct err as [e | ]; [ | exact HR].
  apply (Remains_same (set_pending (delete k (pending (pipeline w))) w));
    [reflexivity | apply Remains_filter, HR].
Qed.

Lemma step_remains (ev : Event) (w w' : World) :
  (forall frame opcode now, ev <> Send frame opcode now) ->
  Remains l0 w -> step ev w = Normal w' -> Remains l0 w'.
Proof.
  intros Hev HR Hs.
  destruct ev as [frame opcode now | i err | chunk | err | | now | ];
    cbn [step] in Hs.
  - destruct (Hev frame opcode now eq_refl).
  - inversion Hs; subst. apply writeCallback_remains, HR.
  - apply (socketData_keeps (Remains l0) chunk w w'); try assumption.
    + intros payload s s'. apply handleFrame_remains.
    + intros err s _. apply rejectAllPending_remains.
    + intros d s. apply Remains_same. reflexivity.
  - inversion Hs; subst. apply rejectAllPending_remains.
  - inversion Hs; subst. apply rejectAllPending_remains.
  - inversion Hs; subst.
    destruct (timeoutChecker (pipeline w));
      [apply timeoutCheck_remains, HR | exact HR].
  - inversion Hs; subst. apply destroy_remains.
Qed.

End RemainsFacts.

Section OrderFacts.
Import Js Bytes Pipeline Invariants.

Lemma sorted_map_filter {A : Type} (g : A -> nat) (f : A -> bool)
    (l : list A) :
  StronglySorted lt (map g l) -> StronglySorted lt (map g (filter f l)).
Proof.
  induction l as [ | a l IH]; cbn [map filter]; intros H; [constructor | ].
  inversion H as [ | ? ? Hl Ha]; subst.
  destruct (f a); [ | exact (IH Hl)].
  cbn [map]. constructor; [exact (IH Hl) | ].
  rewrite Forall_forall in Ha |- *. intros x Hx. apply Ha.
  apply in_map_iff in Hx as (y & <- & Hy).
  apply filter_In in Hy as [Hy _]. apply in_map, Hy.
Qed.

Lemma sorted_snoc (l : list nat) (n : nat) :
  StronglySorted lt l -> (forall x, In x l -> (x < n)%nat) ->
  StronglySorted lt (l ++ [n]).
Proof.
  induction l as [ | a l IH]; intros Hs Hlt; cbn [app].
  - constructor; constructor.
  - inversion Hs as [ | ? ? Hl Ha]; subst.
    constructor.
    + apply IH; [exact Hl | intros x Hx; apply Hlt; right; exact Hx].
    + rewrite Forall_forall in Ha |- *. intros x Hx.
      apply in_app_or in Hx as [Hx | [<- | []]];
        [apply Ha, Hx | apply Hlt; left; reflexivity].
Qed.

Lemma step_ordered (ev : Event) (w w' : World) :
  Coherent w ->
  StronglySorted lt (pendingPromises w) ->
  step ev w = Normal w' ->
  Z.of_nat (length (socketWrites w')) <= 2 ^ 32 ->
  StronglySorted lt (pendingPromises w').
Proof.
  intros Hc Ho Hs Hb.
  destruct ev as [frame opcode now | i err | chunk | err | | now | ].
  1: { cbn [step] in Hs. inversion Hs; subst w'. clear Hs.
       destruct (Z.le_gt_cases (maxPending (config (pipeline w)))
                   (Z.of_nat (size (pending (pipeline w)))))
         as [Hfull | Hroom].
       - destruct (send_rejected_fields frame opcode now w Hfull)
           as (Hp & _).
         unfold pendingPromises. rewrite Hp. exact Ho.
       - destruct (send_accepted_fields frame opcode now w ltac:(lia))
           as (_ & _ & Hw & _).
         cbv zeta in Hw. rewrite Hw, length_app in Hb. cbn [length] in Hb.
         unfold pendingPromises.
         rewrite send_accepted_pending by (assumption || lia).
         rewrite map_app. cbn [map snd promise].
         apply sorted_snoc; [exact Ho | ].
         intros x Hx. apply (coh_fresh w Hc). left.
         apply in_map_iff in Hx as (e & <- & He).
         apply (pending_written w e Hc He). }
  all: assert (HR : Remains (pending (pipeline w)) w')
         by (eapply step_remains; [ | | exact Hs];
             [intros; discriminate
             | exists (fun _ => true); symmetry; apply filter_all]);
       destruct HR as [f Hf]; unfold pendingPromises; rewrite Hf;
       apply sorted_map_filter; exact Ho.
Qed.

Lemma run_ordered (evs : list Event) :
  forall w w' : World,
    Coherent w ->
    StronglySorted lt (pendingPromises w) ->
    run evs w = Normal w' ->
    Z.of_nat (length (socketWrites w')) <= 2 ^ 32 ->
    StronglySorted lt (pendingPromises w').
Proof.
  induction evs as [ | ev evs IH]; intros w w' Hc Ho Hr Hb.
  - inversion Hr; subst. exact Ho.
  - cbn [run] in Hr. destruct (step ev w) as [w1 | e w1] eqn:Es;
      [ | discriminate].
    pose proof (Extends_writes_le _ _ (run_extends evs w1 w' Hr)) as Hle.
    apply (IH w1 w');
      [apply (step_coherent ev w w1 Hc Es); lia
      | apply (step_ordered ev w w1 Hc Ho Es); lia
      | exact Hr | exact Hb].
Qed.

End OrderFacts.

(** X28 (the pending map is in request order).  In every state a
    pipeline reaches with at most 2^32 requests written, the entries of
    the pending map stand in the order in which their requests were sent:
    along the map the promises are in strictly increasing order of
    creation.  The first entry, which handleFrame takes, is the oldest
    request still pending. *)
Theorem pending_map_is_in_request_order
    (c : Pipeline.PartialConfig) (evs : list Pipeline.Event)
    (w : Pipeline.World) :
  Pipeline.run evs (Pipeline.new c) = Js.Normal w ->
  Z.of_nat (length (Pipeline.socketWrites w)) <= 2 ^ 32 ->
  StronglySorted lt (Pipeline.pendingPromises w).
Proof.
  intros Hr Hb.
  apply (run_ordered evs (Pipeline.new c) w);
    [apply new_coherent | constructor | exact Hr | exact Hb].
Qed.

Lemma pending_map_is_in_request_order_witness :
  StronglySorted lt
    (Pipeline.pendingPromises
       (Js.state
          (Pipeline.run
             [Pipeline.Send [x01] 0x40 0; Pipeline.Send [x02] 0x40 1;
              Pipeline.Send [x03] 0x40 2;
              Pipeline.WriteCallback 1 (Some Js.ConnectionClosed);
              Pipeline.Send [x04] 0x40 3]
             (Pipeline.new Pipeline.noConfig)))).
Proof.
  apply (pending_map_is_in_request_order Pipeline.noConfig
           [Pipeline.Send [x01] 0x40 0; Pipeline.Send [x02] 0x40 1;
            Pipeline.Send [x03] 0x40 2;
            Pipeline.WriteCallback 1 (Some Js.ConnectionClosed);
            Pipeline.Send [x04] 0x40 3]).
  - vm_compute. reflexivity.
  - vm_compute. discriminate.
Defined.

